(** * Better Comments: the comment-tag recognition engine of [src/parser.ts]

    A shallow embedding of the [Parser] class: the tag registry built by
    [setTags], the language table of [setDelimiter], the pattern assembled by
    [SetRegex], and the three scans [FindSingleLineComments],
    [FindBlockComments] and [FindJSDocComments], together with the part of
    the regular-expression engine they run on.

    Conventions of the embedding.
    - A JavaScript string is a [string] of 8-bit code units, the code
      points 0 to 255; the case mappings ([toLowerCase], the engine's
      [Canonicalize]) are those of the letters of that range, ASCII and
      Latin-1: see [JS.isUpper] and [JS.isLower].
    - The mutable fields of a [Parser] object are threaded explicitly: a
      method is a function from the object's state to its new state.
    - A document position is represented by the offset it denotes, so that
      [positionAt] is the inclusion of offsets; [Position_line] and
      [Position_character] recover the two coordinates from the text.
    - A scan either completes, throws, or runs for ever: see [Outcome]. *)

From Stdlib Require Import String Ascii List Arith Bool Lia.
Import ListNotations.

Local Open Scope list_scope.
Local Open Scope string_scope.

(* ================================================================= *)
(** ** Strings *)

Module JS.

Definition TAB : ascii := "009"%char.
Definition LF : ascii := "010"%char.
Definition VT : ascii := "011"%char.
Definition FF : ascii := "012"%char.
Definition CR : ascii := "013"%char.
Definition NBSP : ascii := "160"%char.
Definition DQUOTE : ascii := "034"%char.

(** [s.replace(/[...]/g, '\\$&')] for a pattern that is a single character
    class: every code unit of the class gets a backslash in front. *)
Fixpoint escapeChars (inClass : ascii -> bool) (s : string) : string :=
  match s with
  | EmptyString => EmptyString
  | String c s' =>
      if inClass c then String "\" (String c (escapeChars inClass s'))
      else String c (escapeChars inClass s')
  end.

Definition oneOf (cs : string) (c : ascii) : bool :=
  existsb (Ascii.eqb c) (list_ascii_of_string cs).

(** [Array.prototype.join]. *)
Fixpoint join (sep : string) (xs : list string) : string :=
  match xs with
  | [] => ""
  | [x] => x
  | x :: rest => x ++ sep ++ join sep rest
  end%string.

(** The letters whose other case is a code unit of the range too: the
    capitals A-Z and, in Latin-1, 192-222 but for the sign at 215; the
    small letters a-z and 224-254 but for the sign at 247. In both blocks
    the small letter is the capital plus 32. *)
Definition isUpper (c : ascii) : bool :=
  let n := nat_of_ascii c in
  (Nat.leb 65 n && Nat.leb n 90)
  || (Nat.leb 192 n && Nat.leb n 222 && negb (Nat.eqb n 215)).
Definition isLower (c : ascii) : bool :=
  let n := nat_of_ascii c in
  (Nat.leb 97 n && Nat.leb n 122)
  || (Nat.leb 224 n && Nat.leb n 254 && negb (Nat.eqb n 247)).

(** One code unit of [toLowerCase], and of [toUpperCase] as
    [Canonicalize] uses it. Three small letters of the range are left as
    they are by [upperChar]: 223, whose capital is two characters, which
    [Canonicalize] refuses; 181 and 255, whose capitals lie beyond the
    range and are the capital of no other code unit of it, so that two
    code units of the range have the same capital in the engine exactly
    when they have the same [upperChar]. *)
Definition lowerChar (c : ascii) : ascii :=
  if isUpper c then ascii_of_nat (nat_of_ascii c + 32) else c.
Definition upperChar (c : ascii) : ascii :=
  if isLower c then ascii_of_nat (nat_of_ascii c - 32) else c.

(** [String.prototype.toLowerCase]. *)
Fixpoint toLowerCase (s : string) : string :=
  match s with
  | EmptyString => EmptyString
  | String c s' => String (lowerChar c) (toLowerCase s')
  end.

End JS.

(* ================================================================= *)
(** ** The data of [parser.ts] *)

(** Positions and ranges of the editor. *)
Definition Position := nat.

Record Range := { start : Position; end_ : Position }.

Record DecorationOptions := { range : Range }.

(** The render options [setTags] hands to [createTextEditorDecorationType];
    the decoration type it gets back is identified with them. *)
Record DecorationRenderOptions := {
  color : string;
  backgroundColor : string;
  textDecoration : string;
  fontWeight : option string;
  fontStyle : option string
}.

Record CommentTag := {
  tag : string;
  escapedTag : string;
  decoration : DecorationRenderOptions;
  ranges : list DecorationOptions
}.

Record TagItem := {
  item_tag : string;
  item_color : string;
  item_strikethrough : bool;
  item_underline : bool;
  item_bold : bool;
  item_italic : bool;
  item_backgroundColor : string
}.

Record Contributions := {
  multilineComments : bool;
  useJSDocStyle : bool;
  highlightPlainText : bool;
  tags : list TagItem
}.

Record Parser := {
  p_tags : list CommentTag;
  expression : string;
  delimiter : string;
  blockCommentStart : string;
  blockCommentEnd : string;
  highlightSingleLineComments : bool;
  highlightMultilineComments : bool;
  highlightJSDoc : bool;
  isPlainText : bool;
  ignoreFirstLine : bool;
  supportedLanguage : bool;
  contributions : Contributions
}.

(** Field assignments [this.f = v]. *)
Definition set_tags v (this : Parser) : Parser :=
  {| p_tags := v; expression := expression this; delimiter := delimiter this;
     blockCommentStart := blockCommentStart this;
     blockCommentEnd := blockCommentEnd this;
     highlightSingleLineComments := highlightSingleLineComments this;
     highlightMultilineComments := highlightMultilineComments this;
     highlightJSDoc := highlightJSDoc this; isPlainText := isPlainText this;
     ignoreFirstLine := ignoreFirstLine this;
     supportedLanguage := supportedLanguage this;
     contributions := contributions this |}.

Definition set_expression v (this : Parser) : Parser :=
  {| p_tags := p_tags this; expression := v; delimiter := delimiter this;
     blockCommentStart := blockCommentStart this;
     blockCommentEnd := blockCommentEnd this;
     highlightSingleLineComments := highlightSingleLineComments this;
     highlightMultilineComments := highlightMultilineComments this;
     highlightJSDoc := highlightJSDoc this; isPlainText := isPlainText this;
     ignoreFirstLine := ignoreFirstLine this;
     supportedLanguage := supportedLanguage this;
     contributions := contributions this |}.

Definition set_delimiter v (this : Parser) : Parser :=
  {| p_tags := p_tags this; expression := expression this; delimiter := v;
     blockCommentStart := blockCommentStart this;
     blockCommentEnd := blockCommentEnd this;
     highlightSingleLineComments := highlightSingleLineComments this;
     highlightMultilineComments := highlightMultilineComments this;
     highlightJSDoc := highlightJSDoc this; isPlainText := isPlainText this;
     ignoreFirstLine := ignoreFirstLine this;
     supportedLanguage := supportedLanguage this;
     contributions := contributions this |}.

Definition set_blockCommentStart v (this : Parser) : Parser :=
  {| p_tags := p_tags this; expression := expression this;
     delimiter := delimiter this;
     blockCommentStart := v;
     blockCommentEnd := blockCommentEnd this;
     highlightSingleLineComments := highlightSingleLineComments this;
     highlightMultilineComments := highlightMultilineComments this;
     highlightJSDoc := highlightJSDoc this; isPlainText := isPlainText this;
     ignoreFirstLine := ignoreFirstLine this;
     supportedLanguage := supportedLanguage this;
     contributions := contributions this |}.

Definition set_blockCommentEnd v (this : Parser) : Parser :=
  {| p_tags := p_tags this; expression := expression this;
     delimiter := delimiter this;
     blockCommentStart := blockCommentStart this;
     blockCommentEnd := v;
     highlightSingleLineComments := highlightSingleLineComments this;
     highlightMultilineComments := highlightMultilineComments this;
     highlightJSDoc := highlightJSDoc this; isPlainText := isPlainText this;
     ignoreFirstLine := ignoreFirstLine this;
     supportedLanguage := supportedLanguage this;
     contributions := contributions this |}.

Definition set_highlightSingleLineComments v (this : Parser) : Parser :=
  {| p_tags := p_tags this; expression := expression this;
     delimiter := delimiter this;
     blockCommentStart := blockCommentStart this;
     blockCommentEnd := blockCommentEnd this;
     highlightSingleLineComments := v;
     highlightMultilineComments := highlightMultilineComments this;
     highlightJSDoc := highlightJSDoc this; isPlainText := isPlainText this;
     ignoreFirstLine := ignoreFirstLine this;
     supportedLanguage := supportedLanguage this;
     contributions := contributions this |}.

Definition set_highlightMultilineComments v (this : Parser) : Parser :=
  {| p_tags := p_tags this; expression := expression this;
     delimiter := delimiter this;
     blockCommentStart := blockCommentStart this;
     blockCommentEnd := blockCommentEnd this;
     highlightSingleLineComments := highlightSingleLineComments this;
     highlightMultilineComments := v;
     highlightJSDoc := highlightJSDoc this; isPlainText := isPlainText this;
     ignoreFirstLine := ignoreFirstLine this;
     supportedLanguage := supportedLanguage this;
     contributions := contributions this |}.

Definition set_highlightJSDoc v (this : Parser) : Parser :=
  {| p_tags := p_tags this; expression := expression this;
     delimiter := delimiter this;
     blockCommentStart := blockCommentStart this;
     blockCommentEnd := blockCommentEnd this;
     highlightSingleLineComments := highlightSingleLineComments this;
     highlightMultilineComments := highlightMultilineComments this;
     highlightJSDoc := v; isPlainText := isPlainText this;
     ignoreFirstLine := ignoreFirstLine this;
     supportedLanguage := supportedLanguage this;
     contributions := contributions this |}.

Definition set_isPlainText v (this : Parser) : Parser :=
  {| p_tags := p_tags this; expression := expression this;
     delimiter := delimiter this;
     blockCommentStart := blockCommentStart this;
     blockCommentEnd := blockCommentEnd this;
     highlightSingleLineComments := highlightSingleLineComments this;
     highlightMultilineComments := highlightMultilineComments this;
     highlightJSDoc := highlightJSDoc this; isPlainText := v;
     ignoreFirstLine := ignoreFirstLine this;
     supportedLanguage := supportedLanguage this;
     contributions := contributions this |}.

Definition set_ignoreFirstLine v (this : Parser) : Parser :=
  {| p_tags := p_tags this; expression := expression this;
     delimiter := delimiter this;
     blockCommentStart := blockCommentStart this;
     blockCommentEnd := blockCommentEnd this;
     highlightSingleLineComments := highlightSingleLineComments this;
     highlightMultilineComments := highlightMultilineComments this;
     highlightJSDoc := highlightJSDoc this; isPlainText := isPlainText this;
     ignoreFirstLine := v;
     supportedLanguage := supportedLanguage this;
     contributions := contributions this |}.

Definition set_supportedLanguage v (this : Parser) : Parser :=
  {| p_tags := p_tags this; expression := expression this;
     delimiter := delimiter this;
     blockCommentStart := blockCommentStart this;
     blockCommentEnd := blockCommentEnd this;
     highlightSingleLineComments := highlightSingleLineComments this;
     highlightMultilineComments := highlightMultilineComments this;
     highlightJSDoc := highlightJSDoc this; isPlainText := isPlainText this;
     ignoreFirstLine := ignoreFirstLine this;
     supportedLanguage := v;
     contributions := contributions this |}.

(* ================================================================= *)
(** ** Tag registry and grammar table *)

(** [escapeRegExp]: [input.replace(/[.*+?^${}()|[\]\\]/g, '\\$&')]. *)
Definition escapeRegExp (input : string) : string :=
  JS.escapeChars (JS.oneOf ".*+?^${}()|[]\") input.

(** The two replacements of [setTags]:
    [item.tag.replace(/([()[{*+.$^\\|?])/g, '\\$1')] and then
    [.replace(/\//gi, "\\/")]. *)
Definition escapedSequence (t : string) : string :=
  JS.escapeChars (JS.oneOf "()[{*+.$^\|?") t.

Definition escapeSlashes (s : string) : string :=
  JS.escapeChars (JS.oneOf "/") s.

Definition renderOptions (item : TagItem) : DecorationRenderOptions :=
  let td0 := "" in
  let td1 := if item_strikethrough item then td0 ++ "line-through" else td0 in
  let td2 := if item_underline item then td1 ++ " underline" else td1 in
  {| color := item_color item;
     backgroundColor := item_backgroundColor item;
     textDecoration := td2;
     fontWeight := if item_bold item then Some "bold" else None;
     fontStyle := if item_italic item then Some "italic" else None |}%string.

Definition makeTag (item : TagItem) : CommentTag :=
  {| tag := item_tag item;
     escapedTag := escapeSlashes (escapedSequence (item_tag item));
     ranges := [];
     decoration := renderOptions item |}.

(** [setTags]: one [push] per configured item, in the order of the items. *)
Definition setTags (this : Parser) : Parser :=
  fold_left (fun this item => set_tags (p_tags this ++ [makeTag item])%list this)
            (tags (contributions this)) this.

(** The field initialisers of the class followed by the constructor. *)
Definition new_Parser (c : Contributions) : Parser :=
  setTags
    {| p_tags := []; expression := ""; delimiter := "";
       blockCommentStart := ""; blockCommentEnd := "";
       highlightSingleLineComments := true;
       highlightMultilineComments := false;
       highlightJSDoc := false;
       isPlainText := false;
       ignoreFirstLine := false;
       supportedLanguage := true;
       contributions := c |}.

(** [setCommentFormat]; a [null] or empty [singleLine] is falsy. *)
Definition setCommentFormat (singleLine : option string) (start_ end' : string)
    (this : Parser) : Parser :=
  let this :=
    match singleLine with
    | Some (String c s) => set_delimiter (escapeRegExp (String c s)) this
    | _ => set_highlightSingleLineComments false this
    end in
  let this := set_blockCommentStart (escapeRegExp start_) this in
  let this := set_blockCommentEnd (escapeRegExp end') this in
  set_highlightMultilineComments (multilineComments (contributions this)) this.

Definition case_ (languageCode : string) (labels : list string) : bool :=
  existsb (String.eqb languageCode) labels.

Definition triple_quote : string :=
  String JS.DQUOTE (String JS.DQUOTE (String JS.DQUOTE "")).
Definition one_quote : string := String JS.DQUOTE "".

(** The body of the [plaintext] case, which the [alloy] case falls into. *)
Definition case_plaintext (this : Parser) : Parser :=
  let this := set_isPlainText true this in
  set_supportedLanguage (highlightPlainText (contributions this)) this.

(** [setDelimiter]: the [switch] on the language code, labels in source
    order (a label that occurs twice is taken at its first occurrence). *)
Definition setDelimiter (languageCode : string) (this : Parser) : Parser :=
  let this := set_supportedLanguage true this in
  let this := set_ignoreFirstLine false this in
  let this := set_isPlainText false this in
  let label := case_ languageCode in
  if label ["asciidoc"] then
    setCommentFormat (Some "//") "////" "////" this
  else if label ["apex"; "javascript"; "javascriptreact"; "typescript";
              "typescriptreact"] then
    set_highlightJSDoc true (setCommentFormat (Some "//") "/*" "*/" this)
  else if label ["al"; "c"; "cpp"; "csharp"; "dafny"; "dart"; "flax"; "fsharp";
              "go"; "groovy"; "haxe"; "java"; "jsonc"; "kotlin"; "less";
              "pascal"; "objectpascal"; "php"; "promela"; "rust"; "scala";
              "sass"; "scss"; "shaderlab"; "stylus"; "swift"; "verilog";
              "vue"] then
    setCommentFormat (Some "//") "/*" "*/" this
  else if label ["css"] then
    setCommentFormat (Some "/*") "/*" "*/" this
  else if label ["coffeescript"; "cson"; "dockerfile"; "gdscript"; "graphql";
              "julia"; "makefile"; "perl"; "perl6"; "puppet"; "r"; "ruby";
              "shellscript"; "tcl"; "toml"; "yaml"] then
    set_delimiter "#" this
  else if label ["tcl"] then
    set_ignoreFirstLine true (set_delimiter "#" this)
  else if label ["gitconfig"] then
    set_delimiter "[#;]" this
  else if label ["gitignore"] then
    set_isPlainText true (set_delimiter "^#" this)
  else if label ["elixir"; "python"] then
    set_ignoreFirstLine true
      (setCommentFormat (Some "#") triple_quote triple_quote this)
  else if label ["nim"] then
    setCommentFormat (Some "#") "#[" "]#" this
  else if label ["powershell"] then
    setCommentFormat (Some "#") "<#" "#>" this
  else if label ["ada"; "hive-sql"; "pig"; "plsql"; "sql"] then
    set_delimiter "--" this
  else if label ["lua"] then
    setCommentFormat (Some "--") "--[[" "]]" this
  else if label ["elm"; "haskell"] then
    setCommentFormat (Some "--") "{-" "-}" this
  else if label ["brightscript"; "diagram"; "vb"] then
    set_delimiter "'" this
  else if label ["bibtex"; "tex"; "erlang"; "matlab"] then
    set_delimiter "%" this
  else if label ["latex"] then
    setCommentFormat (Some "%") "\begin{comment}" "\end{comment}" this
  else if label ["ahk"] then
    setCommentFormat (Some ";") "/*" "*/" this
  else if label ["clojure"; "racket"; "lisp"; "rainmeter"] then
    set_delimiter ";" this
  else if label ["gas"; "terraform"] then
    setCommentFormat (Some "#") "/*" "*/" this
  else if label ["COBOL"] then
    set_delimiter (escapeRegExp "*>") this
  else if label ["fortran-modern"] then
    set_delimiter "c" this
  else if label ["SAS"; "stata"] then
    setCommentFormat (Some "*") "/*" "*/" this
  else if label ["html"; "markdown"; "xml"] then
    setCommentFormat (Some "<!--") "<!--" "-->" this
  else if label ["twig"] then
    setCommentFormat (Some "{#") "{#" "#}" this
  else if label ["genstat"] then
    setCommentFormat (Some "\") one_quote one_quote this
  else if label ["cfml"] then
    setCommentFormat (Some "<!---") "<!---" "--->" this
  else if label ["alloy"] then
    (* no [break]: control falls through into the [plaintext] case *)
    let this := set_delimiter "(?://|--)" this in
    let this := set_blockCommentStart (escapeRegExp "/*") this in
    let this := set_blockCommentEnd (escapeRegExp "*/") this in
    let this :=
      set_highlightMultilineComments (multilineComments (contributions this))
        this in
    case_plaintext this
  else if label ["plaintext"] then
    case_plaintext this
  else
    set_supportedLanguage false this.

(** [SetRegex]: the single-line pattern, as a string. *)
Definition SetRegex (languageCode : string) (this : Parser) : Parser :=
  let this := setDelimiter languageCode this in
  if negb (supportedLanguage this) then this
  else
    let characters := map escapedTag (p_tags this) in
    let this :=
      if isPlainText this && highlightPlainText (contributions this) then
        set_expression "(^)+([ \t]*[ \t]*)" this
      else
        set_expression
          ("(" ++ escapeSlashes (delimiter this) ++ ")+( |"
               ++ String JS.TAB "" ++ ")*") this in
    let this := set_expression (expression this ++ "(") this in
    let this := set_expression (expression this ++ JS.join "|" characters) this in
    set_expression (expression this ++ ")+(.*)") this.

(* ================================================================= *)
(** ** The regular-expression engine

    [new RegExp(pattern, flags)] and [RegExp.prototype.exec], for the pattern
    language the parser's expressions are written in: literal characters,
    escapes, [.], character classes, [^] and [$], capturing and [(?:)]
    groups, alternation and the quantifiers [*], [+], [?] with their lazy
    forms. Matching is the backtracking semantics of ECMA-262 (15.10.2):
    a matcher takes a state and a continuation. *)

Module RegExp.

Inductive ClassAtom :=
| ClassChar (c : ascii)
| ClassSpace            (* \s *)
| ClassNotSpace.        (* \S *)

Inductive Regex :=
| Empty
| Char (c : ascii)
| Dot
| CharClass (invert : bool) (atoms : list ClassAtom)
| AssertBOL
| AssertEOL
| Group (n : nat) (r : Regex)
| Seq (r1 r2 : Regex)
| Alt (r1 r2 : Regex)
| Repeat (min : nat) (max : option nat) (greedy : bool) (r : Regex).

(* --------------------------------------------------------------- *)
(** *** Patterns: from the source text to a [Regex] *)

(** An open group (or the whole pattern) under construction: its finished
    alternatives and the terms of the current one, both most recent
    first. [f_quantifiable] tells whether the last term may still take a
    quantifier. *)
Record Frame := {
  f_group : option nat;
  f_alts : list Regex;
  f_terms : list Regex;
  f_quantifiable : bool
}.

Definition emptyFrame (g : option nat) : Frame :=
  {| f_group := g; f_alts := []; f_terms := []; f_quantifiable := false |}.

Definition pushTerm (quantifiable : bool) (t : Regex) (f : Frame) : Frame :=
  {| f_group := f_group f; f_alts := f_alts f;
     f_terms := t :: f_terms f; f_quantifiable := quantifiable |}.

Definition seqOf (termsRev : list Regex) : Regex :=
  fold_left (fun acc t => Seq t acc) termsRev Empty.

Definition nextAlt (f : Frame) : Frame :=
  {| f_group := f_group f; f_alts := seqOf (f_terms f) :: f_alts f;
     f_terms := []; f_quantifiable := false |}.

Definition altOf (last : Regex) (altsRev : list Regex) : Regex :=
  fold_left (fun acc a => Alt a acc) altsRev last.

Definition closeFrame (f : Frame) : Regex :=
  let d := altOf (seqOf (f_terms f)) (f_alts f) in
  match f_group f with
  | Some n => Group n d
  | None => d
  end.

Definition quantify (min : nat) (max : option nat) (greedy : bool)
    (f : Frame) : option Frame :=
  match f_terms f with
  | t :: ts =>
      if f_quantifiable f then
        Some {| f_group := f_group f; f_alts := f_alts f;
                f_terms := Repeat min max greedy t :: ts;
                f_quantifiable := false |}
      else None
  | [] => None
  end.

Definition isSyntaxChar (c : ascii) : bool :=
  JS.oneOf "^$\.*+?()[]{}|/" c.

(** The atom an escape [\e] stands for, outside a class. *)
Definition atomEscape (e : ascii) : option Regex :=
  if Ascii.eqb e "t" then Some (Char JS.TAB)
  else if Ascii.eqb e "n" then Some (Char JS.LF)
  else if Ascii.eqb e "v" then Some (Char JS.VT)
  else if Ascii.eqb e "f" then Some (Char JS.FF)
  else if Ascii.eqb e "r" then Some (Char JS.CR)
  else if Ascii.eqb e "s" then Some (CharClass false [ClassSpace])
  else if Ascii.eqb e "S" then Some (CharClass false [ClassNotSpace])
  else if isSyntaxChar e then Some (Char e)
  else None.

(** The class atom an escape [\e] stands for, inside a class. *)
Definition classEscape (e : ascii) : option ClassAtom :=
  if Ascii.eqb e "t" then Some (ClassChar JS.TAB)
  else if Ascii.eqb e "n" then Some (ClassChar JS.LF)
  else if Ascii.eqb e "v" then Some (ClassChar JS.VT)
  else if Ascii.eqb e "f" then Some (ClassChar JS.FF)
  else if Ascii.eqb e "r" then Some (ClassChar JS.CR)
  else if Ascii.eqb e "s" then Some ClassSpace
  else if Ascii.eqb e "S" then Some ClassNotSpace
  else if isSyntaxChar e || Ascii.eqb e "-" then Some (ClassChar e)
  else None.

(** The pattern is read left to right. [cls] is [Some (invert, atoms)]
    inside a character class; [cur] is the innermost open group, [stack]
    the groups around it, [next] the number of the next capturing group.
    [None] stands for a [SyntaxError], and for the constructs left out
    (look-ahead, back-references, braces as quantifiers, class ranges,
    the escapes of letters and digits other than [t n v f r s S]): no
    expression of the parser contains one. *)
Fixpoint parse (s : string) (cls : option (bool * list ClassAtom))
    (cur : Frame) (stack : list Frame) (next : nat) : option (Regex * nat) :=
  match s with
  | EmptyString =>
      match cls, stack with
      | None, [] => Some (closeFrame cur, next)
      | _, _ => None
      end
  | String c rest =>
      match cls with
      | Some (inv, atoms) =>
          if Ascii.eqb c "]" then
            parse rest None
              (pushTerm true (CharClass inv (rev atoms)) cur) stack next
          else if Ascii.eqb c "\" then
            match rest with
            | String e rest' =>
                match classEscape e with
                | Some a => parse rest' (Some (inv, a :: atoms)) cur stack next
                | None => None
                end
            | EmptyString => None
            end
          else if Ascii.eqb c "-" then
            match atoms, rest with
            | [], _ => parse rest (Some (inv, [ClassChar c])) cur stack next
            | _, String c' _ =>
                if Ascii.eqb c' "]" then
                  parse rest (Some (inv, ClassChar c :: atoms)) cur stack next
                else None
            | _, _ => None
            end
          else parse rest (Some (inv, ClassChar c :: atoms)) cur stack next
      | None =>
          if Ascii.eqb c "(" then
            match rest with
            | String q rest1 =>
                if Ascii.eqb q "?" then
                  match rest1 with
                  | String k rest' =>
                      if Ascii.eqb k ":" then
                        parse rest' None (emptyFrame None) (cur :: stack) next
                      else None
                  | EmptyString => None
                  end
                else
                  parse rest None (emptyFrame (Some next)) (cur :: stack)
                    (S next)
            | EmptyString => None
            end
          else if Ascii.eqb c ")" then
            match stack with
            | parent :: stack' =>
                parse rest None (pushTerm true (closeFrame cur) parent)
                  stack' next
            | [] => None
            end
          else if Ascii.eqb c "|" then
            parse rest None (nextAlt cur) stack next
          else if Ascii.eqb c "*" || Ascii.eqb c "+" || Ascii.eqb c "?" then
            let min := if Ascii.eqb c "+" then 1 else 0 in
            let max := if Ascii.eqb c "?" then Some 1 else None in
            match rest with
            | String q rest' =>
                if Ascii.eqb q "?" then
                  match quantify min max false cur with
                  | Some cur' => parse rest' None cur' stack next
                  | None => None
                  end
                else
                  match quantify min max true cur with
                  | Some cur' => parse rest None cur' stack next
                  | None => None
                  end
            | EmptyString =>
                match quantify min max true cur with
                | Some cur' => parse rest None cur' stack next
                | None => None
                end
            end
          else if Ascii.eqb c "[" then
            match rest with
            | String q rest' =>
                if Ascii.eqb q "^" then
                  parse rest' (Some (true, [])) cur stack next
                else parse rest (Some (false, [])) cur stack next
            | EmptyString => None
            end
          else if Ascii.eqb c "\" then
            match rest with
            | String e rest' =>
                match atomEscape e with
                | Some a => parse rest' None (pushTerm true a cur) stack next
                | None => None
                end
            | EmptyString => None
            end
          else if Ascii.eqb c "." then
            parse rest None (pushTerm true Dot cur) stack next
          else if Ascii.eqb c "^" then
            parse rest None (pushTerm false AssertBOL cur) stack next
          else if Ascii.eqb c "$" then
            parse rest None (pushTerm false AssertEOL cur) stack next
          else if Ascii.eqb c "{" then None
          else parse rest None (pushTerm true (Char c) cur) stack next
      end
  end.

Record Flags := { global : bool; ignoreCase : bool; multiline : bool }.

Definition parseFlags (f : string) : Flags :=
  {| global := JS.oneOf f "g"; ignoreCase := JS.oneOf f "i";
     multiline := JS.oneOf f "m" |}.

(** A [RegExp] object: the compiled pattern, its number of capturing
    groups, the flags and the mutable [lastIndex]. *)
Record RegExp := {
  source : Regex;
  nGroups : nat;
  flags : Flags;
  lastIndex : nat
}.

(** [new RegExp(pattern, flags)]. *)
Definition new (pattern flags : string) : option RegExp :=
  match parse pattern None (emptyFrame None) [] 1 with
  | Some (r, next) =>
      Some {| source := r; nGroups := next - 1;
              flags := parseFlags flags; lastIndex := 0 |}
  | None => None
  end.

(* --------------------------------------------------------------- *)
(** *** Matching *)

(** A match state: the end index and the captures, group number to
    (start, end). *)
Record State := {
  endIndex : nat;
  captures : nat -> option (nat * nat)
}.

Definition MatchResult := option State.
Definition Continuation := State -> MatchResult.
Definition Matcher := State -> Continuation -> MatchResult.

Definition isLineTerminator (c : ascii) : bool :=
  Ascii.eqb c JS.LF || Ascii.eqb c JS.CR.

Definition whiteSpace : list ascii :=
  [JS.TAB; JS.LF; JS.VT; JS.FF; JS.CR; " "%char; JS.NBSP].

Definition isWhiteSpace (c : ascii) : bool :=
  existsb (Ascii.eqb c) whiteSpace.

Definition advance (x : State) : State :=
  {| endIndex := S (endIndex x); captures := captures x |}.

Definition setCapture (n : nat) (span : nat * nat) (x : State) : State :=
  {| endIndex := endIndex x;
     captures := fun k => if Nat.eqb k n then Some span else captures x k |}.

Definition clearCaptures (ns : list nat) (x : State) : State :=
  {| endIndex := endIndex x;
     captures := fun k => if existsb (Nat.eqb k) ns then None
                          else captures x k |}.

(** The numbers of the capturing groups inside [r]. *)
Fixpoint groupsOf (r : Regex) : list nat :=
  match r with
  | Group n r' => n :: groupsOf r'
  | Seq r1 r2 | Alt r1 r2 => groupsOf r1 ++ groupsOf r2
  | Repeat _ _ _ r' => groupsOf r'
  | _ => []
  end%list.

Definition predMax (max : option nat) : option nat :=
  match max with
  | Some k => Some (k - 1)
  | None => None
  end.

Definition orElse (z : MatchResult) (other : unit -> MatchResult)
    : MatchResult :=
  match z with
  | Some y => Some y
  | None => other tt
  end.

(** [RepeatMatcher] (15.10.2.5). An iteration that matches the empty
    string once [min] is used up fails, so every further iteration moves
    the end index forward and [fuel], the number of iterations still
    possible, is never exhausted when it starts at [repeatFuel]. *)
Fixpoint RepeatMatcher (m : Matcher) (inner : list nat) (greedy : bool)
    (fuel : nat) (min : nat) (max : option nat) (x : State)
    (c : Continuation) : MatchResult :=
  match fuel with
  | 0 => None
  | S fuel' =>
      match max with
      | Some 0 => c x
      | _ =>
          let d : Continuation := fun y =>
            if Nat.eqb min 0 && Nat.eqb (endIndex y) (endIndex x) then None
            else RepeatMatcher m inner greedy fuel' (min - 1) (predMax max)
                   y c in
          let xr := clearCaptures inner x in
          if negb (Nat.eqb min 0) then m xr d
          else if greedy then orElse (m xr d) (fun _ => c x)
          else orElse (c x) (fun _ => m xr d)
      end
  end.

Section Matching.

Variable input : list ascii.
Variable fl : Flags.

(** [Canonicalize] (15.10.2.8). *)
Definition Canonicalize (ch : ascii) : ascii :=
  if ignoreCase fl then JS.upperChar ch else ch.

Definition classAtomMatches (a : ClassAtom) (ch : ascii) : bool :=
  match a with
  | ClassChar c => Ascii.eqb (Canonicalize c) (Canonicalize ch)
  | ClassSpace => isWhiteSpace ch
  | ClassNotSpace => negb (isWhiteSpace ch)
  end.

(** [CharacterSetMatcher]: one character, tested by [accepts]. *)
Definition CharacterSetMatcher (accepts : ascii -> bool) : Matcher :=
  fun x c =>
    match nth_error input (endIndex x) with
    | Some ch => if accepts ch then c (advance x) else None
    | None => None
    end.

Definition atLineStart (e : nat) : bool :=
  match e with
  | 0 => true
  | S e' =>
      multiline fl &&
      match nth_error input e' with
      | Some ch => isLineTerminator ch
      | None => false
      end
  end.

Definition atLineEnd (e : nat) : bool :=
  match nth_error input e with
  | None => Nat.eqb e (length input)
  | Some ch => multiline fl && isLineTerminator ch
  end.

Definition repeatFuel (min : nat) (x : State) : nat :=
  S (min + (length input - endIndex x)).

(** The matcher of a pattern (15.10.2.3 to 15.10.2.8). *)
Fixpoint matcher (r : Regex) : Matcher :=
  match r with
  | Empty => fun x c => c x
  | Char ch =>
      CharacterSetMatcher
        (fun a => Ascii.eqb (Canonicalize ch) (Canonicalize a))
  | Dot => CharacterSetMatcher (fun a => negb (isLineTerminator a))
  | CharClass invert atoms =>
      CharacterSetMatcher
        (fun a => xorb invert
                    (existsb (fun at_ => classAtomMatches at_ a) atoms))
  | AssertBOL => fun x c => if atLineStart (endIndex x) then c x else None
  | AssertEOL => fun x c => if atLineEnd (endIndex x) then c x else None
  | Group n r' =>
      fun x c =>
        matcher r' x
          (fun y => c (setCapture n (endIndex x, endIndex y) y))
  | Seq r1 r2 => fun x c => matcher r1 x (fun y => matcher r2 y c)
  | Alt r1 r2 =>
      fun x c => orElse (matcher r1 x c) (fun _ => matcher r2 x c)
  | Repeat min max greedy r' =>
      fun x c =>
        RepeatMatcher (matcher r') (groupsOf r') greedy
          (repeatFuel min x) min max x c
  end.

Definition initialState (i : nat) : State :=
  {| endIndex := i; captures := fun _ => None |}.

(** The pattern tried at index [i], with the continuation that always
    succeeds. *)
Definition matchAt (r : Regex) (i : nat) : MatchResult :=
  matcher r (initialState i) (fun y => Some y).

(** The loop of [exec] (15.10.6.2, step 9): the first index from [i] on
    at which the pattern matches. [fuel] bounds the indices left. *)
Fixpoint search (r : Regex) (fuel : nat) (i : nat) : option (nat * State) :=
  match fuel with
  | 0 => None
  | S fuel' =>
      if Nat.ltb (length input) i then None
      else
        match matchAt r i with
        | Some y => Some (i, y)
        | None => search r fuel' (S i)
        end
  end.

(** What the matcher explores, as a relation: [Matches r x y] when [r]
    can take the state [x] to the state [y]. The matcher of [r] returns
    the first [y], in the order of its choices, that its continuation
    accepts. *)
Inductive Matches : Regex -> State -> State -> Prop :=
| M_Empty x : Matches Empty x x
| M_Char ch a x :
    nth_error input (endIndex x) = Some a ->
    Ascii.eqb (Canonicalize ch) (Canonicalize a) = true ->
    Matches (Char ch) x (advance x)
| M_Dot a x :
    nth_error input (endIndex x) = Some a ->
    isLineTerminator a = false ->
    Matches Dot x (advance x)
| M_Class invert atoms a x :
    nth_error input (endIndex x) = Some a ->
    xorb invert (existsb (fun at_ => classAtomMatches at_ a) atoms) = true ->
    Matches (CharClass invert atoms) x (advance x)
| M_BOL x : atLineStart (endIndex x) = true -> Matches AssertBOL x x
| M_EOL x : atLineEnd (endIndex x) = true -> Matches AssertEOL x x
| M_Group n r x y :
    Matches r x y ->
    Matches (Group n r) x (setCapture n (endIndex x, endIndex y) y)
| M_Seq r1 r2 x y z :
    Matches r1 x y -> Matches r2 y z -> Matches (Seq r1 r2) x z
| M_AltL r1 r2 x y : Matches r1 x y -> Matches (Alt r1 r2) x y
| M_AltR r1 r2 x y : Matches r2 x y -> Matches (Alt r1 r2) x y
| M_RepZero min greedy r x : Matches (Repeat min (Some 0) greedy r) x x
| M_RepStop max greedy r x :
    max <> Some 0 -> Matches (Repeat 0 max greedy r) x x
| M_RepStep min max greedy r x y z :
    max <> Some 0 ->
    Matches r (clearCaptures (groupsOf r) x) y ->
    (min = 0 -> endIndex y <> endIndex x) ->
    Matches (Repeat (min - 1) (predMax max) greedy r) y z ->
    Matches (Repeat min max greedy r) x z.

(** Every capture lies between [lo] and the end index. *)
Definition capsWithin (lo : nat) (x : State) : Prop :=
  forall k s e, captures x k = Some (s, e) ->
                lo <= s /\ s <= e /\ e <= endIndex x.

End Matching.

(** The array [exec] returns: [index] and the elements [0..nGroups],
    an unmatched group being [undefined]. *)
Record ExecArray := {
  index : nat;
  elements : list (option string)
}.

Definition element (a : ExecArray) (k : nat) : option string :=
  nth k (elements a) None.

Definition slice (S_ : string) (span : nat * nat) : string :=
  substring (fst span) (snd span - fst span) S_.

Definition set_lastIndex (v : nat) (R : RegExp) : RegExp :=
  {| source := source R; nGroups := nGroups R; flags := flags R;
     lastIndex := v |}.

(** [RegExp.prototype.exec]: the result and the object with its new
    [lastIndex]. *)
Definition exec (R : RegExp) (S_ : string) : option ExecArray * RegExp :=
  let input := list_ascii_of_string S_ in
  let i := if global (flags R) then lastIndex R else 0 in
  match search input (flags R) (source R) (S (length input - i)) i with
  | None => (None, set_lastIndex 0 R)
  | Some (i', y) =>
      let e := endIndex y in
      (Some {| index := i';
               elements :=
                 Some (slice S_ (i', e))
                 :: map (fun k => option_map (slice S_) (captures y k))
                      (seq 1 (nGroups R)) |},
       if global (flags R) then set_lastIndex e R else R)
  end.

End RegExp.

(* ================================================================= *)
(** ** The scans *)

Inductive Error := SyntaxError | TypeError.

(** What running a method comes to: it returns, it throws, or it never
    returns. *)
Inductive Outcome (A : Type) :=
| Done (a : A)
| Throws (e : Error)
| Diverges.

Arguments Done {A} a.
Arguments Throws {A} e.
Arguments Diverges {A}.

Definition bind {A B} (o : Outcome A) (k : A -> Outcome B) : Outcome B :=
  match o with
  | Done a => k a
  | Throws e => Throws e
  | Diverges => Diverges
  end.

Notation "x <- o ;; k" := (bind o (fun x => k))
  (at level 61, o at next level, right associativity).

(** Reading a property of a value that may be [undefined]. *)
Definition defined {A} (o : option A) : Outcome A :=
  match o with
  | Some a => Done a
  | None => Throws TypeError
  end.

(** [new RegExp(pattern, flags)], which throws on a pattern it rejects. *)
Definition newRegExp (pattern flags : string) : Outcome RegExp.RegExp :=
  match RegExp.new pattern flags with
  | Some R => Done R
  | None => Throws SyntaxError
  end.

(** [while (match = regEx.exec(text)) body]. The loop state [a] and the
    [RegExp] object are threaded through. A match that leaves [lastIndex]
    where it was is found again by every later [exec]: the loop does not
    end. Otherwise [lastIndex] grows, at most up to the length of the text,
    which bounds the iterations by [loopFuel]. *)
Fixpoint whileExec {A} (fuel : nat) (text : string)
    (body : RegExp.ExecArray -> A -> Outcome A)
    (regEx : RegExp.RegExp) (a : A) : Outcome (A * RegExp.RegExp) :=
  match fuel with
  | 0 => Diverges
  | S fuel' =>
      match RegExp.exec regEx text with
      | (None, regEx') => Done (a, regEx')
      | (Some match_, regEx') =>
          a' <- body match_ a ;;
          if Nat.eqb (RegExp.lastIndex regEx') (RegExp.lastIndex regEx)
          then Diverges
          else whileExec fuel' text body regEx' a'
      end
  end.

Definition loopFuel (text : string) : nat := S (S (String.length text)).

(** The editor's document: [positionAt], and the coordinates of a position. *)
Definition positionAt (text : string) (offset : nat) : Position := offset.

Fixpoint coordinates (s : list ascii) (offset line character : nat)
    : nat * nat :=
  match offset, s with
  | 0, _ => (line, character)
  | S _, [] => (line, character)
  | S offset', c :: s' =>
      if Ascii.eqb c JS.LF then coordinates s' offset' (S line) 0
      else if Ascii.eqb c JS.CR then
        match s' with
        | c' :: _ =>
            if Ascii.eqb c' JS.LF then coordinates s' offset' line character
            else coordinates s' offset' (S line) 0
        | [] => coordinates s' offset' (S line) 0
        end
      else coordinates s' offset' line (S character)
  end.

Definition Position_line (text : string) (p : Position) : nat :=
  fst (coordinates (list_ascii_of_string text) p 0 0).

Definition Position_character (text : string) (p : Position) : nat :=
  snd (coordinates (list_ascii_of_string text) p 0 0).

Definition pushRange (r : DecorationOptions) (t : CommentTag) : CommentTag :=
  {| tag := tag t; escapedTag := escapedTag t; decoration := decoration t;
     ranges := (ranges t ++ [r])%list |}.

(** [find] followed by [push]: the first tag that satisfies [p] gets the
    range. *)
Fixpoint pushToFirst (p : CommentTag -> bool) (r : DecorationOptions)
    (ts : list CommentTag) : list CommentTag :=
  match ts with
  | [] => []
  | t :: ts' => if p t then pushRange r t :: ts' else t :: pushToFirst p r ts'
  end.

(** [this.tags.find(item => item.tag.toLowerCase() === m.toLowerCase())]
    and the [push] on what it finds. The callback reads [m.toLowerCase]
    only when there is a tag to visit. *)
Definition addToMatchingTag (m : option string) (r : DecorationOptions)
    (this : Parser) : Outcome Parser :=
  match p_tags this with
  | [] => Done this
  | _ =>
      s <- defined m ;;
      Done (set_tags
              (pushToFirst
                 (fun item =>
                    String.eqb (JS.toLowerCase (tag item)) (JS.toLowerCase s))
                 r (p_tags this))
              this)
  end.

Definition singleLineBody (text : string) (match_ : RegExp.ExecArray)
    (this : Parser) : Outcome Parser :=
  m0 <- defined (RegExp.element match_ 0) ;;
  let startPos := positionAt text (RegExp.index match_) in
  let endPos := positionAt text (RegExp.index match_ + String.length m0) in
  let range := {| range := {| start := startPos; end_ := endPos |} |} in
  if ignoreFirstLine this && Nat.eqb (Position_line text startPos) 0
     && Nat.eqb (Position_character text startPos) 0
  then Done this
  else addToMatchingTag (RegExp.element match_ 3) range this.

(** [FindSingleLineComments], on the text of the active editor. *)
Definition FindSingleLineComments (text : string) (this : Parser)
    : Outcome Parser :=
  if negb (highlightSingleLineComments this) then Done this
  else
    let regexFlags := if isPlainText this then "igm" else "ig" in
    regEx <- newRegExp (expression this) regexFlags ;;
    r <- whileExec (loopFuel text) text (singleLineBody text) regEx this ;;
    Done (fst r).

(** The inner loop of the two block scans: the lines of one comment block,
    which begins at offset [blockIndex] of the text. *)
Definition blockLineBody (text : string) (blockIndex : nat)
    (line : RegExp.ExecArray) (this : Parser) : Outcome Parser :=
  l2 <- defined (RegExp.element line 2) ;;
  let startPos :=
    positionAt text (blockIndex + RegExp.index line + String.length l2) in
  l0 <- defined (RegExp.element line 0) ;;
  let endPos :=
    positionAt text (blockIndex + RegExp.index line + String.length l0) in
  let range := {| range := {| start := startPos; end_ := endPos |} |} in
  addToMatchingTag (RegExp.element line 3) range this.

Definition blockBody (text : string) (match_ : RegExp.ExecArray)
    (st : Parser * RegExp.RegExp) : Outcome (Parser * RegExp.RegExp) :=
  let (this, commentRegEx) := st in
  commentBlock <- defined (RegExp.element match_ 0) ;;
  whileExec (loopFuel commentBlock) commentBlock
    (blockLineBody text (RegExp.index match_)) commentRegEx this.

Definition lineTail : string := ")([ ]*|[:])+([^*/][^\r\n]*)".

(** [FindBlockComments]. *)
Definition FindBlockComments (text : string) (this : Parser)
    : Outcome Parser :=
  if negb (highlightMultilineComments this) then Done this
  else
    let characters := map escapedTag (p_tags this) in
    let commentMatchString := "(^)+([ \t]*[ \t]*)(" in
    let commentMatchString := commentMatchString ++ JS.join "|" characters in
    let commentMatchString := commentMatchString ++ lineTail in
    let regexString := "(^|[ \t])(" in
    let regexString := regexString ++ blockCommentStart this in
    let regexString := regexString ++ "[\s])+([\s\S]*?)(" in
    let regexString := regexString ++ blockCommentEnd this in
    let regexString := regexString ++ ")" in
    regEx <- newRegExp regexString "gm" ;;
    commentRegEx <- newRegExp commentMatchString "igm" ;;
    r <- whileExec (loopFuel text) text (blockBody text) regEx
           (this, commentRegEx) ;;
    Done (fst (fst r)).

(** [FindJSDocComments]. *)
Definition FindJSDocComments (text : string) (this : Parser)
    : Outcome Parser :=
  if negb (highlightMultilineComments this) && negb (highlightJSDoc this)
  then Done this
  else
    let characters := map escapedTag (p_tags this) in
    let commentMatchString := "(^)+([ \t]*\*[ \t]*)(" in
    regEx <- newRegExp "(^|[ \t])(\/\*\*)+([\s\S]*?)(\*\/)" "gm" ;;
    let commentMatchString := commentMatchString ++ JS.join "|" characters in
    let commentMatchString := commentMatchString ++ lineTail in
    commentRegEx <- newRegExp commentMatchString "igm" ;;
    r <- whileExec (loopFuel text) text (blockBody text) regEx
           (this, commentRegEx) ;;
    Done (fst (fst r)).

Definition clearRanges (t : CommentTag) : CommentTag :=
  {| tag := tag t; escapedTag := escapedTag t; decoration := decoration t;
     ranges := [] |}.

(** [ApplyDecorations]: every tag's ranges go to the editor
    ([setDecorations] takes them as they are at the call), and the buffer is
    emptied for the next pass. The result is what the editor received, tag
    by tag, and the parser afterwards. *)
Definition ApplyDecorations (this : Parser)
    : list (DecorationRenderOptions * list DecorationOptions) * Parser :=
  (map (fun t => (decoration t, ranges t)) (p_tags this),
   set_tags (map clearRanges (p_tags this)) this).

(* ================================================================= *)
(** ** Vocabulary of the statements *)

Import RegExp.

(** The pattern that matches the characters of [s] one after the other. *)
Definition literal (s : string) : Regex :=
  fold_right Seq Empty (map Char (list_ascii_of_string s)).

(** The alternation of the markers [ts], in the order of the list. *)
Fixpoint alternation (ts : list string) : Regex :=
  match ts with
  | [] => Empty
  | t :: rest =>
      match rest with
      | [] => literal t
      | _ => Alt (literal t) (alternation rest)
      end
  end.

(** The fragment [setTags] stores for a marker. *)
Definition fragment (t : string) : string := escapeSlashes (escapedSequence t).

(** The characters [setTags] puts a backslash before. *)
Definition specials : string := "()[{*+.$^\|?/".

(** The markers of a registry, in its order. *)
Definition markers (this : Parser) : list string := map tag (p_tags this).

(** The registry is one that [setTags] built: each escaped tag is the
    fragment of its marker. *)
Definition registryBuilt (this : Parser) : Prop :=
  map escapedTag (p_tags this) = map fragment (markers this).

(** States of the pattern reader met while it reads a group of tags. *)
Definition pushChars (l : list ascii) (f : Frame) : Frame :=
  fold_left (fun f c => pushTerm true (Char c) f) l f.

Definition wrap (g : option nat) (d : Regex) : Regex :=
  match g with
  | Some n => Group n d
  | None => d
  end.

Definition openAlt (g : option nat) (alts : list Regex) : Frame :=
  {| f_group := g; f_alts := alts; f_terms := []; f_quantifiable := false |}.

(** The patterns of the three scans, for the markers [ts]. *)
Definition horizontalSpace : Regex :=
  CharClass false [ClassChar " "; ClassChar JS.TAB].

Definition restOfLine : Regex := Group 4 (Seq (Repeat 0 None true Dot) Empty).

Definition tagsThenRest (ts : list string) : Regex :=
  Seq (Repeat 1 None true (Group 3 (alternation ts))) (Seq restOfLine Empty).

Definition lineStartGroup : Regex :=
  Repeat 1 None true (Group 1 (Seq AssertBOL Empty)).

(** Plain-text mode: line start, blanks, tags, rest of the line. *)
Definition plainTextPattern (ts : list string) : Regex :=
  Seq lineStartGroup
    (Seq (Group 2 (Seq (Repeat 0 None true horizontalSpace)
                     (Seq (Repeat 0 None true horizontalSpace) Empty)))
       (tagsThenRest ts)).

(** With a delimiter that reads as [D]: delimiters, blanks, tags, rest of
    the line. *)
Definition delimitedPattern (D : Regex) (ts : list string) : Regex :=
  Seq (Repeat 1 None true (Group 1 D))
    (Seq (Repeat 0 None true
            (Group 2 (Alt (Seq (Char " ") Empty) (Seq (Char JS.TAB) Empty))))
       (tagsThenRest ts)).

(** The end of the inner line pattern, [lineTail] without its first
    parenthesis. *)
Definition afterTag : Regex :=
  Seq (Repeat 1 None true
         (Group 4 (Alt (Seq (Repeat 0 None true
                               (CharClass false [ClassChar " "])) Empty)
                       (Seq (CharClass false [ClassChar ":"]) Empty))))
    (Seq (Group 5
            (Seq (CharClass true [ClassChar "*"; ClassChar "/"])
               (Seq (Repeat 0 None true
                       (CharClass true [ClassChar JS.CR; ClassChar JS.LF]))
                  Empty)))
       Empty).

(** The inner line pattern of a block scan, [lead] being what group 2
    holds. *)
Definition linePattern (lead : Regex) (ts : list string) : Regex :=
  Seq lineStartGroup (Seq (Group 2 lead) (Seq (Group 3 (alternation ts)) afterTag)).

Definition blockLead : Regex :=
  Seq (Repeat 0 None true horizontalSpace)
    (Seq (Repeat 0 None true horizontalSpace) Empty).

Definition docLead : Regex :=
  Seq (Repeat 0 None true horizontalSpace)
    (Seq (Char "*") (Seq (Repeat 0 None true horizontalSpace) Empty)).

(** The delimiter pattern [d], put between the parentheses of group 1,
    reads as [D]. *)
Definition readsAs (d : string) (D : Regex) : Prop :=
  forall rest,
    parse ("(" ++ d ++ ")" ++ rest) None (emptyFrame None) [] 1 =
    parse rest None (pushTerm true (Group 1 D) (emptyFrame None)) [] 2.

Definition flags_ig : Flags :=
  {| global := true; ignoreCase := true; multiline := false |}.
Definition flags_igm : Flags :=
  {| global := true; ignoreCase := true; multiline := true |}.
Definition flags_gm : Flags :=
  {| global := true; ignoreCase := false; multiline := true |}.

Definition compiled (r : Regex) (n : nat) (f : Flags) : RegExp :=
  {| source := r; nGroups := n; flags := f; lastIndex := 0 |}.

(** Two [RegExp] objects that differ at most in [lastIndex]. *)
Definition sameProgram (R1 R2 : RegExp) : Prop :=
  source R1 = source R2 /\ flags R1 = flags R2 /\ nGroups R1 = nGroups R2.

(** [m] is an array that [exec] can return for [R] on [text]: the pattern
    matches at [index m] and the elements are the match and its groups. *)
Definition isMatch (R : RegExp) (text : string) (m : ExecArray) : Prop :=
  exists y,
    RegExp.index m <= String.length text /\
    matchAt (list_ascii_of_string text) (flags R) (source R) (RegExp.index m)
      = Some y /\
    elements m =
      Some (slice text (RegExp.index m, endIndex y))
      :: map (fun k => option_map (slice text) (captures y k))
           (seq 1 (nGroups R)).

(** A range within the text. *)
Definition inBounds (text : string) (r : DecorationOptions) : Prop :=
  start (range r) <= end_ (range r) /\ end_ (range r) <= String.length text.

(** Every range of every tag satisfies [P]. *)
Definition allRanges (P : DecorationOptions -> Prop) (this : Parser) : Prop :=
  forall t, In t (p_tags this) -> forall r, In r (ranges t) -> P r.

(** The flags [FindSingleLineComments] compiles its pattern with. *)
Definition singleLineFlags (this : Parser) : string :=
  if isPlainText this then "igm" else "ig".

(** A configuration for the examples: the markers [ts], in the colour of
    the first default tag, and the three settings. *)
Definition item (t : string) : TagItem :=
  {| item_tag := t; item_color := "#FF2D00"; item_strikethrough := false;
     item_underline := false; item_bold := false; item_italic := false;
     item_backgroundColor := "transparent" |}.

Definition config (multiline plain : bool) (ts : list string) : Contributions :=
  {| multilineComments := multiline; useJSDocStyle := true;
     highlightPlainText := plain; tags := map item ts |}.

(** The parser of a scan, whatever the scan came to. *)
Definition resultOf (o : Outcome Parser) (otherwise : Parser) : Parser :=
  match o with
  | Done p => p
  | _ => otherwise
  end.

(** The ranges of each marker, in the order of the registry. *)
Definition rangesByTag (this : Parser) : list (string * list (nat * nat)) :=
  map (fun t => (tag t,
                 map (fun r => (start (range r), end_ (range r))) (ranges t)))
      (p_tags this).

Definition newline : string := String JS.LF "".

(** The labels of the [switch] of [setDelimiter], in source order. *)
Definition languageIds : list string :=
  ["asciidoc"; "apex"; "javascript"; "javascriptreact"; "typescript";
   "typescriptreact"; "al"; "c"; "cpp"; "csharp"; "dafny"; "dart"; "flax";
   "fsharp"; "go"; "groovy"; "haxe"; "java"; "jsonc"; "kotlin"; "less";
   "pascal"; "objectpascal"; "php"; "promela"; "rust"; "scala"; "sass";
   "scss"; "shaderlab"; "stylus"; "swift"; "verilog"; "vue"; "css";
   "coffeescript"; "cson"; "dockerfile"; "gdscript"; "graphql"; "julia";
   "makefile"; "perl"; "perl6"; "puppet"; "r"; "ruby"; "shellscript"; "tcl";
   "toml"; "yaml"; "gitconfig"; "gitignore"; "elixir"; "python"; "nim";
   "powershell"; "ada"; "hive-sql"; "pig"; "plsql"; "sql"; "lua"; "elm";
   "haskell"; "brightscript"; "diagram"; "vb"; "bibtex"; "tex"; "erlang";
   "matlab"; "latex"; "ahk"; "clojure"; "racket"; "lisp"; "rainmeter"; "gas";
   "terraform"; "COBOL"; "fortran-modern"; "SAS"; "stata"; "html";
   "markdown"; "xml"; "twig"; "genstat"; "cfml"; "alloy"; "plaintext"].

(** The language id is not in the table, or it is plain text with the
    highlighting of plain text switched off. *)
Definition resolvesUnsupported (languageCode : string) (c : Contributions)
    : Prop :=
  case_ languageCode languageIds = false
  \/ (languageCode = "plaintext" /\ highlightPlainText c = false).

(** A pass over a document, for the single-line scan: the scan, then
    [ApplyDecorations]. The result is what the editor received and the
    parser afterwards. *)
Definition singleLinePass (text : string) (this : Parser)
    : Outcome (list (DecorationRenderOptions * list DecorationOptions)
               * Parser) :=
  p <- FindSingleLineComments text this ;;
  Done (ApplyDecorations p).

(** The buffers of all tags are empty. *)
Definition buffersEmpty (this : Parser) : Prop :=
  forall t, In t (p_tags this) -> ranges t = [].

(** The parser with its buffers emptied. *)
Definition cleared (this : Parser) : Parser :=
  set_tags (map clearRanges (p_tags this)) this.

(** The characters [t] stand in [input] from index [i] on, up to
    [Canonicalize]. *)
Fixpoint occursAt (fl : Flags) (t input : list ascii) (i : nat) : bool :=
  match t with
  | [] => true
  | c :: t' =>
      match nth_error input i with
      | Some a =>
          Ascii.eqb (Canonicalize fl c) (Canonicalize fl a)
          && occursAt fl t' input (S i)
      | None => false
      end
  end.

Definition flags_g : Flags :=
  {| global := true; ignoreCase := false; multiline := false |}.

(** The state [n] characters further on. *)
Definition advanceBy (n : nat) (x : State) : State :=
  {| endIndex := endIndex x + n; captures := captures x |}.

(** The two expressions [SetRegex] builds. *)
Definition plainExpression (this : Parser) : string :=
  (("(^)+([ \t]*[ \t]*)" ++ "(")
   ++ JS.join "|" (map escapedTag (p_tags this))) ++ ")+(.*)".

Definition delimitedExpression (this : Parser) : string :=
  ((("(" ++ escapeSlashes (delimiter this) ++ ")+( |"
         ++ String JS.TAB "" ++ ")*") ++ "(")
   ++ JS.join "|" (map escapedTag (p_tags this))) ++ ")+(.*)".

(** The single-line scan of this parser runs in plain-text mode. *)
Definition plainMode (this : Parser) : bool :=
  isPlainText this && highlightPlainText (contributions this).




(** The index [e] is at the end of a line of [input]: at the end of the
    text or before a line terminator. *)
Definition endsLine (input : list ascii) (e : nat) : bool :=
  match nth_error input e with
  | None => true
  | Some a => isLineTerminator a
  end.

(** The range of a single-line match as the scan computes it. The
    pattern [P] of the scan matches from the start of the range, and the
    range ends where that match ends. The match took a marker from [s] to
    [e] (the third group) and, from [e] on, the characters up to the first
    end of a line, where the range ends. The start is where the delimiter
    pattern matches; in plain-text mode, the start of a line. *)
Definition wholeMatchRange (this : Parser) (text : string)
    (r : DecorationOptions) : Prop :=
  let input := list_ascii_of_string text in
  let fl := parseFlags (singleLineFlags this) in
  exists P y s e,
    matchAt input fl P (start (range r)) = Some y
    /\ end_ (range r) = endIndex y
    /\ captures y 3 = Some (s, e)
    /\ start (range r) <= s /\ s <= e /\ e <= end_ (range r)
    /\ (forall k, e <= k -> k < end_ (range r) ->
                  exists a, nth_error input k = Some a
                            /\ isLineTerminator a = false)
    /\ endsLine input (end_ (range r)) = true
    /\ if plainMode this then
         P = plainTextPattern (markers this)
         /\ atLineStart input flags_igm (start (range r)) = true
       else
         exists D x y0,
           readsAs (escapeSlashes (delimiter this)) D
           /\ P = delimitedPattern D (markers this)
           /\ endIndex x = start (range r)
           /\ Matches input fl D x y0
           /\ endIndex y0 <= s.

(** The span [(s, e)] is that of a marker of [ts] standing at [s], and
    every marker before it in [ts] that stands at [s] too is empty: the
    alternation took the first marker that let the match go on. *)
Definition chosenFirst (fl : Flags) (ts : list string) (input : list ascii)
    (s e : nat) : Prop :=
  exists pre t post,
    ts = (pre ++ t :: post)%list
    /\ occursAt fl (list_ascii_of_string t) input s = true
    /\ e = s + String.length t
    /\ forall t', In t' pre ->
                  occursAt fl (list_ascii_of_string t') input s = true ->
                  t' = "".


(** Every range of the tag at each place [k] of the registry satisfies
    [P k]. *)
Definition rangesAt (P : nat -> DecorationOptions -> Prop) (this : Parser)
    : Prop :=
  forall k t, nth_error (p_tags this) k = Some t ->
              forall r, In r (ranges t) -> P k r.



(** The expressions the two block scans compile for the lines of a
    block. *)
Definition blockLineExpression (this : Parser) : string :=
  ("(^)+([ \t]*[ \t]*)(" ++ JS.join "|" (map escapedTag (p_tags this)))
  ++ lineTail.

Definition docLineExpression (this : Parser) : string :=
  ("(^)+([ \t]*\*[ \t]*)(" ++ JS.join "|" (map escapedTag (p_tags this)))
  ++ lineTail.


(** The blanks of the plain-text pattern: the space and the tab. *)
Definition blank (a : ascii) : bool :=
  Ascii.eqb a " " || Ascii.eqb a JS.TAB.


(** Some tag holds a range that starts at [i]. *)
Definition hasRangeFrom (this : Parser) (i : nat) : Prop :=
  exists t r, In t (p_tags this) /\ In r (ranges t) /\ start (range r) = i.

(** The labels of the [switch] that set [highlightJSDoc]. *)
Definition jsFamily : list string :=
  ["apex"; "javascript"; "javascriptreact"; "typescript"; "typescriptreact"].

(** The characters [escapeRegExp] puts a backslash before. *)
Definition escaped : string := ".*+?^${}()|[]\".

(** A check on the pattern that every match takes at least one
    character. *)
Fixpoint consumes (r : Regex) : bool :=
  match r with
  | Empty | AssertBOL | AssertEOL => false
  | Char _ | Dot | CharClass _ _ => true
  | Group _ r' => consumes r'
  | Seq r1 r2 => consumes r1 || consumes r2
  | Alt r1 r2 => consumes r1 && consumes r2
  | Repeat min max _ r' =>
      match max with
      | None => Nat.leb 1 min && consumes r'
      | Some _ => false
      end
  end.

(** The outer pattern of [FindBlockComments] for the block delimiters
    [s] and [e]: the start of a line or a blank, then one or more times
    [s] and a character of white space, then as few characters as
    possible, then [e]. *)
Definition literalThen (s : string) (tail : Regex) : Regex :=
  fold_right Seq tail (map Char (list_ascii_of_string s)).

Definition anyChar : Regex := CharClass false [ClassSpace; ClassNotSpace].

Definition lineStartOrBlank : Regex :=
  Group 1 (Alt (Seq AssertBOL Empty) (Seq horizontalSpace Empty)).

Definition blockPattern (s e : string) : Regex :=
  Seq lineStartOrBlank
    (Seq (Repeat 1 None true
            (Group 2
               (literalThen s (Seq (CharClass false [ClassSpace]) Empty))))
       (Seq (Group 3 (Seq (Repeat 0 None false anyChar) Empty))
          (Seq (Group 4 (literal e)) Empty))).

(** The outer pattern of [FindJSDocComments]. *)
Definition docBlockPattern : Regex :=
  Seq lineStartOrBlank
    (Seq (Repeat 1 None true (Group 2 (literal "/**")))
       (Seq (Group 3 (Seq (Repeat 0 None false anyChar) Empty))
          (Seq (Group 4 (literal "*/")) Empty))).

(** The expression [FindBlockComments] builds for the blocks. *)
Definition blockExpression (this : Parser) : string :=
  ((("(^|[ \t])(" ++ blockCommentStart this) ++ "[\s])+([\s\S]*?)(")
    ++ blockCommentEnd this) ++ ")".

(** The block delimiters of the parser came out of [escapeRegExp]. *)
Definition blockDelimitersEscaped (this : Parser) : Prop :=
  exists s e,
    blockCommentStart this = escapeRegExp s
    /\ blockCommentEnd this = escapeRegExp e.

(** A parser as the constructor and the methods of the class leave it. *)
Definition wellFormed (this : Parser) : Prop :=
  registryBuilt this /\ blockDelimitersEscaped this.

(** [new] is [old] with ranges appended to its buffers and nothing else
    changed: tag by tag the old ranges are a prefix of the new ones, and
    with the buffers emptied the two parsers are the same. *)
Definition appendsTo (old new : Parser) : Prop :=
  cleared new = cleared old
  /\ Forall2 (fun t t' => exists added, ranges t' = (ranges t ++ added)%list)
       (p_tags old) (p_tags new).

(** A marker without a line terminator, and an empty line: the index
    [i] starts a line and ends it. *)
Definition terminatorFree (t : string) : Prop :=
  forall a, In a (list_ascii_of_string t) -> isLineTerminator a = false.


(** What opens a block. For [FindBlockComments]: the start delimiter [s]
    stands at [q], a character of white space follows it, and [p] is the
    index after that character. For the doc scan: [/**] stands at [q] and
    [p] is the index after it. The outer patterns have no [i] flag: the
    delimiters stand character by character. *)
Definition opensBlock (s : string) (input : list ascii) (q p : nat) : Prop :=
  occursAt flags_gm (list_ascii_of_string s) input q = true
  /\ (exists a, nth_error input (q + String.length s) = Some a
                /\ isWhiteSpace a = true)
  /\ p = q + String.length s + 1.

Definition opensDoc (input : list ascii) (q p : nat) : Prop :=
  occursAt flags_gm (list_ascii_of_string "/**") input q = true
  /\ p = q + 3.











(** Openers stand back to back from [q] to [p]: one, or one after the
    other. *)
Inductive openerRun (opens : nat -> nat -> Prop) : nat -> nat -> Prop :=
| openerRun_one q p : opens q p -> openerRun opens q p
| openerRun_more q p' p :
    opens q p' -> openerRun opens p' p -> openerRun opens q p.

(** Where a match of an outer pattern begins, for the opener at [q]: at
    [q] itself when [q] is the start of a line, or at the space or tab
    just before [q]. *)
Definition blockBegins (input : list ascii) (i q : nat) : Prop :=
  (atLineStart input flags_gm i = true /\ q = i)
  \/ ((exists a, nth_error input i = Some a /\ blank a = true)
      /\ q = i + 1).

(** The range lies in a block comment. The comment begins at [i], at an
    opener or at the one blank before it; openers stand back to back from
    there to [p]; [k] is the first index from [p] on where the end
    delimiter [e] stands, and the comment ends after that [e]. The range
    starts at [i] or later and ends where the comment ends or before. *)
Definition insideBlock (opens : nat -> nat -> Prop) (e : string)
    (input : list ascii) (r : DecorationOptions) : Prop :=
  exists i q p k,
    blockBegins input i q /\ openerRun opens q p /\ p <= k
    /\ occursAt flags_gm (list_ascii_of_string e) input k = true
    /\ (forall j, p <= j -> j < k ->
                  occursAt flags_gm (list_ascii_of_string e) input j = false)
    /\ i <= start (range r) /\ start (range r) <= end_ (range r)
    /\ end_ (range r) <= k + String.length e.

(** The marker at place [k] of the registry stands, letter case apart,
    where the range [r] starts. *)
Definition markerAtStart (this : Parser) (text : string) (k : nat)
    (r : DecorationOptions) : Prop :=
  exists t,
    nth_error (markers this) k = Some t
    /\ occursAt flags_igm (list_ascii_of_string t)
         (list_ascii_of_string text) (start (range r)) = true.

(** A tagged comment begins at [i]: the delimiter [d] stands there, one
    or more times in a row; blanks (spaces and tabs) follow, up to an index
    [j]; a marker of [ts] stands at [j]. *)
Definition commentTagAt (fl : Flags) (d : string) (ts : list string)
    (input : list ascii) (i : nat) : Prop :=
  exists n j t,
    1 <= n
    /\ (forall m, m < n ->
          occursAt fl (list_ascii_of_string d) input
            (i + m * String.length d) = true)
    /\ i + n * String.length d <= j
    /\ (forall k, i + n * String.length d <= k -> k < j ->
                  exists a, nth_error input k = Some a /\ blank a = true)
    /\ In t ts
    /\ occursAt fl (list_ascii_of_string t) input j = true.

(** The index [j] is before [i] on the line of [i]. *)
Definition sameLineBefore (input : list ascii) (j i : nat) : Prop :=
  j < i
  /\ forall k, j <= k -> k < i ->
               exists a, nth_error input k = Some a
                         /\ isLineTerminator a = false.

(** A tagged comment begins at [i] and none begins before [i] on its
    line. *)
Definition firstCommentTag (fl : Flags) (d : string) (ts : list string)
    (input : list ascii) (i : nat) : Prop :=
  commentTagAt fl d ts input i
  /\ forall j, sameLineBefore input j i -> ~ commentTagAt fl d ts input j.

(** The blanks between the delimiter and the tag, as the single-line
    pattern has them. *)
Definition blankGroup : Regex :=
  Group 2 (Alt (Seq (Char " ") Empty) (Seq (Char JS.TAB) Empty)).

(** The range [r1] ends where [r2] starts, or before. *)
Definition endsBefore (r1 r2 : DecorationOptions) : Prop :=
  end_ (range r1) <= start (range r2).

(** No two ranges of the registry overlap: the ranges of a tag are in the
    order of the text, each ending where the next one starts or before,
    and a range of one tag lies before or after a range of another. *)
Definition inTextOrder (this : Parser) : Prop :=
  (forall t, In t (p_tags this) -> ForallOrdPairs endsBefore (ranges t))
  /\ forall k1 k2 t1 t2 r1 r2,
       k1 <> k2 ->
       nth_error (p_tags this) k1 = Some t1 ->
       nth_error (p_tags this) k2 = Some t2 ->
       In r1 (ranges t1) -> In r2 (ranges t2) ->
       endsBefore r1 r2 \/ endsBefore r2 r1.

(** Every range of the registry ends at [L] or before. *)
Definition endBy (L : nat) (this : Parser) : Prop :=
  forall t, In t (p_tags this) ->
            forall r, In r (ranges t) -> end_ (range r) <= L.

(* ================================================================= *)
(** * Properties *)

(** ** The engine: the matcher against the relation it explores *)

Module RegExpFacts.

Section Engine.

Variable input : list ascii.
Variable fl : Flags.

Local Abbreviation matcher := (matcher input fl).
Local Abbreviation Matches := (Matches input fl).

Lemma orElse_Some z other y :
  orElse z other = Some y -> z = Some y \/ (z = None /\ other tt = Some y).
Proof. destruct z; simpl; intros H; [left | right]; auto. Qed.

Lemma CharacterSetMatcher_Some accepts x c z :
  CharacterSetMatcher input accepts x c = Some z ->
  exists a, nth_error input (endIndex x) = Some a /\ accepts a = true
            /\ c (advance x) = Some z.
Proof.
  unfold CharacterSetMatcher.
  destruct (nth_error input (endIndex x)) as [a|]; [|discriminate].
  destruct (accepts a) eqn:Ha; [|discriminate].
  intros H; exists a; auto.
Qed.

(** A repetition explores iterations of its body. *)
Lemma RepeatMatcher_sound (m : Matcher) r greedy :
  (forall x c z, m x c = Some z ->
                 exists y, Matches r x y /\ c y = Some z) ->
  forall fuel min max x c z,
    RepeatMatcher m (groupsOf r) greedy fuel min max x c = Some z ->
    exists y, Matches (Repeat min max greedy r) x y /\ c y = Some z.
Proof.
  intros Hm fuel; induction fuel as [|fuel IH]; intros min max x c z H.
  - discriminate.
  - simpl in H.
    assert (Hstep : forall w,
      m (clearCaptures (groupsOf r) x)
        (fun y => if Nat.eqb min 0 && Nat.eqb (endIndex y) (endIndex x)
                  then None
                  else RepeatMatcher m (groupsOf r) greedy fuel (min - 1)
                         (predMax max) y c) = Some w ->
      max <> Some 0 ->
      exists y, Matches (Repeat min max greedy r) x y /\ c y = Some w).
    { intros w Hw Hmax.
      apply Hm in Hw. destruct Hw as (y & Hy & Hd).
      destruct (Nat.eqb min 0 && Nat.eqb (endIndex y) (endIndex x)) eqn:E;
        [discriminate|].
      apply IH in Hd. destruct Hd as (y' & Hy' & Hc).
      exists y'; split; [|exact Hc].
      eapply M_RepStep; eauto.
      intros ->. simpl in E. apply Nat.eqb_neq in E. exact E. }
    assert (Hstop : c x = Some z -> min = 0 -> max <> Some 0 ->
      exists y, Matches (Repeat min max greedy r) x y /\ c y = Some z).
    { intros Hc -> Hmax. exists x; split; [constructor; auto | auto]. }
    destruct max as [[|k]|].
    + exists x; split; [constructor | exact H].
    + destruct (Nat.eqb min 0) eqn:Emin; simpl in H.
      * apply Nat.eqb_eq in Emin.
        destruct greedy; apply orElse_Some in H;
          destruct H as [H | [_ H]];
          try (apply Hstep; [exact H | discriminate]);
          apply Hstop; auto; discriminate.
      * apply Hstep; [exact H | discriminate].
    + destruct (Nat.eqb min 0) eqn:Emin; simpl in H.
      * apply Nat.eqb_eq in Emin.
        destruct greedy; apply orElse_Some in H;
          destruct H as [H | [_ H]];
          try (apply Hstep; [exact H | discriminate]);
          apply Hstop; auto; discriminate.
      * apply Hstep; [exact H | discriminate].
Qed.

(** Soundness: a result of the matcher comes from a state that the
    pattern reaches and the continuation accepts. *)
Lemma matcher_sound r :
  forall x c z, matcher r x c = Some z ->
                exists y, Matches r x y /\ c y = Some z.
Proof.
  induction r as [|ch| |inv atoms| | |n r IH|r1 IH1 r2 IH2|r1 IH1 r2 IH2
                 |min max greedy r IH]; intros x c z H;
    [simpl in H .. | ].
  - exists x; split; [constructor | exact H].
  - apply CharacterSetMatcher_Some in H. destruct H as (a & Hn & Ha & Hc).
    exists (advance x); split; [econstructor; eauto | exact Hc].
  - apply CharacterSetMatcher_Some in H. destruct H as (a & Hn & Ha & Hc).
    exists (advance x); split; [|exact Hc].
    eapply M_Dot; eauto. now apply negb_true_iff in Ha.
  - apply CharacterSetMatcher_Some in H. destruct H as (a & Hn & Ha & Hc).
    exists (advance x); split; [econstructor; eauto | exact Hc].
  - destruct (atLineStart input fl (endIndex x)) eqn:E; [|discriminate].
    exists x; split; [constructor; auto | exact H].
  - destruct (atLineEnd input fl (endIndex x)) eqn:E; [|discriminate].
    exists x; split; [constructor; auto | exact H].
  - apply IH in H. destruct H as (y & Hy & Hc).
    eexists; split; [constructor; exact Hy | exact Hc].
  - apply IH1 in H. destruct H as (y & Hy & H).
    apply IH2 in H. destruct H as (y' & Hy' & Hc).
    exists y'; split; [econstructor; eauto | exact Hc].
  - apply orElse_Some in H. destruct H as [H | [_ H]].
    + apply IH1 in H. destruct H as (y & Hy & Hc).
      exists y; split; [apply M_AltL; auto | auto].
    + apply IH2 in H. destruct H as (y & Hy & Hc).
      exists y; split; [apply M_AltR; auto | auto].
  - eapply RepeatMatcher_sound; eauto.
Qed.

Lemma nth_error_lt (a : ascii) n :
  nth_error input n = Some a -> n < length input.
Proof. intros H. apply nth_error_Some. congruence. Qed.

Lemma Matches_endIndex r x y :
  Matches r x y ->
  endIndex x <= endIndex y /\
  (endIndex x <= length input -> endIndex y <= length input).
Proof.
  induction 1; simpl in *;
    try match goal with
        | H : nth_error _ _ = Some _ |- _ => apply nth_error_lt in H
        end;
    lia.
Qed.

Lemma Matches_capsWithin lo r x y :
  Matches r x y -> lo <= endIndex x -> capsWithin lo x -> capsWithin lo y.
Proof.
  induction 1; intros Hlo Hx; auto;
    try (intros k s e Hk; simpl in *; apply Hx in Hk; lia).
  - pose proof (Matches_endIndex _ _ _ H) as [Hle _].
    specialize (IHMatches Hlo Hx).
    intros k s e Hk; simpl in *.
    destruct (Nat.eqb k n).
    + inversion Hk; subst. lia.
    + apply IHMatches in Hk. lia.
  - pose proof (Matches_endIndex _ _ _ H) as [Hle _].
    apply IHMatches2; [lia | auto].
  - pose proof (Matches_endIndex _ _ _ H0) as [Hle _]. simpl in Hle.
    apply IHMatches2; [lia|].
    apply IHMatches1; [simpl; lia|].
    intros k s e Hk; simpl in *.
    destruct (existsb (Nat.eqb k) (groupsOf r)); [discriminate|].
    apply Hx in Hk. lia.
Qed.

(** A matcher looks at its continuation only on states further on in
    the text, and a repetition started with enough fuel does not
    depend on how much. *)
Lemma RepeatMatcher_ext (m : Matcher) inner greedy :
  (forall x c c', endIndex x <= length input ->
     (forall y, endIndex x <= endIndex y -> endIndex y <= length input ->
                c y = c' y) ->
     m x c = m x c') ->
  forall fuel1 fuel2 min max x c c',
    endIndex x <= length input ->
    min + (length input - endIndex x) < fuel1 ->
    min + (length input - endIndex x) < fuel2 ->
    (forall y, endIndex x <= endIndex y -> endIndex y <= length input ->
               c y = c' y) ->
    RepeatMatcher m inner greedy fuel1 min max x c =
    RepeatMatcher m inner greedy fuel2 min max x c'.
Proof.
  intros Hm fuel1; induction fuel1 as [|fuel1 IH];
    intros [|fuel2] min max x c c' Hx H1 H2 Hc; try lia.
  simpl.
  assert (Hcx : c x = c' x) by (apply Hc; lia).
  assert (Hd :
    m (clearCaptures inner x)
      (fun y => if Nat.eqb min 0 && Nat.eqb (endIndex y) (endIndex x)
                then None
                else RepeatMatcher m inner greedy fuel1 (min - 1)
                       (predMax max) y c) =
    m (clearCaptures inner x)
      (fun y => if Nat.eqb min 0 && Nat.eqb (endIndex y) (endIndex x)
                then None
                else RepeatMatcher m inner greedy fuel2 (min - 1)
                       (predMax max) y c')).
  { apply Hm; [exact Hx|]. simpl. intros y Hy1 Hy2.
    destruct (Nat.eqb min 0) eqn:E1; simpl.
    - destruct (Nat.eqb (endIndex y) (endIndex x)) eqn:E2; [reflexivity|].
      apply Nat.eqb_eq in E1. apply Nat.eqb_neq in E2.
      apply IH; try lia. intros y' ? ?. apply Hc; lia.
    - apply Nat.eqb_neq in E1.
      apply IH; try lia. intros y' ? ?. apply Hc; lia. }
  rewrite Hd, Hcx. reflexivity.
Qed.

Lemma CharacterSetMatcher_ext accepts x c c' :
  endIndex x <= length input ->
  (forall y, endIndex x <= endIndex y -> endIndex y <= length input ->
             c y = c' y) ->
  CharacterSetMatcher input accepts x c =
  CharacterSetMatcher input accepts x c'.
Proof.
  intros Hx Hc. unfold CharacterSetMatcher.
  destruct (nth_error input (endIndex x)) eqn:E; [|reflexivity].
  apply nth_error_lt in E.
  destruct (accepts a); [|reflexivity].
  apply Hc; simpl; lia.
Qed.

Lemma matcher_ext r :
  forall x c c', endIndex x <= length input ->
    (forall y, endIndex x <= endIndex y -> endIndex y <= length input ->
               c y = c' y) ->
    matcher r x c = matcher r x c'.
Proof.
  induction r as [|ch| |inv atoms| | |n r IH|r1 IH1 r2 IH2|r1 IH1 r2 IH2
                 |min max greedy r IH]; intros x c c' Hx Hc;
    [simpl .. | ].
  - apply Hc; lia.
  - apply CharacterSetMatcher_ext; auto.
  - apply CharacterSetMatcher_ext; auto.
  - apply CharacterSetMatcher_ext; auto.
  - destruct (atLineStart input fl (endIndex x)); [apply Hc; lia | auto].
  - destruct (atLineEnd input fl (endIndex x)); [apply Hc; lia | auto].
  - apply IH; [exact Hx|]. intros y Hy1 Hy2. apply Hc; simpl; lia.
  - apply IH1; [exact Hx|]. intros y Hy1 Hy2.
    apply IH2; [exact Hy2|]. intros y' ? ?. apply Hc; lia.
  - rewrite (IH1 x c c'), (IH2 x c c'); auto.
  - apply (RepeatMatcher_ext (matcher r) (groupsOf r) greedy IH);
      auto; unfold repeatFuel; lia.
Qed.

Lemma orElse_not_None z other :
  (z = None -> other tt <> None) -> orElse z other <> None.
Proof. destruct z; simpl; [discriminate | auto]. Qed.

(** Completeness: the matcher finds a result whenever the pattern
    reaches a state that the continuation accepts. *)
Lemma matcher_complete r x y :
  Matches r x y -> endIndex x <= length input ->
  forall c, c y <> None -> matcher r x c <> None.
Proof.
  induction 1; intros Hx c Hc.
  - exact Hc.
  - simpl. unfold CharacterSetMatcher. rewrite H, H0. exact Hc.
  - simpl. unfold CharacterSetMatcher. rewrite H, H0. exact Hc.
  - simpl. unfold CharacterSetMatcher. rewrite H, H0. exact Hc.
  - simpl. rewrite H. exact Hc.
  - simpl. rewrite H. exact Hc.
  - simpl. apply IHMatches; auto.
  - simpl. apply IHMatches1; auto.
    apply IHMatches2; auto.
    apply Matches_endIndex in H. tauto.
  - simpl. apply orElse_not_None. intros E.
    exfalso. revert E. apply IHMatches; auto.
  - simpl. apply orElse_not_None. intros _. apply IHMatches; auto.
  - simpl. exact Hc.
  - simpl.
    destruct max as [[|k]|]; try congruence; simpl;
      destruct greedy; apply orElse_not_None; intros E; congruence.
  - assert (Hd :
      (fun y' => if Nat.eqb min 0 && Nat.eqb (endIndex y') (endIndex x)
                 then None
                 else RepeatMatcher (matcher r) (groupsOf r) greedy
                        (min + (length input - endIndex x)) (min - 1)
                        (predMax max) y' c) y <> None).
    { pose proof (Matches_endIndex _ _ _ H0) as [Hy1 Hy2]. simpl in *.
      specialize (Hy2 Hx).
      assert (E : Nat.eqb min 0 && Nat.eqb (endIndex y) (endIndex x)
                  = false).
      { destruct (Nat.eqb min 0) eqn:E1; simpl; auto.
        apply Nat.eqb_eq in E1. apply Nat.eqb_neq. auto. }
      rewrite E.
      apply andb_false_iff in E.
      rewrite (RepeatMatcher_ext (matcher r) (groupsOf r) greedy
                 (matcher_ext r) _ (repeatFuel input (min - 1) y)
                 (min - 1) (predMax max) y c c); auto.
      - apply (IHMatches2 Hy2 c Hc).
      - destruct E as [E|E]; [apply Nat.eqb_neq in E; lia|].
        apply Nat.eqb_neq in E. lia. }
    assert (Hm := IHMatches1 Hx _ Hd).
    simpl.
    destruct max as [[|k]|]; try congruence;
      (destruct (Nat.eqb min 0); simpl in Hm |- *;
       [destruct greedy; apply orElse_not_None; intros E;
        [exfalso; exact (Hm E) | exact Hm]
       | exact Hm]).
Qed.

Lemma advanceBy_0 x : advanceBy 0 x = x.
Proof. destruct x; unfold advanceBy; simpl. now rewrite Nat.add_0_r. Qed.

Lemma advanceBy_advance n x : advanceBy n (advance x) = advanceBy (S n) x.
Proof. unfold advanceBy, advance; simpl. f_equal. lia. Qed.

(** The matcher of a literal: the characters stand there, or it fails. *)
Lemma matcher_literal t :
  forall x c,
    matcher (literal t) x c =
    if occursAt fl (list_ascii_of_string t) input (endIndex x)
    then c (advanceBy (String.length t) x)
    else None.
Proof.
  induction t as [|k t IH]; intros x c.
  - simpl. now rewrite advanceBy_0.
  - change (literal (String k t)) with (Seq (Char k) (literal t)).
    cbn [RegExp.matcher list_ascii_of_string occursAt String.length].
    unfold CharacterSetMatcher.
    destruct (nth_error input (endIndex x)) as [a|]; [|reflexivity].
    destruct (Ascii.eqb (Canonicalize fl k) (Canonicalize fl a));
      [|reflexivity].
    rewrite IH. cbn [andb endIndex advance].
    now rewrite advanceBy_advance.
Qed.

(** Taking matches apart. *)
Lemma Matches_Seq_inv r1 r2 x z :
  Matches (Seq r1 r2) x z -> exists y, Matches r1 x y /\ Matches r2 y z.
Proof. intros H; inversion H; subst; eauto. Qed.

Lemma Matches_Group_inv n r x z :
  Matches (Group n r) x z ->
  exists y, Matches r x y /\ z = setCapture n (endIndex x, endIndex y) y.
Proof. intros H; inversion H; subst; eauto. Qed.

Lemma Matches_Empty_inv x z : Matches Empty x z -> z = x.
Proof. intros H; inversion H; subst; auto. Qed.

Lemma Matches_Alt_inv r1 r2 x z :
  Matches (Alt r1 r2) x z -> Matches r1 x z \/ Matches r2 x z.
Proof. intros H; inversion H; subst; auto. Qed.

Lemma Matches_Char_inv ch x z :
  Matches (Char ch) x z ->
  z = advance x /\
  exists a, nth_error input (endIndex x) = Some a /\
            Canonicalize fl ch = Canonicalize fl a.
Proof.
  intros H; inversion H; subst. split; auto.
  exists a. split; auto. now apply Ascii.eqb_eq.
Qed.

Lemma Matches_Class_inv inv atoms x z :
  Matches (CharClass inv atoms) x z ->
  z = advance x /\
  exists a, nth_error input (endIndex x) = Some a /\
            xorb inv (existsb (fun at_ => classAtomMatches fl at_ a) atoms)
            = true.
Proof. intros H; inversion H; subst. split; eauto. Qed.

Lemma Matches_Dot_inv x z :
  Matches Dot x z ->
  z = advance x /\
  exists a, nth_error input (endIndex x) = Some a /\
            isLineTerminator a = false.
Proof. intros H; inversion H; subst. split; eauto. Qed.

Lemma Matches_BOL_inv x z :
  Matches AssertBOL x z -> z = x /\ atLineStart input fl (endIndex x) = true.
Proof. intros H; inversion H; subst. auto. Qed.

(** A repetition with a lower bound takes one iteration first. *)
Lemma Matches_Repeat_first min greedy r x z :
  Matches (Repeat (S min) None greedy r) x z ->
  exists y, Matches r (clearCaptures (groupsOf r) x) y /\
            Matches (Repeat min None greedy r) y z.
Proof.
  intros H; inversion H; subst.
  exists y. split; auto.
  simpl in *. rewrite Nat.sub_0_r in *. assumption.
Qed.

(** Induction over the iterations of a repetition. *)
Lemma Matches_Repeat_ind (P : State -> State -> Prop) greedy r :
  (forall x, P x x) ->
  (forall x y z, Matches r (clearCaptures (groupsOf r) x) y ->
                 P y z -> P x z) ->
  forall min max x z, Matches (Repeat min max greedy r) x z -> P x z.
Proof.
  intros H0 Hstep min max x z H.
  remember (Repeat min max greedy r) as rr eqn:E.
  revert min max E.
  induction H; intros min' max' E; inversion E; subst; auto.
  eapply Hstep; eauto.
Qed.

(** Once its lower bound is used up, a repetition of a body that takes no
    character stops. *)
Lemma Matches_Repeat_empty_body greedy r x z :
  (forall x y, Matches r x y -> endIndex y = endIndex x) ->
  Matches (Repeat 0 None greedy r) x z -> z = x.
Proof.
  intros Hr H. inversion H; subst; auto.
  exfalso.
  match goal with
  | Hn : 0 = 0 -> _ <> _, Hm : Matches r _ _ |- _ =>
      apply Hn; [reflexivity | apply Hr in Hm; exact Hm]
  end.
Qed.

(** A pattern leaves the captures of the groups outside it alone. *)
Lemma Matches_captures_outside r x y :
  Matches r x y ->
  forall k, ~ In k (groupsOf r) -> captures y k = captures x k.
Proof.
  induction 1; intros k Hk; simpl in *; auto.
  - rewrite IHMatches by tauto.
    destruct (Nat.eqb_spec k n); [subst; tauto | reflexivity].
  - rewrite in_app_iff in Hk.
    rewrite IHMatches2, IHMatches1 by tauto. reflexivity.
  - rewrite in_app_iff in Hk. apply IHMatches; tauto.
  - rewrite in_app_iff in Hk. apply IHMatches; tauto.
  - rewrite IHMatches2, IHMatches1 by tauto. simpl.
    destruct (existsb (Nat.eqb k) (groupsOf r)) eqn:E; [|reflexivity].
    apply existsb_exists in E. destruct E as (j & Hj & E).
    apply Nat.eqb_eq in E. subst j. tauto.
Qed.

(** A greedy repetition whose continuation accepts every state stops only
    where its body cannot take one more step forward. *)
Lemma greedy_stops_at_the_end r c :
  (forall y, c y <> None) ->
  forall fuel x z,
    endIndex x <= length input ->
    length input - endIndex x < fuel ->
    RepeatMatcher (matcher r) (groupsOf r) true fuel 0 None x c = Some z ->
    exists y,
      Matches (Repeat 0 None true r) x y /\ c y = Some z /\
      forall y', Matches r (clearCaptures (groupsOf r) y) y' ->
                 endIndex y' = endIndex y.
Proof.
  intros Hc fuel; induction fuel as [|fuel IH]; intros x z Hx Hf H; [lia|].
  cbn [RepeatMatcher] in H. cbn [Nat.eqb negb andb] in H.
  apply orElse_Some in H. destruct H as [H | [Hnone H]].
  - apply matcher_sound in H. destruct H as (y1 & Hy1 & H).
    destruct (Nat.eqb_spec (endIndex y1) (endIndex x)) as [E|E];
      [discriminate|].
    pose proof (Matches_endIndex _ _ _ Hy1) as [Hle Hlen].
    cbn [endIndex clearCaptures] in Hle, Hlen. specialize (Hlen Hx).
    apply IH in H; [|lia|lia].
    destruct H as (y & Hy & Hcy & Hmax).
    exists y. repeat split; auto.
    eapply M_RepStep; eauto; discriminate.
  - exists x. split; [constructor; discriminate|]. split; [exact H|].
    intros y' Hy'.
    destruct (Nat.eq_dec (endIndex y') (endIndex x)) as [E|E]; [exact E|].
    exfalso.
    pose proof (Matches_endIndex _ _ _ Hy') as [Hle Hlen].
    cbn [endIndex clearCaptures] in Hle, Hlen. specialize (Hlen Hx).
    refine (matcher_complete _ _ _ Hy' Hx _ _ Hnone).
    cbn [Nat.eqb andb].
    destruct (Nat.eqb_spec (endIndex y') (endIndex x)) as [E'|_];
      [contradiction|].
    destruct fuel as [|fuel]; [lia|].
    cbn [RepeatMatcher Nat.eqb negb andb].
    apply orElse_not_None. intros _. apply Hc.
Qed.

(** A pattern that passes the check [consumes] has no empty match. *)
Lemma consumes_Matches r x y :
  Matches r x y -> consumes r = true -> endIndex x < endIndex y.
Proof.
  induction 1; cbn [consumes]; intros Hc; try discriminate;
    try (destruct max; [discriminate|]);
    rewrite ?orb_true_iff, ?andb_true_iff in Hc;
    repeat match goal with
           | H : RegExp.Matches _ _ _ _ _ |- _ => apply Matches_endIndex in H
           end;
    cbn [endIndex advance setCapture clearCaptures] in *;
    try lia;
    try match type of Hc with
        | _ \/ _ => destruct Hc as [Hc|Hc]
        | _ /\ _ => destruct Hc as [Hc1 Hc2]
        end;
    repeat match goal with
           | IH : ?c = true -> _, E : ?c = true |- _ => specialize (IH E)
           end;
    try discriminate; try lia; auto.
Qed.

(** A lazy repetition of a single character stops at the first place
    where what follows can match. *)
Lemma lazy_first accepts (c : Continuation) (stands : nat -> bool) :
  (forall y, c y = None -> stands (endIndex y) = false) ->
  forall fuel x z,
    RepeatMatcher (CharacterSetMatcher input accepts) [] false fuel 0 None
      x c = Some z ->
    exists y,
      c y = Some z /\ endIndex x <= endIndex y
      /\ (forall j, endIndex x <= j -> j < endIndex y -> stands j = false)
      /\ forall k, captures y k = captures x k.
Proof.
  intros Hc fuel; induction fuel as [|fuel IH]; intros x z H;
    [discriminate|].
  cbn [RepeatMatcher Nat.eqb negb andb] in H.
  apply orElse_Some in H. destruct H as [H | [Hnone H]].
  - exists x. split; [exact H|]. split; [lia|]. split; [intros; lia|auto].
  - apply CharacterSetMatcher_Some in H. destruct H as (a & _ & _ & H).
    cbn [endIndex advance clearCaptures] in H.
    destruct (Nat.eqb_spec (S (endIndex x)) (endIndex x)) as [E|_]; [lia|].
    apply IH in H. destruct H as (y & Hy & Hle & Hst & Hcap).
    cbn [endIndex captures advance clearCaptures existsb] in *.
    exists y. split; [exact Hy|]. split; [lia|]. split; [|exact Hcap].
    intros j Hj1 Hj2.
    destruct (Nat.eq_dec j (endIndex x)) as [->|Hneq];
      [apply Hc; exact Hnone | apply Hst; lia].
Qed.

End Engine.

End RegExpFacts.

(** ** Patterns: what the expressions of the parser compile to *)

Module PatternFacts.

Lemma append_assoc (a b c : string) : ((a ++ b) ++ c = a ++ b ++ c)%string.
Proof. induction a as [|x a IH]; simpl; [reflexivity | now rewrite IH]. Qed.

Lemma append_nil_r (a : string) : (a ++ "" = a)%string.
Proof. induction a as [|x a IH]; simpl; [reflexivity | now rewrite IH]. Qed.

Lemma seqOf_rev ts : seqOf (rev ts) = fold_right Seq Empty ts.
Proof.
  unfold seqOf. rewrite <- fold_left_rev_right, rev_involutive. reflexivity.
Qed.

Lemma oneOf_specials c :
  JS.oneOf specials c = JS.oneOf "()[{*+.$^\|?" c || JS.oneOf "/" c.
Proof.
  unfold JS.oneOf, specials. simpl.
  rewrite !orb_false_r, !orb_assoc. reflexivity.
Qed.

Lemma special_cases c :
  JS.oneOf specials c = true ->
  In c (list_ascii_of_string specials).
Proof.
  unfold JS.oneOf. intros H. apply existsb_exists in H.
  destruct H as (k & Hk & E). apply Ascii.eqb_eq in E. now subst.
Qed.

Lemma not_special c k :
  JS.oneOf specials c = false -> In k (list_ascii_of_string specials) ->
  Ascii.eqb c k = false.
Proof.
  unfold JS.oneOf. intros H Hk.
  destruct (Ascii.eqb c k) eqn:E; [|reflexivity].
  rewrite <- H. symmetry. apply existsb_exists. exists k; auto.
Qed.

(** The two replacements of [setTags] amount to one: a backslash before
    each of [( ) [ { * + . $ ^ \ | ? /]. *)
Lemma fragment_single_pass t :
  fragment t = JS.escapeChars (JS.oneOf specials) t.
Proof.
  unfold fragment, escapeSlashes, escapedSequence.
  induction t as [|c t IH]; [reflexivity|].
  cbn [JS.escapeChars]. rewrite oneOf_specials.
  destruct (JS.oneOf "()[{*+.$^\|?" c) eqn:E1; cbn [JS.escapeChars orb].
  - change (JS.oneOf "/" "\"%char) with false. cbv iota.
    destruct (JS.oneOf "/" c) eqn:E2.
    + exfalso. unfold JS.oneOf in E2. simpl in E2.
      rewrite orb_false_r in E2. apply Ascii.eqb_eq in E2. subst c.
      discriminate E1.
    + rewrite IH. reflexivity.
  - destruct (JS.oneOf "/" c); rewrite IH; reflexivity.
Qed.

Lemma atomEscape_special c :
  JS.oneOf specials c = true -> atomEscape c = Some (Char c).
Proof.
  intros H. apply special_cases in H. simpl in H.
  repeat (destruct H as [H|H]; [subst c; reflexivity|]).
  contradiction.
Qed.

Lemma parse_escape e rest cur stack next :
  parse (String "\" (String e rest)) None cur stack next =
  match atomEscape e with
  | Some a => parse rest None (pushTerm true a cur) stack next
  | None => None
  end.
Proof. reflexivity. Qed.

Lemma parse_plain_char c rest cur stack next :
  JS.oneOf specials c = false ->
  parse (String c rest) None cur stack next =
  parse rest None (pushTerm true (Char c) cur) stack next.
Proof.
  intros H. cbn [parse].
  rewrite !(not_special c _ H) by (simpl; tauto).
  reflexivity.
Qed.

(** A fragment is read as the characters of its marker. *)
Lemma parse_fragment t :
  forall rest cur stack next,
    parse (fragment t ++ rest) None cur stack next =
    parse rest None (pushChars (list_ascii_of_string t) cur) stack next.
Proof.
  rewrite fragment_single_pass.
  induction t as [|c t IH]; intros rest cur stack next; [reflexivity|].
  cbn [JS.escapeChars list_ascii_of_string pushChars fold_left].
  destruct (JS.oneOf specials c) eqn:E.
  - cbn [append]. rewrite parse_escape, (atomEscape_special c E).
    apply IH.
  - cbn [append]. rewrite (parse_plain_char c _ _ _ _ E). apply IH.
Qed.

Lemma pushChars_terms l f :
  f_terms (pushChars l f) = (rev (map Char l) ++ f_terms f)%list.
Proof.
  revert f; induction l as [|c l IH]; intros f; [reflexivity|].
  cbn [pushChars fold_left]. fold (pushChars l (pushTerm true (Char c) f)).
  rewrite IH. simpl. rewrite <- app_assoc. reflexivity.
Qed.

Lemma pushChars_group l f : f_group (pushChars l f) = f_group f.
Proof.
  revert f; induction l as [|c l IH]; intros f; [reflexivity|].
  cbn [pushChars fold_left]. fold (pushChars l (pushTerm true (Char c) f)).
  now rewrite IH.
Qed.

Lemma pushChars_alts l f : f_alts (pushChars l f) = f_alts f.
Proof.
  revert f; induction l as [|c l IH]; intros f; [reflexivity|].
  cbn [pushChars fold_left]. fold (pushChars l (pushTerm true (Char c) f)).
  now rewrite IH.
Qed.

Lemma closeFrame_pushChars t g alts :
  closeFrame (pushChars (list_ascii_of_string t) (openAlt g alts)) =
  wrap g (altOf (literal t) alts).
Proof.
  unfold closeFrame.
  rewrite pushChars_terms, pushChars_group, pushChars_alts. simpl.
  rewrite app_nil_r, seqOf_rev. reflexivity.
Qed.

Lemma nextAlt_pushChars t g alts :
  nextAlt (pushChars (list_ascii_of_string t) (openAlt g alts)) =
  openAlt g (literal t :: alts).
Proof.
  unfold nextAlt, openAlt.
  rewrite pushChars_terms, pushChars_group, pushChars_alts. simpl.
  rewrite app_nil_r, seqOf_rev. reflexivity.
Qed.

(** The alternatives of a group, up to its closing parenthesis. *)
Lemma parse_alternatives ts :
  forall g alts parent stack next rest,
    parse (JS.join "|" (map fragment ts) ++ ")" ++ rest) None
      (openAlt g alts) (parent :: stack) next =
    parse rest None
      (pushTerm true (wrap g (altOf (alternation ts) alts)) parent)
      stack next.
Proof.
  induction ts as [|t ts IH]; intros g alts parent stack next rest.
  - reflexivity.
  - destruct ts as [|t' ts].
    + cbn [map JS.join alternation].
      rewrite parse_fragment. cbn [append].
      change (parse (String ")" rest) None ?f (parent :: stack) next)
        with (parse rest None (pushTerm true (closeFrame f) parent)
                stack next).
      rewrite closeFrame_pushChars. reflexivity.
    + change (JS.join "|" (map fragment (t :: t' :: ts)))
        with (fragment t ++ "|" ++ JS.join "|" (map fragment (t' :: ts)))%string.
      rewrite !append_assoc, parse_fragment.
      change (("|" ++ ?x)%string) with (String "|" x).
      change (parse (String "|" ?x) None ?f (parent :: stack) next)
        with (parse x None (nextAlt f) (parent :: stack) next).
      rewrite nextAlt_pushChars.
      rewrite IH. reflexivity.
Qed.

Lemma first_of_fragment t rest c s :
  (fragment t ++ String ")" rest)%string = String c s ->
  Ascii.eqb c "?" = false.
Proof.
  rewrite fragment_single_pass.
  destruct t as [|k t]; cbn [JS.escapeChars append].
  - intros H; inversion H; reflexivity.
  - destruct (JS.oneOf specials k) eqn:E; cbn [append]; intros H;
      inversion H; subst; [reflexivity|].
    apply (not_special _ _ E). simpl; tauto.
Qed.

Lemma first_of_alternatives ts rest c s :
  (JS.join "|" (map fragment ts) ++ String ")" rest)%string = String c s ->
  Ascii.eqb c "?" = false.
Proof.
  destruct ts as [|t [|t' ts]].
  - simpl. intros H; inversion H; reflexivity.
  - cbn [map JS.join]. apply first_of_fragment.
  - change (JS.join "|" (map fragment (t :: t' :: ts)))
      with (fragment t ++ "|" ++ JS.join "|" (map fragment (t' :: ts)))%string.
    rewrite append_assoc. rewrite fragment_single_pass.
    destruct t as [|k t]; cbn [JS.escapeChars append].
    + intros H; inversion H; reflexivity.
    + destruct (JS.oneOf specials k) eqn:E; cbn [append]; intros H;
        inversion H; subst; [reflexivity|].
      apply (not_special _ _ E). simpl; tauto.
Qed.

(** The group of the tags: [(] the fragments joined by [|] and [)]. *)
Lemma parse_tag_group ts rest cur stack next :
  parse ("(" ++ JS.join "|" (map fragment ts) ++ ")" ++ rest) None
    cur stack next =
  parse rest None (pushTerm true (Group next (alternation ts)) cur)
    stack (S next).
Proof.
  change (pushTerm true (Group next (alternation ts)) cur)
    with (pushTerm true (wrap (Some next) (altOf (alternation ts) [])) cur).
  rewrite <- (parse_alternatives ts (Some next) [] cur stack (S next) rest).
  change (("(" ++ ?x)%string) with (String "(" x).
  change ((")" ++ rest)%string) with (String ")" rest).
  destruct (JS.join "|" (map fragment ts) ++ String ")" rest)%string
    as [|c s] eqn:E.
  - destruct (JS.join "|" (map fragment ts)); discriminate E.
  - apply first_of_alternatives in E.
    cbn [parse].
    change (Ascii.eqb "(" "(") with true. cbv iota. rewrite E.
    reflexivity.
Qed.

Lemma new_linePattern_block ts :
  RegExp.new (("(^)+([ \t]*[ \t]*)(" ++ JS.join "|" (map fragment ts))
              ++ lineTail) "igm" =
  Some (compiled (linePattern blockLead ts) 5 flags_igm).
Proof.
  unfold RegExp.new, lineTail.
  rewrite append_assoc.
  change ("(^)+([ \t]*[ \t]*)(" ++ ?x)%string
    with ("(^)+([ \t]*[ \t]*)" ++ "(" ++ x)%string.
  change (")([ ]*|[:])+([^*/][^\r\n]*)")
    with (")" ++ "([ ]*|[:])+([^*/][^\r\n]*)")%string.
  change (parse ("(^)+([ \t]*[ \t]*)" ++ ?x) None (emptyFrame None) [] 1)
    with (parse x None
            (pushTerm true (Group 2 blockLead)
               (pushTerm false lineStartGroup (emptyFrame None))) [] 3).
  rewrite parse_tag_group. reflexivity.
Qed.

Lemma new_linePattern_doc ts :
  RegExp.new (("(^)+([ \t]*\*[ \t]*)(" ++ JS.join "|" (map fragment ts))
              ++ lineTail) "igm" =
  Some (compiled (linePattern docLead ts) 5 flags_igm).
Proof.
  unfold RegExp.new, lineTail.
  rewrite append_assoc.
  change ("(^)+([ \t]*\*[ \t]*)(" ++ ?x)%string
    with ("(^)+([ \t]*\*[ \t]*)" ++ "(" ++ x)%string.
  change (")([ ]*|[:])+([^*/][^\r\n]*)")
    with (")" ++ "([ ]*|[:])+([^*/][^\r\n]*)")%string.
  change (parse ("(^)+([ \t]*\*[ \t]*)" ++ ?x) None (emptyFrame None) [] 1)
    with (parse x None
            (pushTerm true (Group 2 docLead)
               (pushTerm false lineStartGroup (emptyFrame None))) [] 3).
  rewrite parse_tag_group. reflexivity.
Qed.


Lemma new_delimitedPattern d D ts fl :
  readsAs d D ->
  RegExp.new (((("(" ++ d ++ ")+( |" ++ String JS.TAB "" ++ ")*") ++ "(")
                ++ JS.join "|" (map fragment ts)) ++ ")+(.*)") fl =
  Some (compiled (delimitedPattern D ts) 4 (parseFlags fl)).
Proof.
  intros HD. unfold RegExp.new.
  rewrite !append_assoc.
  change (")+( |" ++ ?x)%string with (")" ++ "+( |" ++ x)%string.
  rewrite HD.
  change (")+(.*)") with (")" ++ "+(.*)")%string.
  change (parse ("+( |" ++ String JS.TAB "" ++ ")*" ++ ?x) None
            (pushTerm true (Group 1 D) (emptyFrame None)) [] 2)
    with (parse x None
            (pushTerm false
               (Repeat 0 None true
                  (Group 2 (Alt (Seq (Char " ") Empty)
                                (Seq (Char JS.TAB) Empty))))
               (pushTerm false (Repeat 1 None true (Group 1 D))
                  (emptyFrame None))) [] 3).
  rewrite parse_tag_group. reflexivity.
Qed.

(** [escapeRegExp]: the escaped string is read as the characters of the
    string it was made from. *)
Lemma atomEscape_escaped c :
  JS.oneOf escaped c = true -> atomEscape c = Some (Char c).
Proof.
  unfold JS.oneOf. intros H. apply existsb_exists in H.
  destruct H as (k & Hk & E). apply Ascii.eqb_eq in E. subst k.
  simpl in Hk.
  repeat (destruct Hk as [Hk|Hk]; [subst c; reflexivity|]).
  contradiction.
Qed.

Lemma not_escaped c k :
  JS.oneOf escaped c = false -> In k (list_ascii_of_string escaped) ->
  Ascii.eqb c k = false.
Proof.
  unfold JS.oneOf. intros H Hk.
  destruct (Ascii.eqb c k) eqn:E; [|reflexivity].
  rewrite <- H. symmetry. apply existsb_exists. exists k; auto.
Qed.

Lemma parse_unescaped_char c rest cur stack next :
  JS.oneOf escaped c = false ->
  parse (String c rest) None cur stack next =
  parse rest None (pushTerm true (Char c) cur) stack next.
Proof.
  intros H. cbn [parse].
  rewrite !(not_escaped c _ H) by (simpl; tauto).
  reflexivity.
Qed.

Lemma parse_escapeRegExp t :
  forall rest cur stack next,
    parse (escapeRegExp t ++ rest) None cur stack next =
    parse rest None (pushChars (list_ascii_of_string t) cur) stack next.
Proof.
  unfold escapeRegExp. fold escaped.
  induction t as [|c t IH]; intros rest cur stack next; [reflexivity|].
  cbn [JS.escapeChars list_ascii_of_string pushChars fold_left].
  destruct (JS.oneOf escaped c) eqn:E.
  - cbn [append]. rewrite parse_escape, (atomEscape_escaped c E).
    apply IH.
  - cbn [append]. rewrite (parse_unescaped_char c _ _ _ _ E). apply IH.
Qed.


(** The slash replacement of [SetRegex] after [escapeRegExp]: one pass
    that also escapes the slash. *)
Lemma escapeSlashes_escapeRegExp t :
  escapeSlashes (escapeRegExp t)
  = JS.escapeChars (fun c => JS.oneOf escaped c || JS.oneOf "/" c) t.
Proof.
  unfold escapeSlashes, escapeRegExp. fold escaped.
  induction t as [|c t IH]; [reflexivity|].
  cbn [JS.escapeChars].
  destruct (JS.oneOf escaped c) eqn:E1; cbn [JS.escapeChars orb].
  - change (JS.oneOf "/" "\"%char) with false. cbv iota.
    destruct (JS.oneOf "/" c) eqn:E2.
    + exfalso. unfold JS.oneOf in E2. simpl in E2.
      rewrite orb_false_r in E2. apply Ascii.eqb_eq in E2. subst c.
      discriminate E1.
    + rewrite IH. reflexivity.
  - destruct (JS.oneOf "/" c); rewrite IH; reflexivity.
Qed.

Lemma parse_escaped_delimiter t :
  forall rest cur stack next,
    parse (escapeSlashes (escapeRegExp t) ++ rest) None cur stack next =
    parse rest None (pushChars (list_ascii_of_string t) cur) stack next.
Proof.
  rewrite escapeSlashes_escapeRegExp.
  induction t as [|c t IH]; intros rest cur stack next; [reflexivity|].
  cbn [JS.escapeChars list_ascii_of_string pushChars fold_left].
  destruct (JS.oneOf escaped c) eqn:E; cbn [orb].
  - cbn [append]. rewrite parse_escape, (atomEscape_escaped c E).
    apply IH.
  - destruct (JS.oneOf "/" c) eqn:E2.
    + unfold JS.oneOf in E2. simpl in E2. rewrite orb_false_r in E2.
      apply Ascii.eqb_eq in E2. subst c.
      cbn [append]. rewrite parse_escape. apply IH.
    + cbn [append]. rewrite (parse_unescaped_char c _ _ _ _ E). apply IH.
Qed.

Lemma first_of_escaped_delimiter t rest c s :
  (escapeSlashes (escapeRegExp t) ++ String ")" rest)%string = String c s ->
  Ascii.eqb c "?" = false.
Proof.
  rewrite escapeSlashes_escapeRegExp.
  destruct t as [|k t]; cbn [JS.escapeChars append].
  - intros H; inversion H; reflexivity.
  - destruct (JS.oneOf escaped k) eqn:E; cbn [orb append].
    + intros H; inversion H; reflexivity.
    + destruct (JS.oneOf "/" k); cbn [append]; intros H; inversion H; subst;
        [reflexivity|].
      apply (not_escaped _ _ E). simpl; tauto.
Qed.

Lemma parse_escaped_delimiter_group t g alts parent stack next rest :
  parse (escapeSlashes (escapeRegExp t) ++ String ")" rest) None
    (openAlt g alts) (parent :: stack) next =
  parse rest None (pushTerm true (wrap g (altOf (literal t) alts)) parent)
    stack next.
Proof.
  rewrite parse_escaped_delimiter.
  change (parse (String ")" rest) None ?f (parent :: stack) next)
    with (parse rest None (pushTerm true (closeFrame f) parent) stack next).
  rewrite closeFrame_pushChars. reflexivity.
Qed.

Lemma escaped_delimiter_readsAs t :
  readsAs (escapeSlashes (escapeRegExp t)) (literal t).
Proof.
  intros rest.
  change (pushTerm true (Group 1 (literal t)) (emptyFrame None))
    with (pushTerm true (wrap (Some 1) (altOf (literal t) []))
            (emptyFrame None)).
  rewrite <- (parse_escaped_delimiter_group t (Some 1) [] (emptyFrame None)
                [] 2 rest).
  change (("(" ++ ?x)%string) with (String "(" x).
  change ((")" ++ rest)%string) with (String ")" rest).
  destruct (escapeSlashes (escapeRegExp t) ++ String ")" rest)%string
    as [|c s] eqn:E.
  - destruct (escapeSlashes (escapeRegExp t)); discriminate E.
  - apply first_of_escaped_delimiter in E.
    cbn [parse].
    change (Ascii.eqb "(" "(") with true. cbv iota. rewrite E.
    reflexivity.
Qed.

(** The outer pattern of the block scan, for delimiters that came out of
    [escapeRegExp]. *)
Lemma parse_open_group s' c s cur stack next :
  s' = String c s -> Ascii.eqb c "?" = false ->
  parse (String "(" s') None cur stack next =
  parse s' None (emptyFrame (Some next)) (cur :: stack) (S next).
Proof.
  intros -> H. cbn [parse].
  change (Ascii.eqb "(" "(") with true. cbv iota. rewrite H. reflexivity.
Qed.

Lemma first_of_escapeRegExp t c0 rest :
  Ascii.eqb c0 "?" = false ->
  exists c s, (escapeRegExp t ++ String c0 rest)%string = String c s
              /\ Ascii.eqb c "?" = false.
Proof.
  intros H0. unfold escapeRegExp. fold escaped.
  destruct t as [|k t]; cbn [JS.escapeChars append].
  - eauto.
  - destruct (JS.oneOf escaped k) eqn:E; cbn [append].
    + eexists _, _. split; reflexivity.
    + eexists _, _. split; [reflexivity|].
      apply (not_escaped _ _ E). simpl; tauto.
Qed.

Lemma closeFrame_pushChars_then t g C :
  closeFrame
    (pushTerm true C (pushChars (list_ascii_of_string t) (openAlt g [])))
  = wrap g (literalThen t (Seq C Empty)).
Proof.
  unfold closeFrame. cbn [f_terms f_group f_alts pushTerm].
  rewrite pushChars_terms, pushChars_group, pushChars_alts.
  cbn [f_terms f_group f_alts openAlt altOf fold_left]. rewrite app_nil_r.
  unfold literalThen. f_equal.
  unfold seqOf. cbn [fold_left].
  rewrite <- fold_left_rev_right, rev_involutive. reflexivity.
Qed.

Lemma new_blockPattern s e :
  RegExp.new (((("(^|[ \t])(" ++ escapeRegExp s) ++ "[\s])+([\s\S]*?)(")
               ++ escapeRegExp e) ++ ")") "gm"
  = Some (compiled (blockPattern s e) 4 flags_gm).
Proof.
  unfold RegExp.new. rewrite !append_assoc.
  change ("(^|[ \t])(" ++ ?x)%string
    with ("(^|[ \t])" ++ String "(" x)%string.
  change (parse ("(^|[ \t])" ++ ?x) None (emptyFrame None) [] 1)
    with (parse x None (pushTerm true lineStartOrBlank (emptyFrame None))
            [] 2).
  change ("[\s])+([\s\S]*?)(" ++ ?x)%string
    with (String "[" ("\s])+([\s\S]*?)" ++ String "(" x))%string.
  destruct (first_of_escapeRegExp s "["
              ("\s])+([\s\S]*?)" ++ String "(" (escapeRegExp e ++ ")"))
              eq_refl)
    as (c1 & s1 & E1 & Hq1).
  rewrite (parse_open_group _ c1 s1 _ _ _ E1 Hq1).
  rewrite parse_escapeRegExp.
  change (parse (String "[" ("\s])+([\s\S]*?)" ++ ?x)) None ?f [?p] 3)
    with (parse x None
            (pushTerm true (Group 3 (Seq (Repeat 0 None false anyChar) Empty))
               (pushTerm false
                  (Repeat 1 None true
                     (closeFrame
                        (pushTerm true (CharClass false [ClassSpace]) f)))
                  p)) [] 4).
  change (escapeRegExp e ++ ")")%string
    with (escapeRegExp e ++ String ")" "")%string.
  destruct (first_of_escapeRegExp e ")" "" eq_refl) as (c2 & s2 & E2 & Hq2).
  rewrite (parse_open_group _ c2 s2 _ _ _ E2 Hq2).
  rewrite parse_escapeRegExp.
  cbn [parse].
  change (emptyFrame (Some 4)) with (openAlt (Some 4) []).
  change (emptyFrame (Some 2)) with (openAlt (Some 2) []).
  rewrite closeFrame_pushChars, closeFrame_pushChars_then. reflexivity.
Qed.

Lemma new_docBlockPattern :
  RegExp.new "(^|[ \t])(\/\*\*)+([\s\S]*?)(\*\/)" "gm"
  = Some (compiled docBlockPattern 4 flags_gm).
Proof. reflexivity. Qed.

End PatternFacts.

(** ** The grammar table *)

Module TableFacts.

(** One branch of the [switch] after the other. *)
Ltac by_cases languageCode :=
  unfold setDelimiter;
  repeat match goal with
         | |- context [if case_ languageCode ?labels then _ else _] =>
             destruct (case_ languageCode labels)
         end.

Lemma setDelimiter_tags languageCode this :
  p_tags (setDelimiter languageCode this) = p_tags this.
Proof. by_cases languageCode; reflexivity. Qed.

Lemma setDelimiter_contributions languageCode this :
  contributions (setDelimiter languageCode this) = contributions this.
Proof. by_cases languageCode; reflexivity. Qed.

Lemma setDelimiter_expression languageCode this :
  expression (setDelimiter languageCode this) = expression this.
Proof. by_cases languageCode; reflexivity. Qed.


Lemma setTags_fold l :
  forall this,
    fold_left (fun this item => set_tags (p_tags this ++ [makeTag item])%list this)
      l this =
    set_tags (p_tags this ++ map makeTag l)%list this.
Proof.
  induction l as [|a l IH]; intros this.
  - simpl. rewrite app_nil_r. destruct this; reflexivity.
  - simpl. rewrite IH. unfold set_tags; simpl. rewrite <- app_assoc.
    reflexivity.
Qed.

(** The parser as the constructor leaves it. *)
Lemma new_Parser_eq c :
  new_Parser c =
  {| p_tags := map makeTag (tags c); expression := ""; delimiter := "";
     blockCommentStart := ""; blockCommentEnd := "";
     highlightSingleLineComments := true;
     highlightMultilineComments := false;
     highlightJSDoc := false;
     isPlainText := false;
     ignoreFirstLine := false;
     supportedLanguage := true;
     contributions := c |}.
Proof. unfold new_Parser, setTags. rewrite setTags_fold. reflexivity. Qed.

Lemma new_Parser_registryBuilt c : registryBuilt (new_Parser c).
Proof.
  rewrite new_Parser_eq. unfold registryBuilt, markers. simpl.
  rewrite !map_map. reflexivity.
Qed.

Lemma case_incl languageCode labels ids :
  case_ languageCode labels = true ->
  forallb (fun x => existsb (String.eqb x) ids) labels = true ->
  case_ languageCode ids = true.
Proof.
  unfold case_. intros H Hall.
  apply existsb_exists in H. destruct H as (x & Hx & E).
  apply String.eqb_eq in E. subst x.
  rewrite forallb_forall in Hall. apply Hall in Hx.
  apply existsb_exists in Hx. destruct Hx as (y & Hy & E).
  apply String.eqb_eq in E. subst y.
  apply existsb_exists. exists languageCode. split; auto.
  apply String.eqb_refl.
Qed.

(** An id that is not a label of the [switch] takes the [default]. *)
Lemma setDelimiter_default languageCode this :
  case_ languageCode languageIds = false ->
  setDelimiter languageCode this =
  set_supportedLanguage false
    (set_isPlainText false
       (set_ignoreFirstLine false (set_supportedLanguage true this))).
Proof.
  intros H. unfold setDelimiter.
  repeat match goal with
         | |- context [if case_ languageCode ?labels then _ else _] =>
             let E := fresh "E" in
             destruct (case_ languageCode labels) eqn:E;
             [apply (case_incl _ _ languageIds) in E;
              [congruence | reflexivity] | clear E]
         end.
  reflexivity.
Qed.

(** [SetRegex], in one assignment. *)
Lemma SetRegex_eq languageCode this :
  SetRegex languageCode this =
  let q := setDelimiter languageCode this in
  if supportedLanguage q then
    set_expression
      (if plainMode q then plainExpression q else delimitedExpression q) q
  else q.
Proof.
  unfold SetRegex, plainMode, plainExpression, delimitedExpression.
  cbv zeta.
  destruct (supportedLanguage (setDelimiter languageCode this));
    [|reflexivity].
  cbn [negb].
  destruct (isPlainText (setDelimiter languageCode this)
            && highlightPlainText
                 (contributions (setDelimiter languageCode this)));
    reflexivity.
Qed.

Lemma SetRegex_tags languageCode this :
  p_tags (SetRegex languageCode this) = p_tags this.
Proof.
  rewrite SetRegex_eq. cbv zeta.
  destruct (supportedLanguage (setDelimiter languageCode this));
    cbn [p_tags set_expression]; apply setDelimiter_tags.
Qed.

Lemma SetRegex_registryBuilt languageCode this :
  registryBuilt this -> registryBuilt (SetRegex languageCode this).
Proof.
  unfold registryBuilt, markers. now rewrite SetRegex_tags.
Qed.




(** The [switch] set a second time for the same language changes
    nothing, and it neither reads nor writes the expression. *)
Lemma setDelimiter_idem languageCode this :
  setDelimiter languageCode (setDelimiter languageCode this)
  = setDelimiter languageCode this.
Proof. by_cases languageCode; reflexivity. Qed.

Lemma setDelimiter_set_expression languageCode e this :
  setDelimiter languageCode (set_expression e this)
  = set_expression e (setDelimiter languageCode this).
Proof. by_cases languageCode; reflexivity. Qed.

Lemma setDelimiter_single languageCode this :
  highlightSingleLineComments (setDelimiter languageCode this)
  = highlightSingleLineComments this.
Proof. by_cases languageCode; reflexivity. Qed.

(** Every delimiter of the table takes at least one character. *)
Lemma delimiter_readsAs_consumes languageCode this :
  let q := setDelimiter languageCode this in
  supportedLanguage q = true ->
  isPlainText q && highlightPlainText (contributions q) = false ->
  exists D, readsAs (escapeSlashes (delimiter q)) D /\ consumes D = true.
Proof.
  by_cases languageCode; cbn; intros Hs Hp;
    try discriminate;
    try (rewrite Hs in Hp; discriminate);
    eexists; (split; [intros rest; reflexivity | reflexivity]).
Qed.

Lemma SetRegex_compiles_delimited languageCode this :
  let p := SetRegex languageCode this in
  registryBuilt this ->
  supportedLanguage p = true -> plainMode p = false ->
  exists D,
    consumes D = true /\
    RegExp.new (expression p) (singleLineFlags p) =
    Some (compiled (delimitedPattern D (markers this)) 4
            (parseFlags (singleLineFlags p))).
Proof.
  intros p Hreg Hs. subst p. rewrite SetRegex_eq in *. cbv zeta in *.
  set (q := setDelimiter languageCode this) in *.
  assert (Hq : map escapedTag (p_tags q) = map fragment (markers this)).
  { unfold q. rewrite setDelimiter_tags. exact Hreg. }
  destruct (supportedLanguage q) eqn:Esup; [|congruence].
  unfold plainMode, singleLineFlags.
  cbn [isPlainText contributions expression delimiter set_expression].
  fold (plainMode q). intros Ep. rewrite Ep.
  destruct (delimiter_readsAs_consumes languageCode this Esup Ep)
    as (D & HD & Hc).
  fold q in HD. exists D. split; [exact Hc|].
  unfold delimitedExpression. rewrite Hq.
  apply PatternFacts.new_delimitedPattern. exact HD.
Qed.

(** The block delimiters come out of [escapeRegExp], from the constructor
    on. *)
Lemma setDelimiter_blockDelimitersEscaped languageCode this :
  blockDelimitersEscaped this ->
  blockDelimitersEscaped (setDelimiter languageCode this).
Proof.
  unfold blockDelimitersEscaped. intros (s & e & Hs & He).
  by_cases languageCode;
    cbn [blockCommentStart blockCommentEnd setCommentFormat
         set_delimiter set_blockCommentStart set_blockCommentEnd
         set_highlightSingleLineComments set_highlightMultilineComments
         set_highlightJSDoc set_isPlainText set_ignoreFirstLine
         set_supportedLanguage case_plaintext];
    try (eexists _, _; split; reflexivity);
    exists s, e; auto.
Qed.

Lemma SetRegex_wellFormed languageCode this :
  wellFormed this -> wellFormed (SetRegex languageCode this).
Proof.
  intros (H1 & H2). split; [now apply SetRegex_registryBuilt|].
  rewrite SetRegex_eq. cbv zeta.
  pose proof (setDelimiter_blockDelimitersEscaped languageCode this H2) as H.
  destruct (supportedLanguage (setDelimiter languageCode this));
    [|exact H].
  exact H.
Qed.

Lemma new_Parser_wellFormed c : wellFormed (new_Parser c).
Proof.
  split; [apply new_Parser_registryBuilt|].
  rewrite new_Parser_eq. exists "", "". split; reflexivity.
Qed.

Lemma SetRegex_compiles_literal languageCode this d :
  let p := SetRegex languageCode this in
  registryBuilt this ->
  supportedLanguage p = true -> plainMode p = false ->
  delimiter p = escapeRegExp d ->
  RegExp.new (expression p) (singleLineFlags p) =
  Some (compiled (delimitedPattern (literal d) (markers this)) 4
          (parseFlags (singleLineFlags p))).
Proof.
  intros p Hreg Hs. subst p. rewrite SetRegex_eq in *.
  cbv zeta in *.
  set (q := setDelimiter languageCode this) in *.
  assert (Hq : map escapedTag (p_tags q) = map fragment (markers this)).
  { unfold q. rewrite setDelimiter_tags. exact Hreg. }
  destruct (supportedLanguage q) eqn:Esup; [|congruence].
  unfold plainMode, singleLineFlags.
  cbn [isPlainText contributions expression delimiter set_expression].
  fold (plainMode q). intros Ep Hd. rewrite Ep.
  unfold delimitedExpression. rewrite Hq, Hd.
  apply PatternFacts.new_delimitedPattern.
  apply PatternFacts.escaped_delimiter_readsAs.
Qed.

End TableFacts.

(** ** What the matches of the scan patterns look like *)

Module MatchFacts.
Import RegExpFacts.

Section Shapes.

Variable input : list ascii.
Variable fl : Flags.

Local Abbreviation Matches := (Matches input fl).

Lemma Matches_literal t :
  forall x y,
    Matches (literal t) x y ->
    occursAt fl (list_ascii_of_string t) input (endIndex x) = true
    /\ y = advanceBy (String.length t) x.
Proof.
  induction t as [|k t IH]; intros x y H.
  - apply Matches_Empty_inv in H. subst. simpl.
    now rewrite advanceBy_0.
  - change (literal (String k t)) with (Seq (Char k) (literal t)) in H.
    apply Matches_Seq_inv in H. destruct H as (y1 & H1 & H2).
    apply Matches_Char_inv in H1. destruct H1 as (-> & a & Ha & Hc).
    apply IH in H2. destruct H2 as (Ho & ->).
    cbn [list_ascii_of_string occursAt String.length].
    rewrite Ha, Hc, Ascii.eqb_refl. cbn [andb endIndex advance] in *.
    split; [exact Ho | apply advanceBy_advance].
Qed.

Lemma literal_Matches t :
  forall x,
    occursAt fl (list_ascii_of_string t) input (endIndex x) = true ->
    Matches (literal t) x (advanceBy (String.length t) x).
Proof.
  induction t as [|k t IH]; intros x H.
  - simpl. rewrite advanceBy_0. constructor.
  - change (literal (String k t)) with (Seq (Char k) (literal t)).
    cbn [list_ascii_of_string occursAt String.length] in *.
    destruct (nth_error input (endIndex x)) as [a|] eqn:Ea; [|discriminate].
    apply andb_true_iff in H. destruct H as [Hc Ho].
    rewrite <- advanceBy_advance.
    eapply M_Seq; [eapply M_Char; eauto | apply IH; exact Ho].
Qed.

Lemma Matches_alternation ts :
  forall x y,
    Matches (alternation ts) x y ->
    (ts = [] /\ y = x) \/ exists t, In t ts /\ Matches (literal t) x y.
Proof.
  induction ts as [|t ts IH]; intros x y H.
  - left. split; [reflexivity|]. now apply Matches_Empty_inv in H.
  - right. destruct ts as [|t' ts].
    + exists t. split; [left; reflexivity | exact H].
    + change (alternation (t :: t' :: ts))
        with (Alt (literal t) (alternation (t' :: ts))) in H.
      apply Matches_Alt_inv in H. destruct H as [H|H].
      * exists t. split; [left; reflexivity | exact H].
      * apply IH in H. destruct H as [[E _]|(t0 & Hin & H)];
          [discriminate|].
        exists t0. split; [right; exact Hin | exact H].
Qed.

Lemma alternation_Matches ts t x y :
  In t ts -> Matches (literal t) x y -> Matches (alternation ts) x y.
Proof.
  induction ts as [|t0 ts IH]; intros Hin H; [contradiction|].
  destruct ts as [|t' ts].
  - destruct Hin as [->|[]]. exact H.
  - change (alternation (t0 :: t' :: ts))
      with (Alt (literal t0) (alternation (t' :: ts))).
    destruct Hin as [->|Hin]; [apply M_AltL; exact H|].
    apply M_AltR. apply IH; auto.
Qed.

(** A repetition of a pattern that takes one accepted character at a time
    runs over accepted characters and keeps the captures. *)
Lemma Matches_star_chars (accepts : ascii -> bool) r greedy :
  groupsOf r = [] ->
  (forall x y, Matches r x y ->
               y = advance x /\
               exists a, nth_error input (endIndex x) = Some a
                         /\ accepts a = true) ->
  forall min max x z,
    Matches (Repeat min max greedy r) x z ->
    endIndex x <= endIndex z
    /\ (forall j, endIndex x <= j -> j < endIndex z ->
                  exists a, nth_error input j = Some a /\ accepts a = true)
    /\ (forall k, captures z k = captures x k).
Proof.
  intros Hg Hr.
  apply (Matches_Repeat_ind input fl
           (fun x z =>
              endIndex x <= endIndex z
              /\ (forall j, endIndex x <= j -> j < endIndex z ->
                            exists a, nth_error input j = Some a
                                      /\ accepts a = true)
              /\ (forall k, captures z k = captures x k))).
  - intros x. repeat split; auto. intros; lia.
  - intros x y z Hy (H1 & H2 & H3).
    apply Hr in Hy. destruct Hy as (-> & a & Ha & Hacc).
    rewrite Hg in *. cbn [endIndex captures advance clearCaptures existsb] in *.
    repeat split; try lia.
    + intros j Hj1 Hj2.
      destruct (Nat.eq_dec j (endIndex x)) as [->|Hne]; [eauto|].
      apply H2; lia.
    + intros k. rewrite H3. reflexivity.
Qed.

(** [(^)+] matches at a line start, takes nothing and sets group 1. *)
Lemma Matches_lineStartGroup x z :
  Matches lineStartGroup x z ->
  atLineStart input fl (endIndex x) = true
  /\ endIndex z = endIndex x
  /\ forall k, k <> 1 -> captures z k = captures x k.
Proof.
  unfold lineStartGroup. intros H.
  apply Matches_Repeat_first in H. destruct H as (y & Hy & H).
  apply Matches_Group_inv in Hy. destruct Hy as (y1 & Hy1 & ->).
  apply Matches_Seq_inv in Hy1. destruct Hy1 as (y2 & Hb & He).
  apply Matches_Empty_inv in He. subst y2.
  apply Matches_BOL_inv in Hb. destruct Hb as (-> & Hb).
  cbn [endIndex clearCaptures] in Hb.
  apply Matches_Repeat_empty_body in H.
  2: { intros x0 y0 H0.
       apply Matches_Group_inv in H0. destruct H0 as (y3 & Hy3 & ->).
       apply Matches_Seq_inv in Hy3. destruct Hy3 as (y4 & Hb' & He').
       apply Matches_Empty_inv in He'. subst y4.
       apply Matches_BOL_inv in Hb'. destruct Hb' as (-> & _).
       reflexivity. }
  subst z. cbn. repeat split; auto.
  intros k Hk.
  destruct (Nat.eqb_spec k 1); [contradiction|].
  reflexivity.
Qed.

Lemma groupsOf_literal t : groupsOf (literal t) = [].
Proof.
  unfold literal. induction (list_ascii_of_string t) as [|k l IH];
    [reflexivity | exact IH].
Qed.

Lemma groupsOf_alternation ts : groupsOf (alternation ts) = [].
Proof.
  induction ts as [|t ts IH]; [reflexivity|].
  destruct ts as [|t' ts]; [apply groupsOf_literal|].
  change (alternation (t :: t' :: ts))
    with (Alt (literal t) (alternation (t' :: ts))).
  cbn [groupsOf]. now rewrite groupsOf_literal, IH.
Qed.

(** The tags and the rest of the line: a tag stands where they begin
    (unless there is no tag at all), and group 3 is set at the end. *)
Lemma Matches_tagsThenRest ts x z :
  Matches (tagsThenRest ts) x z ->
  (ts = [] \/
   exists t, In t ts /\
             occursAt fl (list_ascii_of_string t) input (endIndex x) = true)
  /\ (exists se, captures z 3 = Some se)
  /\ endIndex x <= endIndex z
  /\ (forall k, k <> 3 -> k <> 4 -> captures z k = captures x k).
Proof.
  unfold tagsThenRest. intros H.
  apply Matches_Seq_inv in H. destruct H as (y & Hrep & Hrest).
  assert (Hout : forall k, k <> 3 -> k <> 4 -> captures z k = captures x k).
  { intros k H3 H4.
    rewrite (Matches_captures_outside _ _ _ _ _ Hrest),
            (Matches_captures_outside _ _ _ _ _ Hrep); auto;
      cbn [groupsOf restOfLine]; rewrite ?groupsOf_alternation; simpl; lia. }
  assert (Hle : endIndex x <= endIndex z).
  { apply Matches_endIndex in Hrep. apply Matches_endIndex in Hrest. lia. }
  assert (H3 : captures z 3 = captures y 3).
  { apply (Matches_captures_outside _ _ _ _ _ Hrest). simpl. lia. }
  apply Matches_Repeat_first in Hrep. destruct Hrep as (y1 & Hy1 & Hrep).
  apply Matches_Group_inv in Hy1. destruct Hy1 as (y0 & Hy0 & ->).
  repeat split; auto.
  - apply Matches_alternation in Hy0.
    destruct Hy0 as [[-> _]|(t & Hin & Ht)]; [left; reflexivity|].
    right. exists t. split; [exact Hin|].
    apply Matches_literal in Ht. apply Ht.
  - rewrite H3.
    refine (Matches_Repeat_ind input fl
              (fun a b => (exists se, captures a 3 = Some se) ->
                          exists se, captures b 3 = Some se)
              true (Group 3 (alternation ts)) _ _ _ _ _ _ Hrep _).
    + auto.
    + intros a b c Hab Hbc _. apply Hbc.
      apply Matches_Group_inv in Hab. destruct Hab as (b0 & _ & ->).
      cbn. eauto.
    + cbn. eauto.
Qed.

End Shapes.

(** On characters that are no letters [Canonicalize] is one to one. *)
Lemma upperChar_not_letter a b :
  JS.upperChar a = b -> JS.isUpper b = false -> a = b.
Proof.
  intros <-.
  destruct a as [[] [] [] [] [] [] [] []];
    first [reflexivity | intros H; discriminate H].
Qed.

Lemma Canonicalize_not_letter fl a b :
  Canonicalize fl b = Canonicalize fl a ->
  JS.isUpper b = false -> JS.isLower b = false -> a = b.
Proof.
  unfold Canonicalize. destruct (ignoreCase fl); [|auto].
  intros H Hu Hl.
  assert (Eb : JS.upperChar b = b) by (unfold JS.upperChar; now rewrite Hl).
  rewrite Eb in H. symmetry in H. now apply upperChar_not_letter.
Qed.

(** The end of a match of the tags and the rest of the line is the end of
    a line: the greedy [.*] goes as far as it can. *)
Lemma matcher_Seq_sound input fl r1 r2 x c z :
  matcher input fl (Seq r1 r2) x c = Some z ->
  exists y, Matches input fl r1 x y /\ matcher input fl r2 y c = Some z.
Proof.
  cbn [matcher]. intros H. apply matcher_sound in H. exact H.
Qed.

Lemma matcher_restOfLine_end input fl x z :
  endIndex x <= length input ->
  matcher input fl (Seq restOfLine Empty) x (fun y => Some y) = Some z ->
  endsLine input (endIndex z) = true.
Proof.
  intros Hx H. unfold restOfLine in H. cbn [matcher] in H.
  change (groupsOf Dot) with (@nil nat) in H.
  apply (greedy_stops_at_the_end input fl Dot) in H.
  - destruct H as (y & _ & Hz & Hmax). inversion Hz; subst; clear Hz.
    cbn [endIndex setCapture]. unfold endsLine.
    destruct (nth_error input (endIndex y)) as [a|] eqn:Ea; [|reflexivity].
    destruct (isLineTerminator a) eqn:El; [reflexivity|].
    exfalso.
    assert (HM : Matches input fl Dot (clearCaptures (groupsOf Dot) y)
                   (advance (clearCaptures (groupsOf Dot) y))).
    { eapply M_Dot; eauto. }
    apply Hmax in HM. cbn in HM. lia.
  - intros y. discriminate.
  - exact Hx.
  - unfold repeatFuel. lia.
Qed.

Lemma matchAt_ends_line input fl A B ts i z :
  i <= length input ->
  matchAt input fl (Seq A (Seq B (tagsThenRest ts))) i = Some z ->
  endsLine input (endIndex z) = true.
Proof.
  unfold matchAt, tagsThenRest. intros Hi H.
  apply matcher_Seq_sound in H. destruct H as (y1 & H1 & H).
  apply matcher_Seq_sound in H. destruct H as (y2 & H2 & H).
  apply matcher_Seq_sound in H. destruct H as (y3 & H3 & H).
  apply matcher_restOfLine_end in H; auto.
  apply Matches_endIndex in H1. apply Matches_endIndex in H2.
  apply Matches_endIndex in H3. cbn [endIndex initialState] in H1. tauto.
Qed.

(** What the classes of the inner line pattern accept. *)
Lemma class_single_accepts fl c a :
  JS.isUpper c = false -> JS.isLower c = false ->
  xorb false (existsb (fun at_ => classAtomMatches fl at_ a) [ClassChar c])
  = true ->
  a = c.
Proof.
  intros Hu Hl. cbn. rewrite orb_false_r. intros H.
  apply Ascii.eqb_eq in H. eapply Canonicalize_not_letter; eauto.
Qed.

Lemma class_pair_rejects fl c1 c2 a :
  xorb true (existsb (fun at_ => classAtomMatches fl at_ a)
               [ClassChar c1; ClassChar c2]) = true ->
  a <> c1 /\ a <> c2.
Proof.
  cbn. rewrite orb_false_r. intros H. apply negb_true_iff in H.
  apply orb_false_iff in H. destruct H as [H1 H2].
  split; intros ->; rewrite Ascii.eqb_refl in *; discriminate.
Qed.

(** After the tag: blanks and colons, then a character that is neither an
    asterisk nor a slash, then the line. *)
Lemma Matches_afterTag input fl x z :
  Matches input fl afterTag x z ->
  exists k,
    endIndex x <= k /\ k < endIndex z
    /\ (forall j, endIndex x <= j -> j < k ->
                  nth_error input j = Some " "%char
                  \/ nth_error input j = Some ":"%char)
    /\ (exists a, nth_error input k = Some a
                  /\ a <> "*"%char /\ a <> "/"%char)
    /\ (forall j, k < j -> j < endIndex z ->
                  exists a, nth_error input j = Some a
                            /\ a <> JS.CR /\ a <> JS.LF)
    /\ (forall g, g <> 4 -> g <> 5 -> captures z g = captures x g).
Proof.
  unfold afterTag. intros H.
  apply Matches_Seq_inv in H. destruct H as (y & Hrep & H5).
  assert (Hcap : forall g, g <> 4 -> g <> 5 -> captures z g = captures x g).
  { intros g H4 Hg5.
    rewrite (Matches_captures_outside _ _ _ _ _ H5),
            (Matches_captures_outside _ _ _ _ _ Hrep); auto; simpl; lia. }
  assert (Hblank :
    endIndex x <= endIndex y
    /\ forall j, endIndex x <= j -> j < endIndex y ->
                 nth_error input j = Some " "%char
                 \/ nth_error input j = Some ":"%char).
  { refine (Matches_Repeat_ind input fl
              (fun a b => endIndex a <= endIndex b
                          /\ forall j, endIndex a <= j -> j < endIndex b ->
                                       nth_error input j = Some " "%char
                                       \/ nth_error input j = Some ":"%char)
              _ _ _ _ _ _ _ _ Hrep).
    - intros a. split; [lia | intros; lia].
    - intros a b c Hab (Hle & Hbc).
      apply Matches_Group_inv in Hab. destruct Hab as (b0 & Hb0 & ->).
      cbn [endIndex setCapture] in *.
      assert (Hstep : endIndex a <= endIndex b0
                      /\ forall j, endIndex a <= j -> j < endIndex b0 ->
                                   nth_error input j = Some " "%char
                                   \/ nth_error input j = Some ":"%char).
      { apply Matches_Alt_inv in Hb0. destruct Hb0 as [Hs|Hc].
        - apply Matches_Seq_inv in Hs. destruct Hs as (b1 & Hs & He).
          apply Matches_Empty_inv in He. subst b1.
          apply (Matches_star_chars input fl
                   (fun ch => Ascii.eqb ch " ")) in Hs.
          + cbn [endIndex clearCaptures] in Hs.
            destruct Hs as (H1 & H2 & _). split; [exact H1|].
            intros j Hj1 Hj2. destruct (H2 j Hj1 Hj2) as (ch & Hch & E).
            apply Ascii.eqb_eq in E. subst ch. left; exact Hch.
          + reflexivity.
          + intros u v Huv. apply Matches_Class_inv in Huv.
            destruct Huv as (-> & ch & Hch & Hacc). split; [reflexivity|].
            exists ch. split; [exact Hch|].
            apply class_single_accepts in Hacc; [|reflexivity|reflexivity].
            subst ch. reflexivity.
        - apply Matches_Seq_inv in Hc. destruct Hc as (b1 & Hc & He).
          apply Matches_Empty_inv in He. subst b1.
          apply Matches_Class_inv in Hc.
          destruct Hc as (-> & ch & Hch & Hacc).
          apply class_single_accepts in Hacc; [|reflexivity|reflexivity].
          subst ch. cbn [endIndex advance clearCaptures] in *.
          split; [lia|]. intros j Hj1 Hj2.
          assert (j = endIndex a) by lia. subst j. right; exact Hch. }
      destruct Hstep as (Hs1 & Hs2). split; [lia|].
      intros j Hj1 Hj2.
      destruct (Nat.lt_ge_cases j (endIndex b0)); [apply Hs2 | apply Hbc];
        auto. }
  destruct Hblank as (Hxy & Hblank).
  apply Matches_Seq_inv in H5. destruct H5 as (z0 & H5 & He).
  apply Matches_Empty_inv in He. subst z0.
  apply Matches_Group_inv in H5. destruct H5 as (z1 & H5 & ->).
  apply Matches_Seq_inv in H5. destruct H5 as (y1 & Hfirst & H5).
  apply Matches_Seq_inv in H5. destruct H5 as (z2 & Hline & He).
  apply Matches_Empty_inv in He. subst z2.
  apply Matches_Class_inv in Hfirst. destruct Hfirst as (-> & a & Ha & Hacc).
  apply class_pair_rejects in Hacc.
  apply (Matches_star_chars input fl
           (fun ch => negb (Ascii.eqb ch JS.CR || Ascii.eqb ch JS.LF)))
    in Hline.
  - cbn [endIndex advance setCapture] in *.
    destruct Hline as (H1 & H2 & _).
    exists (endIndex y). repeat split; auto; try lia.
    + exists a. tauto.
    + intros j Hj1 Hj2. destruct (H2 j) as (ch & Hch & E); try lia.
      exists ch. split; [exact Hch|].
      apply negb_true_iff, orb_false_iff in E. destruct E as [E1 E2].
      split; intros ->; discriminate.
  - reflexivity.
  - intros u v Huv. apply Matches_Class_inv in Huv.
    destruct Huv as (-> & ch & Hch & Hacc'). split; [reflexivity|].
    exists ch. split; [exact Hch|].
    apply class_pair_rejects in Hacc'. destruct Hacc' as [N1 N2].
    apply negb_true_iff, orb_false_iff.
    split; apply Ascii.eqb_neq; assumption.
Qed.

Lemma length_chars_local t :
  length (list_ascii_of_string t) = String.length t.
Proof. induction t as [|c t IH]; simpl; [reflexivity | now rewrite IH]. Qed.

Lemma skipn_nth_error_local {A} (l : list A) :
  forall i a, nth_error l i = Some a -> skipn i l = a :: skipn (S i) l.
Proof.
  induction l as [|x l IH]; intros [|i] a H; try discriminate.
  - inversion H; reflexivity.
  - simpl in H. apply IH in H. exact H.
Qed.

Lemma nth_error_Some_length {A} (l : list A) i a :
  nth_error l i = Some a -> i < length l.
Proof. intros H. apply nth_error_Some. congruence. Qed.


Lemma occursAt_shift fl t :
  forall l1 l2 a b,
    (forall j, j < length t -> nth_error l1 (a + j) = nth_error l2 (b + j)) ->
    occursAt fl t l1 a = occursAt fl t l2 b.
Proof.
  induction t as [|c t IH]; intros l1 l2 a b H; [reflexivity|].
  cbn [occursAt].
  pose proof (H 0 (Nat.lt_0_succ _)) as H0. rewrite !Nat.add_0_r in H0.
  rewrite H0. destruct (nth_error l2 b); [|reflexivity].
  f_equal. apply IH. intros j Hj.
  specialize (H (S j)). cbn [length] in H.
  rewrite <- !plus_n_Sm in H. apply H. lia.
Qed.

(** The alternation tries the markers in their order: the result comes
    from a marker that stands there, and the continuation refused every
    marker before it that stands there too. *)
Lemma matcher_alternation_first input fl ts :
  ts <> [] ->
  forall x k z,
    matcher input fl (alternation ts) x k = Some z ->
    exists pre t post,
      ts = (pre ++ t :: post)%list
      /\ occursAt fl (list_ascii_of_string t) input (endIndex x) = true
      /\ k (advanceBy (String.length t) x) = Some z
      /\ forall t', In t' pre ->
           occursAt fl (list_ascii_of_string t') input (endIndex x) = true ->
           k (advanceBy (String.length t') x) = None.
Proof.
  induction ts as [|t ts IH]; intros Hne x k z H; [contradiction|].
  destruct ts as [|t' ts].
  - cbn [alternation] in H. rewrite matcher_literal in H.
    destruct (occursAt fl (list_ascii_of_string t) input (endIndex x)) eqn:E;
      [|discriminate].
    exists [], t, []. repeat split; auto. intros ? [].
  - change (alternation (t :: t' :: ts))
      with (Alt (literal t) (alternation (t' :: ts))) in H.
    cbn [matcher] in H. apply orElse_Some in H.
    rewrite matcher_literal in H.
    destruct H as [H | [Hnone H]].
    + destruct (occursAt fl (list_ascii_of_string t) input (endIndex x)) eqn:E;
        [|discriminate].
      exists [], t, (t' :: ts). repeat split; auto. intros ? [].
    + apply IH in H; [|discriminate].
      destruct H as (pre & t0 & post & -> & Ho & Hk & Hpre).
      exists (t :: pre), t0, post. repeat split; auto.
      intros u [<-|Hu] Hou.
      * rewrite Hou in Hnone. exact Hnone.
      * apply Hpre; auto.
Qed.

Lemma occursAt_length fl t :
  forall input i,
    occursAt fl t input i = true -> i <= length input ->
    i + length t <= length input.
Proof.
  induction t as [|c t IH]; intros input i H Hi; cbn [occursAt length] in *.
  - lia.
  - destruct (nth_error input i) as [a|] eqn:E; [|discriminate].
    apply andb_true_iff in H. destruct H as [_ H].
    apply nth_error_Some_length in E.
    apply IH in H; lia.
Qed.

Lemma length_0_empty t : String.length t = 0 -> t = "".
Proof. destruct t; [reflexivity | discriminate]. Qed.

(** The repetition of the group of the tags, before a continuation that
    accepts every state and leaves group 3 alone: at the end group 3 holds
    the marker of the last iteration, chosen as [chosenFirst] says. *)
Lemma tags_repeat_last input fl ts (c : Continuation) :
  ts <> [] ->
  (forall y, endIndex y <= length input -> c y <> None) ->
  (forall y z, c y = Some z -> captures z 3 = captures y 3) ->
  forall fuel min x z,
    min <= 1 ->
    endIndex x <= length input ->
    min + (length input - endIndex x) < fuel ->
    RepeatMatcher (matcher input fl (Group 3 (alternation ts)))
      (groupsOf (Group 3 (alternation ts))) true fuel min None x c = Some z ->
    (min = 0 ->
     exists s e, captures x 3 = Some (s, e)
                 /\ chosenFirst fl ts input s e) ->
    exists s e, captures z 3 = Some (s, e) /\ chosenFirst fl ts input s e.
Proof.
  intros Hne Htotal Hcap fuel.
  induction fuel as [|fuel IH]; intros min x z Hmin Hx Hf H Hgood; [lia|].
  cbn [RepeatMatcher] in H.
  set (xr := clearCaptures (groupsOf (Group 3 (alternation ts))) x) in *.
  assert (Hiter : forall w,
    matcher input fl (Group 3 (alternation ts)) xr
      (fun y => if Nat.eqb min 0 && Nat.eqb (endIndex y) (endIndex x)
                then None
                else RepeatMatcher (matcher input fl (Group 3 (alternation ts)))
                       (groupsOf (Group 3 (alternation ts))) true fuel
                       (min - 1) (predMax None) y c) = Some w ->
    exists s e, captures w 3 = Some (s, e) /\ chosenFirst fl ts input s e).
  { intros w Hw. cbn [matcher] in Hw.
    apply (matcher_alternation_first _ _ _ Hne) in Hw.
    destruct Hw as (pre & t & post & Ets & Ho & Hk & Hpre).
    cbn [endIndex xr clearCaptures advanceBy setCapture] in Hk, Ho, Hpre.
    assert (Hlen : endIndex x + String.length t <= length input).
    { rewrite <- length_chars_local. apply (occursAt_length _ _ _ _ Ho Hx). }
    assert (Hrest : forall y,
      endIndex y <= length input -> 0 + (length input - endIndex y) < fuel ->
      RepeatMatcher (matcher input fl (Group 3 (alternation ts)))
        (groupsOf (Group 3 (alternation ts))) true fuel 0 None y c <> None).
    { intros y Hy Hfy. destruct fuel as [|fuel']; [lia|].
      cbn [RepeatMatcher Nat.eqb negb]. apply orElse_not_None.
      intros _. apply Htotal. exact Hy. }
    assert (Hmin1 : min - 1 = 0) by lia.
    rewrite Hmin1 in *. cbn [predMax] in *.
    destruct (Nat.eqb min 0 && Nat.eqb (endIndex x + String.length t)
                                  (endIndex x)) eqn:Ec; [discriminate|].
    assert (Hprog : min = 0 -> String.length t <> 0).
    { intros ->. cbn [Nat.eqb andb] in Ec. apply Nat.eqb_neq in Ec. lia. }
    apply IH in Hk; unfold xr;
      cbn [endIndex setCapture advanceBy clearCaptures]; try lia.
    - exact Hk.
    - intros _. cbn [captures setCapture Nat.eqb]. eexists. eexists.
      split; [reflexivity|].
      exists pre, t, post. repeat split; auto.
      intros t' Hin' Ho'. specialize (Hpre t' Hin' Ho').
      assert (Hlen' : endIndex x + String.length t' <= length input).
      { rewrite <- length_chars_local. apply (occursAt_length _ _ _ _ Ho' Hx). }
      destruct (Nat.eqb min 0 && Nat.eqb (endIndex x + String.length t')
                                    (endIndex x)) eqn:Ec'.
      + apply andb_true_iff in Ec'. destruct Ec' as [_ Ec'].
        apply Nat.eqb_eq in Ec'. apply length_0_empty. lia.
      + exfalso. revert Hpre.
        apply Hrest; unfold xr;
          cbn [endIndex setCapture advanceBy clearCaptures]; [lia|].
        apply andb_false_iff in Ec'. destruct Ec' as [Ec'|Ec'];
          apply Nat.eqb_neq in Ec'; lia. }
  destruct (Nat.eqb min 0) eqn:Emin; cbn [negb] in H.
  - apply orElse_Some in H. destruct H as [H | [_ H]].
    + apply Hiter. exact H.
    + apply Nat.eqb_eq in Emin. rewrite (Hcap _ _ H). auto.
  - apply Hiter. exact H.
Qed.

Lemma matchAt_chosenFirst input fl A0 B0 ts i z :
  ts <> [] -> i <= length input ->
  matchAt input fl (Seq A0 (Seq B0 (tagsThenRest ts))) i = Some z ->
  exists s e, captures z 3 = Some (s, e) /\ chosenFirst fl ts input s e.
Proof.
  unfold matchAt, tagsThenRest. intros Hne Hi H.
  apply matcher_Seq_sound in H. destruct H as (y1 & H1 & H).
  apply matcher_Seq_sound in H. destruct H as (y2 & H2 & H).
  apply Matches_endIndex in H1. apply Matches_endIndex in H2.
  cbn [endIndex initialState] in H1.
  assert (Hy2 : endIndex y2 <= length input) by tauto.
  change (matcher input fl
            (Seq (Repeat 1 None true (Group 3 (alternation ts)))
               (Seq restOfLine Empty)) y2 (fun y => Some y))
    with (RepeatMatcher (matcher input fl (Group 3 (alternation ts)))
            (groupsOf (Group 3 (alternation ts))) true
            (repeatFuel input 1 y2) 1 None y2
            (fun y => matcher input fl (Seq restOfLine Empty) y
                        (fun y0 => Some y0))) in H.
  apply (tags_repeat_last input fl ts _ Hne) in H;
    [exact H | | | lia | exact Hy2 | unfold repeatFuel; lia
    | intros E; discriminate E].
  - intros y Hy.
    apply (matcher_complete input fl (Seq restOfLine Empty) y
             (setCapture 4 (endIndex y, endIndex y) y)); auto;
      [|discriminate].
    unfold restOfLine.
    eapply M_Seq; [|apply M_Empty].
    apply (M_Group input fl 4 _ y y).
    eapply M_Seq; [|apply M_Empty].
    apply M_RepStop. discriminate.
  - intros y w Hw. apply matcher_sound in Hw.
    destruct Hw as (w' & Hw' & E). inversion E; subst w'.
    apply (Matches_captures_outside _ _ _ _ _ Hw'). simpl. lia.
Qed.

(** The case mappings: lower case decides as [Canonicalize] does. *)
Lemma lower_upper a : JS.lowerChar (JS.upperChar a) = JS.lowerChar a.
Proof. destruct a as [[] [] [] [] [] [] [] []]; reflexivity. Qed.

Lemma upper_lower a : JS.upperChar (JS.lowerChar a) = JS.upperChar a.
Proof. destruct a as [[] [] [] [] [] [] [] []]; reflexivity. Qed.

Lemma Canonicalize_lower fl c a :
  Canonicalize fl c = Canonicalize fl a -> JS.lowerChar c = JS.lowerChar a.
Proof.
  unfold Canonicalize. destruct (ignoreCase fl); [|now intros ->].
  intros H. rewrite <- (lower_upper c), <- (lower_upper a). now rewrite H.
Qed.

Lemma lower_Canonicalize fl c a :
  ignoreCase fl = true ->
  JS.lowerChar c = JS.lowerChar a -> Canonicalize fl c = Canonicalize fl a.
Proof.
  unfold Canonicalize. intros -> H.
  rewrite <- (upper_lower c), <- (upper_lower a). now rewrite H.
Qed.

Lemma chars_toLowerCase t :
  list_ascii_of_string (JS.toLowerCase t)
  = map JS.lowerChar (list_ascii_of_string t).
Proof. induction t as [|c t IH]; simpl; [reflexivity | now rewrite IH]. Qed.

Lemma chars_inj a b :
  list_ascii_of_string a = list_ascii_of_string b -> a = b.
Proof.
  intros H. rewrite <- (string_of_list_ascii_of_string a),
    <- (string_of_list_ascii_of_string b). now rewrite H.
Qed.

(** A marker that stands at [s] is, in lower case, the text there. *)
Lemma occursAt_lower fl t :
  forall input s,
    occursAt fl t input s = true ->
    map JS.lowerChar (firstn (length t) (skipn s input))
    = map JS.lowerChar t.
Proof.
  induction t as [|c t IH]; intros input s H; [reflexivity|].
  cbn [occursAt length] in *.
  destruct (nth_error input s) as [a|] eqn:E; [|discriminate].
  apply andb_true_iff in H. destruct H as [Hc H].
  apply Ascii.eqb_eq in Hc.
  rewrite (skipn_nth_error_local _ _ _ E). cbn [firstn map].
  rewrite IH by exact H. f_equal. symmetry.
  now apply (Canonicalize_lower fl).
Qed.

(** A marker whose lower case begins the lower case of the text at [s]
    stands at [s], under the [i] flag. *)
Lemma lower_prefix_occursAt fl t :
  ignoreCase fl = true ->
  forall input s n rest,
    map JS.lowerChar (firstn n (skipn s input))
    = (map JS.lowerChar t ++ rest)%list ->
    occursAt fl t input s = true.
Proof.
  intros Hi. induction t as [|c t IH]; intros input s n rest H;
    [reflexivity|].
  cbn [occursAt map app] in *.
  destruct n as [|n]; [rewrite firstn_0 in H; discriminate|].
  destruct (skipn s input) as [|a tl] eqn:Es; [discriminate|].
  cbn [firstn map] in H. inversion H as [[Ha Htl]].
  assert (En : nth_error input s = Some a).
  { rewrite <- (firstn_skipn s input), nth_error_app2, Es.
    - rewrite length_firstn.
      assert (s <= length input).
      { destruct (Nat.le_gt_cases s (length input)); auto.
        rewrite skipn_all2 in Es by lia. discriminate. }
      replace (s - Nat.min s (length input)) with 0 by lia. reflexivity.
    - rewrite length_firstn. lia. }
  rewrite En. apply andb_true_iff. split.
  - apply Ascii.eqb_eq. apply lower_Canonicalize; auto.
  - apply (IH input (S s) n rest).
    rewrite (skipn_nth_error_local _ _ _ En) in Es. inversion Es; subst tl.
    exact Htl.
Qed.


(** The plain-text pattern: what its matches are, and that it matches
    wherever a marker is the first thing on a line. *)
Lemma horizontalSpace_blank input fl x y :
  Matches input fl horizontalSpace x y ->
  y = advance x /\
  exists a, nth_error input (endIndex x) = Some a /\ blank a = true.
Proof.
  unfold horizontalSpace. intros H.
  apply RegExpFacts.Matches_Class_inv in H. destruct H as (-> & a & Ha & Hx).
  split; [reflexivity|]. exists a. split; [exact Ha|].
  cbn in Hx. rewrite orb_false_r in Hx. unfold blank.
  apply orb_true_iff in Hx. apply orb_true_iff.
  destruct Hx as [Hx|Hx]; [left|right]; apply Ascii.eqb_eq in Hx;
    apply Ascii.eqb_eq; eapply Canonicalize_not_letter; eauto.
Qed.


Lemma blank_not_terminator a : blank a = true -> isLineTerminator a = false.
Proof.
  unfold blank. intros H. apply orb_true_iff in H.
  destruct H as [H|H]; apply Ascii.eqb_eq in H; subst a; reflexivity.
Qed.




(** A character that a character other than a line terminator stands
    for, letter case apart, is no line terminator either. *)
Lemma Canonicalize_terminator fl c a :
  Canonicalize fl c = Canonicalize fl a ->
  isLineTerminator c = false -> isLineTerminator a = false.
Proof.
  intros H Hc. destruct (isLineTerminator a) eqn:Ea; [|reflexivity].
  assert (E : c = a).
  { apply (Canonicalize_not_letter fl c a); [now symmetry| |];
      unfold isLineTerminator in Ea; apply orb_true_iff in Ea;
      destruct Ea as [Ea|Ea]; apply Ascii.eqb_eq in Ea; subst a; reflexivity. }
  subst c. congruence.
Qed.

Lemma occursAt_nth fl t :
  forall input s k c,
    occursAt fl t input s = true -> nth_error t k = Some c ->
    exists a, nth_error input (s + k) = Some a
              /\ Canonicalize fl c = Canonicalize fl a.
Proof.
  induction t as [|c0 t IH]; intros input s k c H Hk;
    [destruct k; discriminate|].
  cbn [occursAt] in H.
  destruct (nth_error input s) as [a|] eqn:Ea; [|discriminate].
  apply andb_true_iff in H. destruct H as [Hc H].
  destruct k as [|k]; cbn [nth_error] in Hk.
  - inversion Hk; subst c0. exists a. rewrite Nat.add_0_r.
    split; [exact Ea | now apply Ascii.eqb_eq].
  - destruct (IH input (S s) k c H Hk) as (b & Hb & Hcb).
    exists b. split; [|exact Hcb]. rewrite <- Hb. f_equal. lia.
Qed.



(** The inner line pattern of the block scans: its matches are not
    empty, and the groups 2 and 3 take part in every match. *)
Lemma consumes_linePattern lead ts : consumes (linePattern lead ts) = true.
Proof.
  unfold linePattern, afterTag. cbn [consumes Nat.leb andb orb].
  rewrite !orb_true_r. reflexivity.
Qed.

Lemma Matches_linePattern_groups input fl lead ts x z :
  Matches input fl (linePattern lead ts) x z ->
  (exists se, captures z 2 = Some se) /\ (exists se, captures z 3 = Some se).
Proof.
  unfold linePattern. intros H.
  apply RegExpFacts.Matches_Seq_inv in H. destruct H as (y1 & _ & H).
  apply RegExpFacts.Matches_Seq_inv in H. destruct H as (y2 & H2 & H).
  apply RegExpFacts.Matches_Group_inv in H2. destruct H2 as (y0 & _ & ->).
  apply RegExpFacts.Matches_Seq_inv in H. destruct H as (y3 & H3 & H).
  pose proof (RegExpFacts.Matches_captures_outside _ _ _ _ _ H3 2) as K2.
  apply RegExpFacts.Matches_Group_inv in H3. destruct H3 as (y4 & _ & ->).
  apply Matches_afterTag in H. destruct H as (_ & _ & _ & _ & _ & _ & Hcap).
  rewrite !Hcap by lia. split.
  - rewrite K2.
    + cbn [captures setCapture Nat.eqb]. eauto.
    + cbn [groupsOf]. rewrite groupsOf_alternation. simpl. lia.
  - cbn [captures setCapture Nat.eqb]. eauto.
Qed.

(** The plain-text pattern when a marker may be empty: a match stays on
    its line, and the pattern matches at the start of every line when the
    alternation of the tags can match the empty string. *)
Lemma Matches_tagsThenRest_chars input fl ts x z :
  (forall t, In t ts -> terminatorFree t) ->
  Matches input fl (tagsThenRest ts) x z ->
  forall k, endIndex x <= k -> k < endIndex z ->
            exists a, nth_error input k = Some a
                      /\ isLineTerminator a = false.
Proof.
  unfold tagsThenRest. intros Hline H.
  apply RegExpFacts.Matches_Seq_inv in H. destruct H as (y & Hrep & Hrest).
  apply RegExpFacts.Matches_Seq_inv in Hrest. destruct Hrest as (y' & Hrest & E).
  apply RegExpFacts.Matches_Empty_inv in E. subst y'.
  unfold restOfLine in Hrest.
  apply RegExpFacts.Matches_Group_inv in Hrest.
  destruct Hrest as (y0 & Hdots & ->).
  apply RegExpFacts.Matches_Seq_inv in Hdots. destruct Hdots as (y' & Hdots & E).
  apply RegExpFacts.Matches_Empty_inv in E. subst y'.
  apply (Matches_star_chars input fl (fun a => negb (isLineTerminator a))
           Dot true eq_refl) in Hdots.
  2:{ intros a b Hab. apply RegExpFacts.Matches_Dot_inv in Hab.
      destruct Hab as (-> & c & Hc & Hnt). split; [reflexivity|].
      exists c. now rewrite Hnt. }
  destruct Hdots as (Hd1 & Hd2 & _).
  assert (Hall : endIndex x <= endIndex y
                 /\ forall k, endIndex x <= k -> k < endIndex y ->
                      exists c, nth_error input k = Some c
                                /\ isLineTerminator c = false).
  { refine (RegExpFacts.Matches_Repeat_ind input fl
              (fun a b => endIndex a <= endIndex b
                 /\ forall k, endIndex a <= k -> k < endIndex b ->
                      exists c, nth_error input k = Some c
                                /\ isLineTerminator c = false)
              true (Group 3 (alternation ts)) _ _ _ _ _ _ Hrep).
    - intros a. split; [lia | intros; lia].
    - intros a b c Hab (Hbc1 & Hbc2).
      apply RegExpFacts.Matches_Group_inv in Hab.
      destruct Hab as (b0 & Hb0 & ->).
      apply Matches_alternation in Hb0.
      cbn [endIndex setCapture] in *.
      destruct Hb0 as [[_ ->]|(t & Hin & Ht)].
      + cbn [endIndex clearCaptures] in *. split; [lia|exact Hbc2].
      + apply Matches_literal in Ht. destruct Ht as (Ho & ->).
        cbn [endIndex advanceBy clearCaptures] in *.
        rewrite <- length_chars_local in *.
        split; [lia|]. intros k Hk1 Hk2.
        destruct (Nat.lt_ge_cases k
                    (endIndex a + length (list_ascii_of_string t)))
          as [Hlt|Hge]; [|apply Hbc2; lia].
        destruct (nth_error (list_ascii_of_string t) (k - endIndex a))
          as [c0|] eqn:Ec; [|apply nth_error_None in Ec; lia].
        destruct (occursAt_nth fl _ _ _ _ _ Ho Ec) as (c' & Hc' & Hcan).
        replace (endIndex a + (k - endIndex a)) with k in Hc' by lia.
        exists c'. split; [exact Hc'|].
        apply (Canonicalize_terminator fl c0 c' Hcan).
        apply (Hline t Hin). eapply nth_error_In; eauto. }
  destruct Hall as (Hle & Hall).
  cbn [endIndex setCapture].
  intros k Hk1 Hk2.
  destruct (Nat.lt_ge_cases k (endIndex y)); [apply Hall; lia|].
  destruct (Hd2 k) as (c & Hc & Hnt); [lia|lia|].
  exists c. split; [exact Hc|]. now apply negb_true_iff in Hnt.
Qed.




(** The outer patterns of the block scans. *)
Lemma Matches_literalThen input fl s tail :
  forall x z,
    Matches input fl (literalThen s tail) x z ->
    occursAt fl (list_ascii_of_string s) input (endIndex x) = true
    /\ Matches input fl tail (advanceBy (String.length s) x) z.
Proof.
  unfold literalThen.
  induction s as [|k s IH]; intros x z H.
  - simpl in *. rewrite RegExpFacts.advanceBy_0. auto.
  - cbn [list_ascii_of_string map fold_right] in H.
    apply RegExpFacts.Matches_Seq_inv in H. destruct H as (y1 & H1 & H2).
    inversion H1; subst.
    apply IH in H2. destruct H2 as (Ho & H2).
    cbn [list_ascii_of_string occursAt String.length].
    match goal with
    | Ha : nth_error input (endIndex x) = Some _ |- _ => rewrite Ha
    end.
    match goal with
    | Hc : Ascii.eqb _ _ = true |- _ => rewrite Hc
    end.
    cbn [andb endIndex advance] in *.
    rewrite RegExpFacts.advanceBy_advance in H2. auto.
Qed.

Lemma Matches_lineStartOrBlank input fl x z :
  Matches input fl lineStartOrBlank x z ->
  endIndex x <= endIndex z.
Proof. intros H. apply RegExpFacts.Matches_endIndex in H. lia. Qed.

(** Where the last opener of a repetition of openers stands. *)
Lemma Matches_openers input fl OPEN (opens : nat -> nat -> Prop) x z :
  (forall a b, Matches input fl OPEN a b -> opens (endIndex a) (endIndex b)) ->
  Matches input fl (Repeat 1 None true (Group 2 OPEN)) x z ->
  exists q, endIndex x <= q /\ opens q (endIndex z).
Proof.
  intros Hopen H.
  assert (Hstep : forall a b,
             Matches input fl (Group 2 OPEN)
               (clearCaptures (groupsOf (Group 2 OPEN)) a) b ->
             endIndex a <= endIndex b /\ opens (endIndex a) (endIndex b)).
  { intros a b Hab. pose proof (RegExpFacts.Matches_endIndex _ _ _ _ _ Hab)
      as [Hle _].
    apply RegExpFacts.Matches_Group_inv in Hab.
    destruct Hab as (b0 & Hb0 & ->). apply Hopen in Hb0.
    cbn [endIndex setCapture clearCaptures] in *. auto. }
  apply RegExpFacts.Matches_Repeat_first in H. destruct H as (y & Hy & Hrest).
  apply Hstep in Hy. destruct Hy as (Hle & Hy).
  refine (RegExpFacts.Matches_Repeat_ind input fl
            (fun a b => endIndex x <= endIndex a ->
                        (exists q, endIndex x <= q /\ opens q (endIndex a)) ->
                        exists q, endIndex x <= q /\ opens q (endIndex b))
            true (Group 2 OPEN) _ _ _ _ _ _ Hrest Hle _).
  - auto.
  - intros a b c Hab Hbc Ha _. apply Hstep in Hab. destruct Hab as (H1 & H2).
    apply Hbc; [lia|]. exists (endIndex a). auto.
  - exists (endIndex x). auto.
Qed.

Lemma Matches_blockBegins input x z :
  Matches input flags_gm lineStartOrBlank x z ->
  blockBegins input (endIndex x) (endIndex z).
Proof.
  unfold lineStartOrBlank. intros H.
  apply RegExpFacts.Matches_Group_inv in H. destruct H as (z0 & H & ->).
  cbn [endIndex setCapture].
  apply RegExpFacts.Matches_Alt_inv in H. destruct H as [H|H];
    apply RegExpFacts.Matches_Seq_inv in H; destruct H as (y & Hy & He);
    apply RegExpFacts.Matches_Empty_inv in He; subst y.
  - apply RegExpFacts.Matches_BOL_inv in Hy. destruct Hy as (-> & Hb).
    left. cbn [endIndex clearCaptures] in *. auto.
  - apply horizontalSpace_blank in Hy. destruct Hy as (-> & a & Ha & Hb).
    right. cbn [endIndex advance clearCaptures] in *.
    split; [exists a; auto | lia].
Qed.

(** The openers of a repetition of openers stand back to back. *)
Lemma Matches_openerRun input fl OPEN (opens : nat -> nat -> Prop) x z :
  (forall a b, Matches input fl OPEN a b -> opens (endIndex a) (endIndex b)) ->
  Matches input fl (Repeat 1 None true (Group 2 OPEN)) x z ->
  openerRun opens (endIndex x) (endIndex z).
Proof.
  intros Hopen H.
  assert (Hstep : forall a b,
             Matches input fl (Group 2 OPEN)
               (clearCaptures (groupsOf (Group 2 OPEN)) a) b ->
             opens (endIndex a) (endIndex b)).
  { intros a b Hab.
    apply RegExpFacts.Matches_Group_inv in Hab.
    destruct Hab as (b0 & Hb0 & ->). apply Hopen in Hb0.
    cbn [endIndex setCapture clearCaptures] in *. auto. }
  apply RegExpFacts.Matches_Repeat_first in H. destruct H as (y & Hy & Hrest).
  apply Hstep in Hy.
  refine (RegExpFacts.Matches_Repeat_ind input fl
            (fun a b => forall q, openerRun opens q (endIndex a) ->
                                  openerRun opens q (endIndex b))
            true (Group 2 OPEN) _ _ _ _ _ _ Hrest (endIndex x) _).
  - auto.
  - intros a b c Hab Hbc q Hq. apply Hstep in Hab. apply Hbc.
    clear - Hq Hab. induction Hq as [q p Hqp | q p' p Hqp' _ IH].
    + apply (openerRun_more opens q p); [exact Hqp|].
      apply openerRun_one. exact Hab.
    + apply (openerRun_more opens q p'); [exact Hqp' | apply IH; exact Hab].
  - apply openerRun_one. exact Hy.
Qed.

(** A match of an outer pattern: openers, then the fewest characters up
    to the end delimiter. *)
Lemma matchAt_blockShape input fl OPEN e i z :
  matchAt input fl
    (Seq lineStartOrBlank
       (Seq (Repeat 1 None true (Group 2 OPEN))
          (Seq (Group 3 (Seq (Repeat 0 None false anyChar) Empty))
             (Seq (Group 4 (literal e)) Empty)))) i = Some z ->
  exists x1 x2 k,
    Matches input fl lineStartOrBlank (initialState i) x1
    /\ Matches input fl (Repeat 1 None true (Group 2 OPEN)) x1 x2
    /\ endIndex x2 <= k
    /\ occursAt fl (list_ascii_of_string e) input k = true
    /\ endIndex z = k + String.length e
    /\ forall j, endIndex x2 <= j -> j < k ->
                 occursAt fl (list_ascii_of_string e) input j = false.
Proof.
  unfold matchAt. intros H.
  apply matcher_Seq_sound in H. destruct H as (x1 & H1 & H).
  apply matcher_Seq_sound in H. destruct H as (x2 & H2 & H).
  exists x1, x2.
  pose (c := fun y : State =>
    matcher input fl (Seq (Group 4 (literal e)) Empty)
      (setCapture 3 (endIndex x2, endIndex y) y) (fun y0 => Some y0)).
  change (matcher input fl
            (Seq (Group 3 (Seq (Repeat 0 None false anyChar) Empty))
               (Seq (Group 4 (literal e)) Empty)) x2 (fun y => Some y))
    with (RepeatMatcher
            (CharacterSetMatcher input
               (fun a => xorb false
                           (existsb (fun at_ => classAtomMatches fl at_ a)
                              [ClassSpace; ClassNotSpace])))
            [] false (repeatFuel input 0 x2) 0 None x2 c) in H.
  assert (Hc : forall y,
             c y = if occursAt fl (list_ascii_of_string e) input (endIndex y)
                   then Some (setCapture 4
                                (endIndex y, endIndex y + String.length e)
                                (advanceBy (String.length e)
                                   (setCapture 3 (endIndex x2, endIndex y) y)))
                   else None).
  { intros y. unfold c. cbn [matcher].
    rewrite RegExpFacts.matcher_literal. cbn [endIndex setCapture advanceBy].
    reflexivity. }
  apply (RegExpFacts.lazy_first input _ c
           (occursAt fl (list_ascii_of_string e) input)) in H.
  - destruct H as (y & Hy & Hle & Hst & _).
    rewrite Hc in Hy.
    destruct (occursAt fl (list_ascii_of_string e) input (endIndex y)) eqn:Eo;
      [|discriminate].
    inversion Hy; subst z; clear Hy.
    exists (endIndex y). cbn [endIndex setCapture advanceBy].
    repeat split; auto.
  - intros y Hy. rewrite Hc in Hy.
    destruct (occursAt fl (list_ascii_of_string e) input (endIndex y));
      [discriminate|reflexivity].
Qed.

Lemma Matches_blockOpener input fl s a b :
  Matches input fl
    (literalThen s (Seq (CharClass false [ClassSpace]) Empty)) a b ->
  occursAt fl (list_ascii_of_string s) input (endIndex a) = true
  /\ (exists ch, nth_error input (endIndex a + String.length s) = Some ch
                 /\ isWhiteSpace ch = true)
  /\ endIndex b = endIndex a + String.length s + 1.
Proof.
  intros H. apply Matches_literalThen in H. destruct H as (Ho & H).
  apply RegExpFacts.Matches_Seq_inv in H. destruct H as (y & H & E).
  apply RegExpFacts.Matches_Empty_inv in E. subst y.
  apply RegExpFacts.Matches_Class_inv in H. destruct H as (-> & ch & Hch & Hx).
  cbn [endIndex advanceBy advance] in *.
  split; [exact Ho|]. split.
  - exists ch. split; [exact Hch|]. cbn in Hx. rewrite orb_false_r in Hx.
    exact Hx.
  - lia.
Qed.

(** The groups 2 and 3 of a match of the inner line pattern: the tag
    follows the lead at once. *)
Lemma Matches_linePattern_tag input fl lead ts i z :
  ts <> [] ->
  Matches input fl (linePattern lead ts) (initialState i) z ->
  exists e2 t,
    captures z 2 = Some (i, e2)
    /\ captures z 3 = Some (e2, e2 + String.length t)
    /\ In t ts
    /\ occursAt fl (list_ascii_of_string t) input e2 = true.
Proof.
  unfold linePattern. intros Hts H.
  apply RegExpFacts.Matches_Seq_inv in H. destruct H as (y1 & H1 & H).
  apply Matches_lineStartGroup in H1. destruct H1 as (_ & E1 & _).
  cbn [endIndex initialState] in E1.
  apply RegExpFacts.Matches_Seq_inv in H. destruct H as (y2 & H2 & H).
  apply RegExpFacts.Matches_Group_inv in H2. destruct H2 as (y0 & _ & ->).
  apply RegExpFacts.Matches_Seq_inv in H. destruct H as (y3 & H3 & H).
  apply RegExpFacts.Matches_Group_inv in H3. destruct H3 as (y4 & H4 & ->).
  apply Matches_alternation in H4.
  destruct H4 as [[E _]|(t & Hin & Ht)]; [contradiction|].
  apply Matches_literal in Ht. destruct Ht as (Ho & ->).
  apply Matches_afterTag in H.
  destruct H as (_ & _ & _ & _ & _ & _ & Hcap).
  cbn [endIndex setCapture advanceBy captures] in *.
  exists (endIndex y0), t. rewrite !Hcap by lia. cbn.
  rewrite E1. repeat split; auto.
Qed.


(** The single-line pattern of a delimiter that is a literal: what its
    matches are. *)
Lemma occursAt_free fl t input s :
  occursAt fl (list_ascii_of_string t) input s = true -> terminatorFree t ->
  forall k, s <= k -> k < s + String.length t ->
            exists a, nth_error input k = Some a
                      /\ isLineTerminator a = false.
Proof.
  intros Ho Hfree k Hk1 Hk2. rewrite <- length_chars_local in Hk2.
  destruct (nth_error (list_ascii_of_string t) (k - s)) as [c0|] eqn:Ec;
    [|apply nth_error_None in Ec; lia].
  destruct (occursAt_nth fl _ _ _ _ _ Ho Ec) as (c' & Hc' & Hcan).
  replace (s + (k - s)) with k in Hc' by lia.
  exists c'. split; [exact Hc'|].
  apply (Canonicalize_terminator fl c0 c' Hcan).
  apply Hfree. eapply nth_error_In; eauto.
Qed.

Lemma Matches_delimiter_step input fl d a b :
  Matches input fl (Group 1 (literal d))
    (clearCaptures (groupsOf (Group 1 (literal d))) a) b ->
  occursAt fl (list_ascii_of_string d) input (endIndex a) = true
  /\ endIndex b = endIndex a + String.length d.
Proof.
  intros H. apply RegExpFacts.Matches_Group_inv in H.
  destruct H as (b0 & Hb0 & ->). apply Matches_literal in Hb0.
  destruct Hb0 as (Ho & ->).
  cbn [endIndex setCapture advanceBy clearCaptures] in *. auto.
Qed.

Lemma Matches_delimiters input fl d x y :
  Matches input fl (Repeat 1 None true (Group 1 (literal d))) x y ->
  exists n,
    1 <= n /\ endIndex y = endIndex x + n * String.length d
    /\ forall m, m < n ->
         occursAt fl (list_ascii_of_string d) input
           (endIndex x + m * String.length d) = true.
Proof.
  intros H.
  assert (Hmore : forall min max a b,
             Matches input fl (Repeat min max true (Group 1 (literal d))) a b ->
             exists n,
               endIndex b = endIndex a + n * String.length d
               /\ forall m, m < n ->
                    occursAt fl (list_ascii_of_string d) input
                      (endIndex a + m * String.length d) = true).
  { refine (RegExpFacts.Matches_Repeat_ind input fl
              (fun a b => exists n,
                 endIndex b = endIndex a + n * String.length d
                 /\ forall m, m < n ->
                      occursAt fl (list_ascii_of_string d) input
                        (endIndex a + m * String.length d) = true)
              true (Group 1 (literal d)) _ _).
    - intros a. exists 0. split; [lia | intros; lia].
    - intros a b c Hab (n & Hn & Hocc).
      apply Matches_delimiter_step in Hab. destruct Hab as (Ho & Hb).
      exists (S n). split; [rewrite Hn, Hb; cbn [Nat.mul]; lia|].
      intros [|m] Hm.
      + cbn [Nat.mul]. rewrite Nat.add_0_r. exact Ho.
      + specialize (Hocc m). rewrite Hb in Hocc. cbn [Nat.mul].
        rewrite <- Hocc by lia. f_equal. lia. }
  apply RegExpFacts.Matches_Repeat_first in H. destruct H as (y1 & Hy1 & Hrest).
  apply Matches_delimiter_step in Hy1. destruct Hy1 as (Ho & Hb).
  apply Hmore in Hrest. destruct Hrest as (n & Hn & Hocc).
  exists (S n). split; [lia|]. split; [rewrite Hn, Hb; cbn [Nat.mul]; lia|].
  intros [|m] Hm.
  - cbn [Nat.mul]. rewrite Nat.add_0_r. exact Ho.
  - specialize (Hocc m). rewrite Hb in Hocc. cbn [Nat.mul].
    rewrite <- Hocc by lia. f_equal. lia.
Qed.

Lemma delimiters_Matches input fl d n :
  d <> "" ->
  forall x,
    (forall m, m < n ->
       occursAt fl (list_ascii_of_string d) input
         (endIndex x + m * String.length d) = true) ->
    exists y,
      Matches input fl (Repeat 0 None true (Group 1 (literal d))) x y
      /\ endIndex y = endIndex x + n * String.length d.
Proof.
  intros Hd. induction n as [|n IH]; intros x H.
  - exists x. split; [apply M_RepStop; discriminate | lia].
  - pose (x' := clearCaptures (groupsOf (Group 1 (literal d))) x).
    pose (b := setCapture 1
                 (endIndex x', endIndex (advanceBy (String.length d) x'))
                 (advanceBy (String.length d) x')).
    assert (Hb : Matches input fl (Group 1 (literal d)) x' b).
    { apply (M_Group input fl 1 _ x' (advanceBy (String.length d) x')).
      apply literal_Matches. cbn [endIndex x' clearCaptures].
      specialize (H 0). cbn [Nat.mul] in H. rewrite Nat.add_0_r in H.
      apply H. lia. }
    destruct (IH b) as (y & Hy & Ey).
    + intros m Hm. cbn [endIndex b setCapture advanceBy x' clearCaptures].
      specialize (H (S m)). cbn [Nat.mul] in H.
      rewrite <- H by lia. f_equal. lia.
    + exists y. split.
      * apply (M_RepStep input fl 0 None true _ x b y);
          [discriminate | exact Hb | | exact Hy].
        intros _. cbn [endIndex b setCapture advanceBy x' clearCaptures].
        destruct d; [contradiction Hd; reflexivity|]. cbn. lia.
      * rewrite Ey. cbn [endIndex b setCapture advanceBy x' clearCaptures Nat.mul].
        lia.
Qed.

Lemma Matches_blankGroup input fl min max x y :
  Matches input fl (Repeat min max true blankGroup) x y ->
  endIndex x <= endIndex y
  /\ forall k, endIndex x <= k -> k < endIndex y ->
               exists a, nth_error input k = Some a /\ blank a = true.
Proof.
  revert min max x y.
  refine (RegExpFacts.Matches_Repeat_ind input fl
            (fun a b => endIndex a <= endIndex b
               /\ forall k, endIndex a <= k -> k < endIndex b ->
                    exists c, nth_error input k = Some c /\ blank c = true)
            true blankGroup _ _).
  - intros a. split; [lia | intros; lia].
  - intros a b c Hab (Hle & Hbl). unfold blankGroup in Hab.
    apply RegExpFacts.Matches_Group_inv in Hab. destruct Hab as (b0 & Hb0 & ->).
    assert (Hone : b0 = advance (clearCaptures
                                   (groupsOf (Group 2
                                      (Alt (Seq (Char " ") Empty)
                                         (Seq (Char JS.TAB) Empty)))) a)
                   /\ exists ch, nth_error input (endIndex a) = Some ch
                                 /\ blank ch = true).
    { apply RegExpFacts.Matches_Alt_inv in Hb0.
      destruct Hb0 as [Hb0|Hb0];
        apply RegExpFacts.Matches_Seq_inv in Hb0;
        destruct Hb0 as (b1 & Hb1 & E);
        apply RegExpFacts.Matches_Empty_inv in E; subst b1;
        apply RegExpFacts.Matches_Char_inv in Hb1;
        destruct Hb1 as (-> & ch & Hch & Hcan);
        (split; [reflexivity|]); exists ch; (split; [exact Hch|]);
        cbn [endIndex clearCaptures] in Hch;
        assert (E : ch = " "%char \/ ch = JS.TAB)
          by (first [left; eapply Canonicalize_not_letter; eauto; reflexivity
                    |right; eapply Canonicalize_not_letter; eauto; reflexivity]);
        destruct E as [->| ->]; reflexivity. }
    destruct Hone as (-> & ch & Hch & Hblank).
    cbn [endIndex setCapture advance clearCaptures] in *.
    split; [lia|]. intros k Hk1 Hk2.
    destruct (Nat.eq_dec k (endIndex a)) as [->|Hne]; [eauto|].
    apply Hbl; lia.
Qed.

Lemma blankGroup_Matches input fl n :
  forall x,
    (forall k, k < n ->
               exists a, nth_error input (endIndex x + k) = Some a
                         /\ blank a = true) ->
    exists z,
      Matches input fl (Repeat 0 None true blankGroup) x z
      /\ endIndex z = endIndex x + n.
Proof.
  induction n as [|n IH]; intros x H.
  - exists x. split; [apply M_RepStop; discriminate | lia].
  - destruct (H 0) as (a & Ha & Hb); [lia|]. rewrite Nat.add_0_r in Ha.
    pose (x' := clearCaptures (groupsOf blankGroup) x).
    pose (b := setCapture 2 (endIndex x', endIndex (advance x')) (advance x')).
    assert (Hstep : Matches input fl blankGroup x' b).
    { unfold blankGroup.
      apply (M_Group input fl 2 _ x' (advance x')).
      unfold blank in Hb. apply orb_true_iff in Hb.
      destruct Hb as [Hb|Hb]; apply Ascii.eqb_eq in Hb; subst a.
      - apply M_AltL. eapply M_Seq; [|apply M_Empty].
        eapply M_Char; [exact Ha | apply Ascii.eqb_refl].
      - apply M_AltR. eapply M_Seq; [|apply M_Empty].
        eapply M_Char; [exact Ha | apply Ascii.eqb_refl]. }
    destruct (IH b) as (z & Hz & Ez).
    + intros k Hk. cbn [endIndex b setCapture advance x' clearCaptures].
      destruct (H (S k)) as (c & Hc1 & Hc2); [lia|].
      exists c. split; [|exact Hc2]. rewrite <- Hc1. f_equal. lia.
    + exists z. split.
      * apply (M_RepStep input fl 0 None true blankGroup x b z);
          [discriminate | exact Hstep | intros _; cbn; lia | exact Hz].
      * rewrite Ez. cbn. lia.
Qed.

Lemma tagsThenRest_Matches input fl ts t x :
  In t ts ->
  occursAt fl (list_ascii_of_string t) input (endIndex x) = true ->
  exists z, Matches input fl (tagsThenRest ts) x z.
Proof.
  intros Hin Ho.
  pose (x3 := clearCaptures (groupsOf (Group 3 (alternation ts))) x).
  pose (y3 := setCapture 3
                (endIndex x3, endIndex (advanceBy (String.length t) x3))
                (advanceBy (String.length t) x3)).
  assert (H3 : Matches input fl (Repeat 1 None true (Group 3 (alternation ts)))
                 x y3).
  { apply (M_RepStep input fl 1 None true _ x y3 y3).
    - discriminate.
    - apply (M_Group input fl 3 _ x3 (advanceBy (String.length t) x3)).
      apply (alternation_Matches input fl ts t); [exact Hin|].
      apply literal_Matches. exact Ho.
    - intros E; discriminate E.
    - apply M_RepStop. discriminate. }
  exists (setCapture 4 (endIndex y3, endIndex y3) y3).
  unfold tagsThenRest. eapply M_Seq; [exact H3|].
  eapply M_Seq; [|apply M_Empty].
  unfold restOfLine. apply (M_Group input fl 4 _ y3 y3).
  eapply M_Seq; [apply M_RepStop; discriminate | apply M_Empty].
Qed.

Lemma delimitedPattern_commentTagAt input fl d ts i :
  ts <> [] -> d <> "" ->
  (exists z, Matches input fl (delimitedPattern (literal d) ts)
               (initialState i) z)
  <-> commentTagAt fl d ts input i.
Proof.
  intros Hts Hd. unfold delimitedPattern. fold blankGroup. split.
  - intros (z & H).
    apply RegExpFacts.Matches_Seq_inv in H. destruct H as (y1 & H1 & H).
    apply RegExpFacts.Matches_Seq_inv in H. destruct H as (y2 & H2 & H).
    apply Matches_delimiters in H1. destruct H1 as (n & Hn & E1 & Hocc).
    apply Matches_blankGroup in H2. destruct H2 as (Hle & Hbl).
    apply Matches_tagsThenRest in H.
    destruct H as ([E|(t & Hin & Ho)] & _); [contradiction|].
    cbn [endIndex initialState] in *.
    exists n, (endIndex y2), t. rewrite E1 in *. repeat split; auto.
  - intros (n & j & t & Hn & Hocc & Hj & Hbl & Hin & Ho).
    destruct n as [|n]; [lia|].
    pose (x0 := initialState i).
    pose (x' := clearCaptures (groupsOf (Group 1 (literal d))) x0).
    pose (b := setCapture 1
                 (endIndex x', endIndex (advanceBy (String.length d) x'))
                 (advanceBy (String.length d) x')).
    assert (Hb : Matches input fl (Group 1 (literal d)) x' b).
    { apply (M_Group input fl 1 _ x' (advanceBy (String.length d) x')).
      apply literal_Matches. cbn [endIndex x' clearCaptures x0 initialState].
      specialize (Hocc 0). cbn [Nat.mul] in Hocc.
      rewrite Nat.add_0_r in Hocc. apply Hocc. lia. }
    destruct (delimiters_Matches input fl d n Hd b) as (y1 & Hy1 & E1).
    { intros m Hm.
      cbn [endIndex b setCapture advanceBy x' clearCaptures x0 initialState].
      specialize (Hocc (S m)). cbn [Nat.mul] in Hocc.
      rewrite <- Hocc by lia. f_equal. lia. }
    cbn [endIndex b setCapture advanceBy x' clearCaptures x0 initialState]
      in E1.
    assert (H1 : Matches input fl (Repeat 1 None true (Group 1 (literal d)))
                   x0 y1).
    { apply (M_RepStep input fl 1 None true _ x0 b y1);
        [discriminate | exact Hb | intros E; discriminate E | exact Hy1]. }
    destruct (blankGroup_Matches input fl (j - endIndex y1) y1)
      as (y2 & Hy2 & E2).
    { intros k Hk. apply Hbl; cbn [Nat.mul] in *; lia. }
    destruct (tagsThenRest_Matches input fl ts t y2 Hin) as (z & Hz).
    { replace (endIndex y2) with j by (cbn [Nat.mul] in *; lia). exact Ho. }
    exists z. eapply M_Seq; [exact H1|]. eapply M_Seq; [exact Hy2|exact Hz].
Qed.

Lemma Matches_delimitedPattern_span input fl d ts i z :
  d <> "" -> terminatorFree d -> (forall t, In t ts -> terminatorFree t) ->
  Matches input fl (delimitedPattern (literal d) ts) (initialState i) z ->
  i < endIndex z
  /\ forall k, i <= k -> k < endIndex z ->
               exists a, nth_error input k = Some a
                         /\ isLineTerminator a = false.
Proof.
  intros Hd Hfree Hline H. unfold delimitedPattern in H. fold blankGroup in H.
  apply RegExpFacts.Matches_Seq_inv in H. destruct H as (y1 & H1 & H).
  apply RegExpFacts.Matches_Seq_inv in H. destruct H as (y2 & H2 & H).
  assert (Hdel : i < endIndex y1
                 /\ forall k, i <= k -> k < endIndex y1 ->
                      exists a, nth_error input k = Some a
                                /\ isLineTerminator a = false).
  { assert (Hstep : forall a b,
               Matches input fl (Group 1 (literal d))
                 (clearCaptures (groupsOf (Group 1 (literal d))) a) b ->
               endIndex a < endIndex b
               /\ forall k, endIndex a <= k -> k < endIndex b ->
                    exists c, nth_error input k = Some c
                              /\ isLineTerminator c = false).
    { intros a b Hab. apply Matches_delimiter_step in Hab.
      destruct Hab as (Ho & Hb). split.
      - rewrite Hb. destruct d; [contradiction Hd; reflexivity|]. cbn. lia.
      - intros k Hk1 Hk2. apply (occursAt_free fl d input (endIndex a) Ho Hfree);
          lia. }
    apply RegExpFacts.Matches_Repeat_first in H1.
    destruct H1 as (y0 & Hy0 & Hrest).
    apply Hstep in Hy0. cbn [endIndex initialState] in Hy0.
    destruct Hy0 as (Hlt & Hch).
    assert (Hall : endIndex y0 <= endIndex y1
                   /\ forall k, endIndex y0 <= k -> k < endIndex y1 ->
                        exists c, nth_error input k = Some c
                                  /\ isLineTerminator c = false).
    { refine (RegExpFacts.Matches_Repeat_ind input fl
                (fun a b => endIndex a <= endIndex b
                   /\ forall k, endIndex a <= k -> k < endIndex b ->
                        exists c, nth_error input k = Some c
                                  /\ isLineTerminator c = false)
                true (Group 1 (literal d)) _ _ _ _ _ _ Hrest).
      - intros a. split; [lia | intros; lia].
      - intros a b c Hab (Hbc1 & Hbc2). apply Hstep in Hab.
        destruct Hab as (Hab1 & Hab2). split; [lia|].
        intros k Hk1 Hk2.
        destruct (Nat.lt_ge_cases k (endIndex b));
          [apply Hab2|apply Hbc2]; lia. }
    destruct Hall as (Hle & Hall). split; [lia|].
    intros k Hk1 Hk2.
    destruct (Nat.lt_ge_cases k (endIndex y0)); [apply Hch|apply Hall]; lia. }
  destruct Hdel as (Hlt & Hdel).
  apply Matches_blankGroup in H2. destruct H2 as (Hle & Hbl).
  pose proof (Matches_tagsThenRest_chars input fl ts _ _ Hline H) as Hrest.
  apply RegExpFacts.Matches_endIndex in H. destruct H as (Hle2 & _).
  split; [lia|].
  intros k Hk1 Hk2.
  destruct (Nat.lt_ge_cases k (endIndex y1)); [apply Hdel; lia|].
  destruct (Nat.lt_ge_cases k (endIndex y2)).
  - destruct (Hbl k) as (a & Ha & Hb); [lia|lia|].
    exists a. split; [exact Ha | now apply blank_not_terminator].
  - apply Hrest; lia.
Qed.







End MatchFacts.

(** ** [exec] and the loop around it *)

Module ExecFacts.

Lemma length_chars s : length (list_ascii_of_string s) = String.length s.
Proof. induction s as [|c s IH]; simpl; [reflexivity | now rewrite IH]. Qed.

Lemma chars_substring s :
  forall i n, list_ascii_of_string (substring i n s) =
              firstn n (skipn i (list_ascii_of_string s)).
Proof.
  induction s as [|c s IH]; intros i n.
  - destruct i, n; reflexivity.
  - destruct i as [|i].
    + destruct n as [|n]; [reflexivity|]. simpl. now rewrite IH.
    + simpl. apply IH.
Qed.

Lemma length_slice s i e :
  i <= e -> e <= String.length s -> String.length (slice s (i, e)) = e - i.
Proof.
  intros H1 H2. unfold slice. simpl.
  rewrite <- length_chars, chars_substring, length_firstn, length_skipn,
    length_chars.
  lia.
Qed.

Lemma nth_error_slice s i e j :
  i <= e -> e <= String.length s -> j < e - i ->
  nth_error (list_ascii_of_string (slice s (i, e))) j =
  nth_error (list_ascii_of_string s) (i + j).
Proof.
  intros H1 H2 H3. unfold slice. simpl.
  rewrite chars_substring, nth_error_firstn.
  destruct (Nat.ltb_spec j (e - i)); [|lia].
  apply nth_error_skipn.
Qed.

Section Exec.

Variable text : string.
Let input := list_ascii_of_string text.

Lemma search_Some fl r fuel :
  forall i i' y,
    search input fl r fuel i = Some (i', y) ->
    i <= i' /\ i' <= length input /\ matchAt input fl r i' = Some y /\
    forall j, i <= j -> j < i' -> matchAt input fl r j = None.
Proof.
  induction fuel as [|fuel IH]; intros i i' y H; simpl in H;
    [discriminate|].
  destruct (Nat.ltb_spec (length input) i) as [Hlt|Hle]; [discriminate|].
  destruct (matchAt input fl r i) as [y0|] eqn:E.
  - inversion H; subst. repeat split; auto; intros; lia.
  - apply IH in H. destruct H as (H1 & H2 & H3 & H4).
    repeat split; auto; try lia.
    intros j Hj1 Hj2. destruct (Nat.eq_dec j i) as [->|Hne]; auto.
    apply H4; lia.
Qed.

Lemma search_None fl r fuel :
  forall i, search input fl r fuel i = None ->
            length input - i < fuel ->
            forall j, i <= j -> j <= length input ->
                      matchAt input fl r j = None.
Proof.
  induction fuel as [|fuel IH]; intros i H Hf j Hj1 Hj2; [lia|].
  simpl in H.
  destruct (Nat.ltb_spec (length input) i) as [Hlt|Hle]; [lia|].
  destruct (matchAt input fl r i) as [y0|] eqn:E; [discriminate|].
  destruct (Nat.eq_dec j i) as [->|Hne]; auto.
  apply (IH (S i)); auto; lia.
Qed.

(** What [exec] returns on a match, for a pattern with the [g] flag. *)
Lemma exec_Some R m R' :
  global (flags R) = true ->
  exec R text = (Some m, R') ->
  exists y,
    lastIndex R <= RegExp.index m /\
    RegExp.index m <= String.length text /\
    matchAt input (flags R) (source R) (RegExp.index m) = Some y /\
    elements m =
      Some (slice text (RegExp.index m, endIndex y))
      :: map (fun k => option_map (slice text) (captures y k))
           (seq 1 (nGroups R)) /\
    R' = set_lastIndex (endIndex y) R /\
    forall j, lastIndex R <= j -> j < RegExp.index m ->
              matchAt input (flags R) (source R) j = None.
Proof.
  intros Hg H. unfold exec in H. rewrite Hg in H. fold input in H.
  destruct (search input (flags R) (source R)
              (S (length input - lastIndex R)) (lastIndex R))
    as [[i' y]|] eqn:E; [|discriminate].
  inversion H; subst; clear H. simpl.
  apply search_Some in E. destruct E as (H1 & H2 & H3 & H4).
  exists y. unfold input in H2. rewrite length_chars in H2.
  repeat split; auto.
Qed.

Lemma exec_None R R' :
  global (flags R) = true ->
  exec R text = (None, R') ->
  R' = set_lastIndex 0 R /\
  forall j, lastIndex R <= j -> j <= String.length text ->
            matchAt input (flags R) (source R) j = None.
Proof.
  intros Hg H. unfold exec in H. rewrite Hg in H. fold input in H.
  destruct (search input (flags R) (source R)
              (S (length input - lastIndex R)) (lastIndex R))
    as [[i' y]|] eqn:E; [discriminate|].
  inversion H; subst; clear H. split; [reflexivity|].
  intros j Hj1 Hj2. eapply search_None; eauto; try lia.
  unfold input. rewrite length_chars. exact Hj2.
Qed.

(** A result of the pattern tried at [i] is a state the pattern reaches
    from [i]. *)
Lemma matchAt_Matches fl r i y :
  matchAt input fl r i = Some y ->
  Matches input fl r (initialState i) y.
Proof.
  unfold matchAt. intros H.
  apply RegExpFacts.matcher_sound in H. destruct H as (y' & Hy & E).
  now inversion E; subst.
Qed.

Lemma Matches_matchAt fl r i y :
  Matches input fl r (initialState i) y -> i <= length input ->
  matchAt input fl r i <> None.
Proof.
  intros H Hi. unfold matchAt.
  eapply RegExpFacts.matcher_complete; eauto. discriminate.
Qed.

Lemma matchAt_bounds fl r i y :
  matchAt input fl r i = Some y -> i <= String.length text ->
  i <= endIndex y /\ endIndex y <= String.length text /\
  capsWithin i y.
Proof.
  intros H Hi. apply matchAt_Matches in H.
  pose proof (RegExpFacts.Matches_endIndex _ _ _ _ _ H) as [H1 H2].
  simpl in H1, H2. unfold input in H2. rewrite length_chars in H2.
  split; [exact H1 | split; [auto|]].
  apply (RegExpFacts.Matches_capsWithin input fl i _ _ _ H);
    [simpl; lia | intros g s e Hk; discriminate Hk].
Qed.

End Exec.

Lemma sameProgram_refl R : sameProgram R R.
Proof. repeat split. Qed.

Lemma sameProgram_set_lastIndex v R R0 :
  sameProgram R R0 -> sameProgram (set_lastIndex v R) R0.
Proof. intros H; exact H. Qed.

Lemma exec_isMatch R R0 text m R' :
  sameProgram R R0 -> global (flags R0) = true ->
  exec R text = (Some m, R') ->
  isMatch R0 text m /\ sameProgram R' R0 /\
  (exists y, matchAt (list_ascii_of_string text) (flags R0) (source R0)
               (RegExp.index m) = Some y /\
             lastIndex R' = endIndex y) /\
  lastIndex R <= RegExp.index m.
Proof.
  intros (Hs & Hf & Hn) Hg H.
  apply exec_Some in H; [|congruence].
  destruct H as (y & H1 & H2 & H3 & H4 & H5 & H6).
  rewrite Hs, Hf in H3. rewrite Hn in H4.
  repeat split; try (subst R'; simpl; auto; fail); auto.
  - exists y; auto.
  - exists y; subst R'; auto.
Qed.

(** An invariant of the loop body, for the matches of the pattern, is an
    invariant of the loop; the loop leaves [lastIndex] at 0. *)
Lemma whileExec_invariant {A} text (body : ExecArray -> A -> Outcome A)
    (Inv : A -> Prop) R0 :
  global (flags R0) = true ->
  (forall m a a', isMatch R0 text m -> Inv a -> body m a = Done a' ->
                  Inv a') ->
  forall fuel R a r,
    sameProgram R R0 -> Inv a ->
    whileExec fuel text body R a = Done r ->
    Inv (fst r) /\ sameProgram (snd r) R0 /\ lastIndex (snd r) = 0.
Proof.
  intros Hg Hbody fuel; induction fuel as [|fuel IH];
    intros R a r HR Ha H; simpl in H; [discriminate|].
  destruct (exec R text) as [[m|] R'] eqn:E.
  - destruct (exec_isMatch _ _ _ _ _ HR Hg E) as (Hm & HR' & _).
    destruct (body m a) as [a'| |] eqn:Eb; simpl in H; try discriminate.
    destruct (Nat.eqb (lastIndex R') (lastIndex R)); [discriminate|].
    apply IH in H; auto. eapply Hbody; eauto.
  - inversion H; subst; simpl.
    apply exec_None in E; [|destruct HR as (_ & -> & _); exact Hg].
    destruct E as [-> _]. auto.
Qed.

Lemma element_0 m w rest :
  elements m = w :: rest -> element m 0 = w.
Proof. unfold element. intros ->. reflexivity. Qed.

Lemma element_group m w (f : nat -> option string) n k v :
  elements m = w :: map f (seq 1 n) ->
  element m (S k) = Some v -> f (S k) = Some v.
Proof.
  unfold element. intros ->. simpl.
  destruct (Nat.ltb_spec k n) as [Hlt|Hge].
  - rewrite (nth_indep _ None (f 0)) by (rewrite length_map, length_seq; lia).
    rewrite map_nth, seq_nth by lia. auto.
  - rewrite nth_overflow by (rewrite length_map, length_seq; lia).
    discriminate.
Qed.

Lemma skipn_nth_error {A} (l : list A) :
  forall i a, nth_error l i = Some a -> skipn i l = a :: skipn (S i) l.
Proof.
  induction l as [|x l IH]; intros [|i] a H; try discriminate.
  - inversion H; reflexivity.
  - simpl in H. apply IH in H. exact H.
Qed.

(** Without the [i] flag a literal stands in the text when its characters
    do. *)
Lemma occursAt_exact t :
  forall input i,
    occursAt flags_g t input i = true <->
    firstn (length t) (skipn i input) = t.
Proof.
  induction t as [|c t IH]; intros input i.
  - simpl. tauto.
  - cbn [occursAt length]. unfold Canonicalize; cbn [ignoreCase flags_g].
    destruct (nth_error input i) as [a|] eqn:E.
    + rewrite (skipn_nth_error _ _ _ E). cbn [firstn].
      rewrite andb_true_iff, Ascii.eqb_eq, IH. split.
      * intros [-> ->]. reflexivity.
      * intros H; inversion H; subst. rewrite H2. auto.
    + apply nth_error_None in E. rewrite skipn_all2 by exact E.
      simpl. split; discriminate.
Qed.


(** The loop with its position: when no match is empty the loop returns;
    an invariant of the last index and the loop state, kept by the body at
    the first match from the last index on, holds when the loop ends, at an
    index from which the pattern matches nowhere. *)
Lemma whileExec_covers {A} text (body : ExecArray -> A -> Outcome A)
    (Inv : nat -> A -> Prop) R0 :
  global (flags R0) = true ->
  (forall i y, matchAt (list_ascii_of_string text) (flags R0) (source R0) i
               = Some y -> i < endIndex y) ->
  (forall L m a y,
      Inv L a -> L <= RegExp.index m ->
      (forall j, L <= j -> j < RegExp.index m ->
                 matchAt (list_ascii_of_string text) (flags R0) (source R0) j
                 = None) ->
      isMatch R0 text m ->
      matchAt (list_ascii_of_string text) (flags R0) (source R0)
        (RegExp.index m) = Some y ->
      exists a', body m a = Done a' /\ Inv (endIndex y) a') ->
  forall fuel R a,
    sameProgram R R0 -> Inv (lastIndex R) a ->
    String.length text - lastIndex R < fuel ->
    exists r L,
      whileExec fuel text body R a = Done r
      /\ Inv L (fst r)
      /\ forall j, L <= j -> j <= String.length text ->
           matchAt (list_ascii_of_string text) (flags R0) (source R0) j
           = None.
Proof.
  intros Hg Hne Hbody fuel; induction fuel as [|fuel IH];
    intros R a HR Ha Hf; [lia|].
  cbn [whileExec].
  assert (HgR : global (flags R) = true)
    by (destruct HR as (_ & -> & _); exact Hg).
  destruct (exec R text) as [[m|] R'] eqn:E.
  - destruct (exec_isMatch _ _ _ _ _ HR Hg E)
      as (Hm & HR' & (y & Hy & HlR') & Hle).
    apply exec_Some in E; [|exact HgR].
    destruct E as (_ & _ & _ & _ & _ & _ & Hgap).
    destruct HR as (Hs & Hfl & Hn). rewrite Hs, Hfl in Hgap.
    destruct (Hbody (lastIndex R) m a y Ha Hle Hgap Hm Hy)
      as (a' & -> & Ha').
    cbn [bind].
    pose proof (Hne _ _ Hy) as Hlt.
    destruct Hm as (y' & Hi & Hy' & _).
    destruct (matchAt_bounds _ _ _ _ _ Hy Hi) as (_ & Hylen & _).
    destruct (Nat.eqb_spec (lastIndex R') (lastIndex R)) as [Eq|_]; [lia|].
    apply IH; auto; [rewrite HlR'; exact Ha' | lia].
  - apply exec_None in E; [|exact HgR]. destruct E as [-> Hnone].
    destruct HR as (Hs & Hfl & Hn). rewrite Hs, Hfl in Hnone.
    exists (a, set_lastIndex 0 R), (lastIndex R). cbn [fst]. auto.
Qed.


(** The loop returns when no match is empty and the body returns at
    every match. *)
Lemma whileExec_total {A} text (body : ExecArray -> A -> Outcome A)
    (Inv : A -> Prop) R0 :
  global (flags R0) = true ->
  (forall i y, matchAt (list_ascii_of_string text) (flags R0) (source R0) i
               = Some y -> i < endIndex y) ->
  (forall m a, isMatch R0 text m -> Inv a ->
               exists a', body m a = Done a' /\ Inv a') ->
  forall R a,
    sameProgram R R0 -> Inv a ->
    exists r,
      whileExec (loopFuel text) text body R a = Done r
      /\ Inv (fst r) /\ sameProgram (snd r) R0 /\ lastIndex (snd r) = 0.
Proof.
  intros Hg Hne Hbody R a HR Ha.
  assert (Hstep : forall L m a0 y,
             Inv a0 -> L <= RegExp.index m ->
             (forall j, L <= j -> j < RegExp.index m ->
                matchAt (list_ascii_of_string text) (flags R0) (source R0) j
                = None) ->
             isMatch R0 text m ->
             matchAt (list_ascii_of_string text) (flags R0) (source R0)
               (RegExp.index m) = Some y ->
             exists a', body m a0 = Done a' /\ Inv a').
  { intros L m a0 y HI _ _ Hm _. apply Hbody; auto. }
  assert (Hfuel : String.length text - lastIndex R < loopFuel text)
    by (unfold loopFuel; lia).
  destruct (whileExec_covers text body (fun _ => Inv) R0 Hg Hne Hstep
              (loopFuel text) R a HR Ha Hfuel)
    as (r & L & Hrun & HI & _).
  exists r. split; [exact Hrun|]. split; [exact HI|].
  assert (Hkeep : forall m (a0 a' : A),
             isMatch R0 text m -> True -> body m a0 = Done a' -> True)
    by auto.
  destruct (whileExec_invariant text body (fun _ => True) R0 Hg Hkeep
              (loopFuel text) R a r HR I Hrun) as (_ & H1 & H2).
  auto.
Qed.

Lemma coordinates_monotone s :
  forall offset l c l' c',
    coordinates s offset l c = (l', c') -> l < l' \/ (l = l' /\ c <= c').
Proof.
  induction s as [|a s IH]; intros [|offset] l c l' c' H; simpl in H;
    try (inversion H; subst; right; split; auto; fail).
  destruct (Ascii.eqb a JS.LF).
  - apply IH in H. lia.
  - destruct (Ascii.eqb a JS.CR).
    + destruct s as [|a' s'].
      * apply IH in H. lia.
      * destruct (Ascii.eqb a' JS.LF); apply IH in H; lia.
    + apply IH in H. lia.
Qed.

(** Line 0, character 0 is the offset 0, for an offset at a character
    other than a line feed. *)
Lemma coordinates_origin s offset a :
  coordinates s offset 0 0 = (0, 0) ->
  nth_error s offset = Some a -> a <> JS.LF ->
  offset = 0.
Proof.
  destruct offset as [|offset]; [reflexivity|].
  destruct s as [|k s]; [discriminate|].
  intros H Ha Hne. exfalso. simpl in H, Ha.
  destruct (Ascii.eqb k JS.LF).
  - apply coordinates_monotone in H. lia.
  - destruct (Ascii.eqb k JS.CR).
    + destruct s as [|k' s']; [destruct offset; discriminate|].
      destruct (Ascii.eqb_spec k' JS.LF) as [->|Hk'].
      * destruct offset as [|offset].
        -- simpl in Ha. inversion Ha. congruence.
        -- simpl in H. apply coordinates_monotone in H. lia.
      * apply coordinates_monotone in H. lia.
    + apply coordinates_monotone in H. lia.
Qed.



End ExecFacts.

(** ** The scans: what holds of every range they add *)

Module ScanFacts.
Import ExecFacts.

Lemma pushToFirst_ranges p r ts t :
  In t (pushToFirst p r ts) ->
  forall r', In r' (ranges t) ->
             r' = r \/ exists t0, In t0 ts /\ In r' (ranges t0).
Proof.
  induction ts as [|t0 ts IH]; simpl; [contradiction|].
  destruct (p t0).
  - intros [<-|Ht] r' Hr'.
    + simpl in Hr'. apply in_app_or in Hr'.
      destruct Hr' as [Hr'|[<-|[]]]; [right; exists t0|left]; auto.
    + right; exists t; auto.
  - intros [<-|Ht] r' Hr'.
    + right; exists t0; auto.
    + destruct (IH Ht r' Hr') as [->|(t1 & H1 & H2)]; [left; auto|].
      right; exists t1; auto.
Qed.

Lemma addToMatchingTag_allRanges P m r this this' :
  allRanges P this -> P r ->
  addToMatchingTag m r this = Done this' ->
  allRanges P this'.
Proof.
  unfold addToMatchingTag. intros Hall Hr H.
  destruct (p_tags this) as [|t0 ts] eqn:Et.
  - inversion H; subst. exact Hall.
  - destruct m as [s|]; simpl in H; [|discriminate].
    inversion H; subst; clear H.
    intros t Ht r' Hr'. unfold set_tags in Ht. cbn [p_tags] in Ht.
    destruct (pushToFirst_ranges
                (fun item =>
                   String.eqb (JS.toLowerCase (tag item)) (JS.toLowerCase s))
                r (t0 :: ts) t Ht r' Hr') as [->|(t1 & H1 & H2)];
      [exact Hr|].
    apply (Hall t1); [rewrite Et; exact H1 | exact H2].
Qed.

Lemma newRegExp_Done pattern fl R :
  newRegExp pattern fl = Done R -> RegExp.new pattern fl = Some R.
Proof.
  unfold newRegExp. destruct (RegExp.new pattern fl); intros H;
    inversion H; reflexivity.
Qed.

Lemma new_lastIndex pattern fl R :
  RegExp.new pattern fl = Some R ->
  lastIndex R = 0 /\ flags R = parseFlags fl.
Proof.
  unfold RegExp.new.
  destruct (parse pattern None (emptyFrame None) [] 1) as [[r n]|];
    intros H; inversion H; subst; auto.
Qed.

Lemma bind_Done {A B} (o : Outcome A) (k : A -> Outcome B) b :
  bind o k = Done b -> exists a, o = Done a /\ k a = Done b.
Proof. destruct o; simpl; intros H; try discriminate. eauto. Qed.

Lemma defined_Done {A} (o : option A) a : defined o = Done a -> o = Some a.
Proof. destruct o; simpl; intros H; inversion H; reflexivity. Qed.

Lemma pushToFirst_tags p r l :
  map tag (pushToFirst p r l) = map tag l.
Proof.
  induction l as [|t l IH]; [reflexivity|].
  cbn [pushToFirst]. destruct (p t); cbn [map]; [reflexivity|].
  now rewrite IH.
Qed.

Lemma addToMatchingTag_fields m r this this' :
  addToMatchingTag m r this = Done this' ->
  expression this' = expression this /\
  isPlainText this' = isPlainText this /\
  ignoreFirstLine this' = ignoreFirstLine this /\
  map tag (p_tags this') = map tag (p_tags this).
Proof.
  unfold addToMatchingTag.
  destruct (p_tags this) as [|t0 ts] eqn:Et.
  - intros H; inversion H; subst. rewrite Et. auto.
  - intros H. apply bind_Done in H. destruct H as (s & _ & H).
    inversion H; subst; clear H. unfold set_tags.
    cbn [expression isPlainText ignoreFirstLine p_tags].
    repeat split.
    exact (pushToFirst_tags
             (fun item =>
                String.eqb (JS.toLowerCase (tag item)) (JS.toLowerCase s))
             r (t0 :: ts)).
Qed.

(** The single-line scan: a property of the range of every match that is
    not skipped holds of every range of the result. *)
Lemma FindSingleLineComments_allRanges P text this this' :
  allRanges P this ->
  (forall R m m0,
      RegExp.new (expression this) (singleLineFlags this) = Some R ->
      isMatch R text m -> element m 0 = Some m0 ->
      (ignoreFirstLine this
       && Nat.eqb (Position_line text (RegExp.index m)) 0
       && Nat.eqb (Position_character text (RegExp.index m)) 0) = false ->
      P {| range := {| start := RegExp.index m;
                       end_ := RegExp.index m + String.length m0 |} |}) ->
  FindSingleLineComments text this = Done this' ->
  allRanges P this'.
Proof.
  intros Hall HP H. unfold FindSingleLineComments in H.
  destruct (highlightSingleLineComments this); cbn [negb] in H;
    [|inversion H; subst; exact Hall].
  fold (singleLineFlags this) in H.
  apply bind_Done in H. destruct H as (R & ER & H).
  apply bind_Done in H. destruct H as ([p1 R1] & EW & H).
  apply newRegExp_Done in ER.
  inversion H; subst; clear H. cbn [fst] in *.
  assert (Hg : global (flags R) = true).
  { destruct (new_lastIndex _ _ _ ER) as [_ ->].
    unfold singleLineFlags. destruct (isPlainText this); reflexivity. }
  pose (Inv := fun q : Parser =>
    allRanges P q /\ ignoreFirstLine q = ignoreFirstLine this).
  assert (HI : Inv (fst (this', R1))).
  { refine (proj1 (whileExec_invariant text (singleLineBody text) Inv R Hg
                     _ (loopFuel text) R this (this', R1)
                     (sameProgram_refl R) _ EW)).
    - intros m a a' Hm (Ha & Hig) Hb.
      unfold singleLineBody in Hb.
      apply bind_Done in Hb. destruct Hb as (m0 & E0 & Hb).
      apply defined_Done in E0.
      unfold positionAt in Hb.
      destruct (ignoreFirstLine a
                && Nat.eqb (Position_line text (RegExp.index m)) 0
                && Nat.eqb (Position_character text (RegExp.index m)) 0)
        eqn:Eskip.
      + inversion Hb; subst. split; auto.
      + split.
        * eapply addToMatchingTag_allRanges; [exact Ha | | exact Hb].
          apply (HP R m m0); auto. rewrite <- Hig. exact Eskip.
        * apply addToMatchingTag_fields in Hb. destruct Hb as (_ & _ & -> & _).
          exact Hig.
    - split; auto. }
  exact (proj1 HI).
Qed.





(** Which tag [pushToFirst] gives the range to: the first that
    satisfies [p]. *)
Lemma pushToFirst_nth p r l :
  forall k t, nth_error (pushToFirst p r l) k = Some t ->
  forall r', In r' (ranges t) ->
    (exists t0, nth_error l k = Some t0 /\ In r' (ranges t0))
    \/ (r' = r /\ exists t0,
          nth_error l k = Some t0 /\ p t0 = true
          /\ forall j tj, j < k -> nth_error l j = Some tj -> p tj = false).
Proof.
  induction l as [|t0 l IH]; intros k t Hk r' Hr'.
  - destruct k; discriminate.
  - cbn [pushToFirst] in Hk. destruct (p t0) eqn:Ep.
    + destruct k as [|k]; cbn [nth_error] in Hk.
      * inversion Hk; subst t. cbn [ranges pushRange] in Hr'.
        apply in_app_or in Hr'. destruct Hr' as [Hr'|[<-|[]]].
        -- left. exists t0. split; auto.
        -- right. split; auto. exists t0. repeat split; auto.
           intros j tj Hj; lia.
      * left. exists t. split; auto.
    + destruct k as [|k]; cbn [nth_error] in Hk.
      * inversion Hk; subst t. left; exists t0; auto.
      * destruct (IH k t Hk r' Hr')
          as [(t1 & H1 & H2)|(-> & t1 & H1 & H2 & H3)].
        -- left; exists t1; auto.
        -- right; split; auto. exists t1.
           split; [exact H1|]. split; [exact H2|].
           intros [|j] tj Hj Hn; cbn [nth_error] in Hn.
           ++ inversion Hn; subst; exact Ep.
           ++ apply (H3 j); auto; lia.
Qed.

Lemma addToMatchingTag_rangesAt P m r this this' :
  rangesAt P this ->
  (forall s k t0,
      m = Some s -> nth_error (p_tags this) k = Some t0 ->
      JS.toLowerCase (tag t0) = JS.toLowerCase s ->
      (forall j tj, j < k -> nth_error (p_tags this) j = Some tj ->
                    JS.toLowerCase (tag tj) <> JS.toLowerCase s) ->
      P k r) ->
  addToMatchingTag m r this = Done this' ->
  rangesAt P this'.
Proof.
  unfold addToMatchingTag. intros Hall Hr H.
  destruct (p_tags this) as [|t0 ts] eqn:Et.
  - inversion H; subst. exact Hall.
  - destruct m as [s|]; simpl in H; [|discriminate].
    inversion H; subst; clear H.
    intros k t Ht r' Hr'. unfold set_tags in Ht. cbn [p_tags] in Ht.
    destruct (pushToFirst_nth
                (fun item =>
                   String.eqb (JS.toLowerCase (tag item)) (JS.toLowerCase s))
                r (t0 :: ts) k t Ht r' Hr')
      as [(t1 & H1 & H2)|(-> & t1 & H1 & H2 & H3)].
    + apply (Hall k t1); [rewrite Et; exact H1 | exact H2].
    + apply (Hr s k t1); auto.
      * now apply String.eqb_eq.
      * intros j tj Hj Hn. apply String.eqb_neq. apply (H3 j tj Hj Hn).
Qed.


(** The ranges [pushToFirst] finds stay, and the first tag that
    satisfies [p] gets the new one. *)
Lemma pushToFirst_keeps p r l t r0 :
  In t l -> In r0 (ranges t) ->
  exists t', In t' (pushToFirst p r l) /\ In r0 (ranges t').
Proof.
  induction l as [|t0 l IH]; [contradiction|].
  cbn [pushToFirst]. intros [<-|Ht] Hr; destruct (p t0).
  - exists (pushRange r t0). split; [left; reflexivity|].
    cbn [ranges pushRange]. apply in_or_app. now left.
  - exists t0. split; [left; reflexivity | exact Hr].
  - exists t. split; [right; exact Ht | exact Hr].
  - destruct (IH Ht Hr) as (t' & H1 & H2). exists t'.
    split; [right; exact H1 | exact H2].
Qed.

Lemma pushToFirst_adds p r l :
  (exists t, In t l /\ p t = true) ->
  exists t', In t' (pushToFirst p r l) /\ In r (ranges t').
Proof.
  induction l as [|t0 l IH]; intros (t & Ht & Hp); [contradiction|].
  cbn [pushToFirst]. destruct (p t0) eqn:E0.
  - exists (pushRange r t0). split; [left; reflexivity|].
    cbn [ranges pushRange]. apply in_or_app. right. left. reflexivity.
  - destruct Ht as [<-|Ht]; [congruence|].
    destruct IH as (t' & H1 & H2); [exists t; auto|].
    exists t'. split; [right; exact H1 | exact H2].
Qed.

(** The third group of a match of a single-line pattern is, letter case
    apart, one of the markers. *)
Lemma third_group_is_a_marker text fl A0 B0 ts i y :
  ts <> [] -> i <= String.length text ->
  matchAt (list_ascii_of_string text) fl
    (Seq A0 (Seq B0 (tagsThenRest ts))) i = Some y ->
  exists s e t,
    captures y 3 = Some (s, e) /\ In t ts
    /\ JS.toLowerCase t = JS.toLowerCase (slice text (s, e)).
Proof.
  intros Hne Hi Hy. rewrite <- length_chars in Hi.
  destruct (MatchFacts.matchAt_chosenFirst _ _ _ _ _ _ _ Hne Hi Hy)
    as (s & e & Hc & pre & t & post & Ets & Hocc & He & _).
  exists s, e, t. split; [exact Hc|]. split.
  - rewrite Ets. apply in_or_app. right. left. reflexivity.
  - apply MatchFacts.chars_inj. rewrite !MatchFacts.chars_toLowerCase.
    unfold slice. cbn [fst snd]. rewrite chars_substring.
    replace (e - s) with (length (list_ascii_of_string t))
      by (rewrite length_chars; lia).
    symmetry. apply (MatchFacts.occursAt_lower fl). exact Hocc.
Qed.

(** The line expressions of the two block scans, as the scans build
    them. *)
Lemma FindBlockComments_lineExpression text this :
  highlightMultilineComments this = true ->
  FindBlockComments text this =
  (regEx <- newRegExp
              (((("(^|[ \t])(" ++ blockCommentStart this) ++ "[\s])+([\s\S]*?)(")
                ++ blockCommentEnd this) ++ ")") "gm" ;;
   commentRegEx <- newRegExp (blockLineExpression this) "igm" ;;
   r <- whileExec (loopFuel text) text (blockBody text) regEx
          (this, commentRegEx) ;;
   Done (fst (fst r))).
Proof. unfold FindBlockComments. intros ->. reflexivity. Qed.

Lemma FindJSDocComments_lineExpression text this :
  highlightMultilineComments this = true ->
  FindJSDocComments text this =
  (regEx <- newRegExp "(^|[ \t])(\/\*\*)+([\s\S]*?)(\*\/)" "gm" ;;
   commentRegEx <- newRegExp (docLineExpression this) "igm" ;;
   r <- whileExec (loopFuel text) text (blockBody text) regEx
          (this, commentRegEx) ;;
   Done (fst (fst r))).
Proof. unfold FindJSDocComments. intros ->. reflexivity. Qed.

(** The two block scans share their loops: the same for them. *)
Lemma blockLoop_allRanges P text regEx commentRegEx this r :
  global (flags regEx) = true -> global (flags commentRegEx) = true ->
  allRanges P this ->
  (forall m block line l2 l0,
      isMatch regEx text m -> element m 0 = Some block ->
      isMatch commentRegEx block line ->
      element line 2 = Some l2 -> element line 0 = Some l0 ->
      P {| range :=
             {| start := RegExp.index m + RegExp.index line
                         + String.length l2;
                end_ := RegExp.index m + RegExp.index line
                        + String.length l0 |} |}) ->
  whileExec (loopFuel text) text (blockBody text) regEx
    (this, commentRegEx) = Done r ->
  allRanges P (fst (fst r)).
Proof.
  intros Hg1 Hg2 Hall HP H.
  pose (Inv := fun st : Parser * RegExp =>
    allRanges P (fst st) /\ sameProgram (snd st) commentRegEx).
  assert (HI : Inv (fst r)).
  { refine (proj1 (whileExec_invariant text (blockBody text) Inv regEx Hg1
                     _ (loopFuel text) regEx (this, commentRegEx) r
                     (sameProgram_refl regEx) _ H)).
    - intros m [a cre] [a' cre'] Hm (Ha & Hcre) Hb. cbn [fst snd] in *.
      unfold blockBody in Hb.
      apply bind_Done in Hb. destruct Hb as (block & Eb & Hb).
      apply defined_Done in Eb.
      pose (Inv2 := fun q : Parser => allRanges P q).
      destruct (whileExec_invariant block
                  (blockLineBody text (RegExp.index m)) Inv2 commentRegEx
                  Hg2) with (fuel := loopFuel block) (R := cre) (a := a)
                  (r := (a', cre')) as (H1 & H2 & _); auto.
      + intros line q q' Hline Hq Hlb.
        unfold blockLineBody in Hlb.
        apply bind_Done in Hlb. destruct Hlb as (l2 & E2 & Hlb).
        apply bind_Done in Hlb. destruct Hlb as (l0 & E0 & Hlb).
        apply defined_Done in E2. apply defined_Done in E0.
        eapply addToMatchingTag_allRanges; [exact Hq | | exact Hlb].
        unfold positionAt. eapply HP; eauto.
      + split; auto.
    - split; [exact Hall | apply sameProgram_refl]. }
  exact (proj1 HI).
Qed.

(** What a match and its groups measure. *)
Lemma isMatch_whole R text m m0 :
  isMatch R text m -> element m 0 = Some m0 ->
  exists y,
    matchAt (list_ascii_of_string text) (flags R) (source R)
      (RegExp.index m) = Some y /\
    m0 = slice text (RegExp.index m, endIndex y) /\
    RegExp.index m <= endIndex y /\ endIndex y <= String.length text /\
    String.length m0 = endIndex y - RegExp.index m.
Proof.
  intros (y & Hi & Hy & He) H0.
  rewrite (element_0 _ _ _ He) in H0. inversion H0; subst m0; clear H0.
  destruct (matchAt_bounds _ _ _ _ _ Hy Hi) as (H1 & H2 & _).
  exists y. repeat split; auto. apply length_slice; auto.
Qed.

Lemma isMatch_group R text m k v :
  isMatch R text m -> element m (S k) = Some v ->
  exists y s e,
    matchAt (list_ascii_of_string text) (flags R) (source R)
      (RegExp.index m) = Some y /\
    captures y (S k) = Some (s, e) /\ v = slice text (s, e) /\
    RegExp.index m <= s /\ s <= e /\ e <= endIndex y /\
    endIndex y <= String.length text /\
    String.length v = e - s.
Proof.
  intros (y & Hi & Hy & He) Hk.
  apply (element_group _ _ _ _ _ _ He) in Hk.
  destruct (captures y (S k)) as [[s e]|] eqn:Ec; [|discriminate].
  inversion Hk; subst v; clear Hk.
  destruct (matchAt_bounds _ _ _ _ _ Hy Hi) as (H1 & H2 & H3).
  destruct (H3 _ _ _ Ec) as (H4 & H5 & H6).
  exists y, s, e. repeat split; auto. apply length_slice; auto. lia.
Qed.

(** A scan only appends to the buffers: with the buffers emptied, the
    parser is what it was. *)
Lemma pushToFirst_cleared p r l :
  map clearRanges (pushToFirst p r l) = map clearRanges l.
Proof.
  induction l as [|t l IH]; [reflexivity|].
  cbn [pushToFirst]. destruct (p t); cbn [map]; [reflexivity|].
  now rewrite IH.
Qed.

Lemma addToMatchingTag_cleared m r this this' :
  addToMatchingTag m r this = Done this' -> cleared this' = cleared this.
Proof.
  unfold addToMatchingTag.
  destruct (p_tags this) as [|t0 ts] eqn:Et.
  - intros H; inversion H; reflexivity.
  - intros H. apply bind_Done in H. destruct H as (s & _ & H).
    inversion H; subst; clear H. unfold cleared, set_tags.
    cbn [p_tags expression delimiter blockCommentStart blockCommentEnd
         highlightSingleLineComments highlightMultilineComments
         highlightJSDoc isPlainText ignoreFirstLine supportedLanguage
         contributions].
    f_equal. rewrite Et.
    exact (pushToFirst_cleared
             (fun item =>
                String.eqb (JS.toLowerCase (tag item)) (JS.toLowerCase s))
             r (t0 :: ts)).
Qed.

Lemma FindSingleLineComments_cleared text this this' :
  FindSingleLineComments text this = Done this' ->
  cleared this' = cleared this.
Proof.
  intros H. unfold FindSingleLineComments in H.
  destruct (highlightSingleLineComments this); cbn [negb] in H;
    [|inversion H; reflexivity].
  apply bind_Done in H. destruct H as (R & ER & H).
  apply bind_Done in H. destruct H as ([p1 R1] & EW & H).
  apply newRegExp_Done in ER.
  inversion H; subst; clear H. cbn [fst] in *.
  assert (Hg : global (flags R) = true).
  { destruct (new_lastIndex _ _ _ ER) as [_ ->].
    destruct (isPlainText this); reflexivity. }
  refine (proj1 (whileExec_invariant text (singleLineBody text)
                   (fun q => cleared q = cleared this) R Hg
                   _ (loopFuel text) R this (this', R1)
                   (sameProgram_refl R) eq_refl EW)).
  intros m a a' _ Ha Hb. unfold singleLineBody in Hb.
  apply bind_Done in Hb. destruct Hb as (m0 & _ & Hb).
  match type of Hb with
  | (if ?b then _ else _) = _ => destruct b
  end.
  - inversion Hb; subst; exact Ha.
  - apply addToMatchingTag_cleared in Hb. congruence.
Qed.

Lemma cleared_buffersEmpty this : buffersEmpty this -> cleared this = this.
Proof.
  intros H. unfold cleared.
  assert (E : map clearRanges (p_tags this) = p_tags this).
  { revert H. unfold buffersEmpty. generalize (p_tags this). intros l H.
    induction l as [|t l IH]; [reflexivity|].
    cbn [map]. rewrite IH by (intros t' Ht'; apply H; right; exact Ht').
    f_equal. specialize (H t (or_introl eq_refl)).
    destruct t; simpl in *. subst. reflexivity. }
  rewrite E. destruct this; reflexivity.
Qed.



(** What the calls of [addToMatchingTag] preserve, the loops of a block
    scan preserve. *)
Lemma blockLoop_preserves (Inv : Parser -> Prop) text regEx commentRegEx
    this r :
  global (flags regEx) = true -> global (flags commentRegEx) = true ->
  Inv this ->
  (forall m r0 q q', Inv q -> addToMatchingTag m r0 q = Done q' -> Inv q') ->
  whileExec (loopFuel text) text (blockBody text) regEx
    (this, commentRegEx) = Done r ->
  Inv (fst (fst r)).
Proof.
  intros Hg1 Hg2 H0 Hstep H.
  pose (Inv1 := fun st : Parser * RegExp =>
    Inv (fst st) /\ sameProgram (snd st) commentRegEx).
  assert (HI : Inv1 (fst r)).
  { refine (proj1 (whileExec_invariant text (blockBody text) Inv1 regEx Hg1
                     _ (loopFuel text) regEx (this, commentRegEx) r
                     (sameProgram_refl regEx) _ H)).
    - intros m [a cre] [a' cre'] Hm (Ha & Hcre) Hb. cbn [fst snd] in *.
      unfold blockBody in Hb.
      apply bind_Done in Hb. destruct Hb as (block & Eb & Hb).
      destruct (whileExec_invariant block
                  (blockLineBody text (RegExp.index m)) Inv commentRegEx
                  Hg2) with (fuel := loopFuel block) (R := cre) (a := a)
                  (r := (a', cre')) as (H1 & H2 & _); auto.
      + intros line q q' _ Hq Hlb.
        unfold blockLineBody in Hlb.
        apply bind_Done in Hlb. destruct Hlb as (l2 & _ & Hlb).
        apply bind_Done in Hlb. destruct Hlb as (l0 & _ & Hlb).
        eapply Hstep; eauto.
      + split; auto.
    - split; [exact H0 | apply sameProgram_refl]. }
  exact (proj1 HI).
Qed.

(** The scans return: no match of their patterns is empty, and every
    group their bodies read takes part in the match. *)
Lemma consumes_literalThen s tail :
  consumes tail = true -> consumes (literalThen s tail) = true.
Proof.
  intros H. unfold literalThen.
  induction (list_ascii_of_string s) as [|c l IH]; [exact H|reflexivity].
Qed.

Lemma consumes_blockPattern s e : consumes (blockPattern s e) = true.
Proof.
  unfold blockPattern. cbn [consumes Nat.leb andb].
  rewrite consumes_literalThen by reflexivity.
  rewrite orb_true_r. reflexivity.
Qed.

Lemma blockLoop_returns text regEx lead ts this :
  global (flags regEx) = true -> consumes (source regEx) = true ->
  exists r,
    whileExec (loopFuel text) text (blockBody text) regEx
      (this, compiled (linePattern lead ts) 5 flags_igm) = Done r.
Proof.
  intros Hg Hc.
  set (cre := compiled (linePattern lead ts) 5 flags_igm).
  assert (Hne : forall i y,
             matchAt (list_ascii_of_string text) (flags regEx) (source regEx) i
             = Some y -> i < endIndex y).
  { intros i y Hy. apply matchAt_Matches in Hy.
    apply (RegExpFacts.consumes_Matches _ _ _ _ _ Hy Hc). }
  assert (Hbody : forall m (st : Parser * RegExp),
             isMatch regEx text m -> sameProgram (snd st) cre ->
             exists st', blockBody text m st = Done st'
                         /\ sameProgram (snd st') cre).
  { intros m [a c0] Hm Hc0. cbn [snd] in Hc0.
    destruct Hm as (y & Hi & Hy & Hel).
    unfold blockBody. rewrite (element_0 _ _ _ Hel). cbn [defined bind].
    set (block := slice text (RegExp.index m, endIndex y)).
    assert (Hne' : forall i z,
               matchAt (list_ascii_of_string block) (flags cre) (source cre) i
               = Some z -> i < endIndex z).
    { intros i z Hz. apply matchAt_Matches in Hz.
      apply (RegExpFacts.consumes_Matches _ _ _ _ _ Hz).
      apply MatchFacts.consumes_linePattern. }
    assert (Hline : forall line (q : Parser),
               isMatch cre block line -> True ->
               exists q', blockLineBody text (RegExp.index m) line q = Done q'
                          /\ True).
    { intros line q (z & Hli & Hz & Hlel) _.
      unfold cre in Hz, Hlel. cbn [source flags nGroups compiled] in Hz, Hlel.
      apply matchAt_Matches in Hz.
      destruct (MatchFacts.Matches_linePattern_groups _ _ _ _ _ _ Hz)
        as ((se2 & H2) & (se3 & H3)).
      assert (E2 : element line 2 = Some (slice block se2)).
      { unfold element. rewrite Hlel. cbn [nth map seq]. now rewrite H2. }
      assert (E3 : element line 3 = Some (slice block se3)).
      { unfold element. rewrite Hlel. cbn [nth map seq]. now rewrite H3. }
      unfold blockLineBody. rewrite E2. cbn [defined bind].
      rewrite (element_0 _ _ _ Hlel). cbn [defined bind].
      unfold addToMatchingTag.
      destruct (p_tags q); [eauto|].
      rewrite E3. cbn [defined bind]. eauto. }
    destruct (whileExec_total block (blockLineBody text (RegExp.index m))
                (fun _ => True) cre eq_refl Hne' Hline c0 a Hc0 I)
      as (r1 & Hr1 & _ & Hs & _).
    exists r1. split; [exact Hr1 | exact Hs]. }
  destruct (whileExec_total text (blockBody text)
              (fun st : Parser * RegExp => sameProgram (snd st) cre)
              regEx Hg Hne Hbody regEx (this, cre)
              (sameProgram_refl regEx) (sameProgram_refl cre))
    as (r & Hr & _).
  exists r. exact Hr.
Qed.

Lemma FindJSDocComments_returns text this :
  registryBuilt this ->
  exists this', FindJSDocComments text this = Done this'.
Proof.
  intros Hreg. unfold FindJSDocComments.
  destruct (negb (highlightMultilineComments this)
            && negb (highlightJSDoc this)); [eauto|].
  unfold newRegExp at 1. rewrite PatternFacts.new_docBlockPattern.
  cbn [bind]. unfold registryBuilt in Hreg. rewrite Hreg.
  unfold newRegExp. rewrite PatternFacts.new_linePattern_doc. cbn [bind].
  destruct (blockLoop_returns text (compiled docBlockPattern 4 flags_gm)
              docLead (markers this) this eq_refl eq_refl) as (r & Hr).
  rewrite Hr. cbn [bind]. eauto.
Qed.

Lemma FindBlockComments_returns text this :
  wellFormed this ->
  exists this', FindBlockComments text this = Done this'.
Proof.
  intros (Hreg & s & e & Hs & He). unfold FindBlockComments.
  destruct (negb (highlightMultilineComments this)); [eauto|].
  rewrite Hs, He.
  unfold newRegExp at 1. rewrite PatternFacts.new_blockPattern.
  cbn [bind]. unfold registryBuilt in Hreg. rewrite Hreg.
  unfold newRegExp. rewrite PatternFacts.new_linePattern_block. cbn [bind].
  destruct (blockLoop_returns text (compiled (blockPattern s e) 4 flags_gm)
              blockLead (markers this) this eq_refl
              (consumes_blockPattern s e)) as (r & Hr).
  rewrite Hr. cbn [bind]. eauto.
Qed.

Lemma delimited_scan_returns text this D ts :
  RegExp.new (expression this) (singleLineFlags this)
  = Some (compiled (delimitedPattern D ts) 4
            (parseFlags (singleLineFlags this))) ->
  consumes D = true ->
  exists this', FindSingleLineComments text this = Done this'.
Proof.
  intros Hnew Hc. unfold FindSingleLineComments.
  destruct (negb (highlightSingleLineComments this)); [eauto|].
  fold (singleLineFlags this). unfold newRegExp. rewrite Hnew. cbn [bind].
  set (R0 := compiled (delimitedPattern D ts) 4
               (parseFlags (singleLineFlags this))).
  assert (Hg : global (flags R0) = true).
  { unfold R0, singleLineFlags. destruct (isPlainText this); reflexivity. }
  assert (Hne : forall i y,
             matchAt (list_ascii_of_string text) (flags R0) (source R0) i
             = Some y -> i < endIndex y).
  { intros i y Hy. apply matchAt_Matches in Hy.
    apply (RegExpFacts.consumes_Matches _ _ _ _ _ Hy).
    unfold R0, delimitedPattern. cbn [source compiled consumes Nat.leb andb].
    rewrite Hc. reflexivity. }
  assert (Hbody : forall m (a : Parser),
             isMatch R0 text m -> True ->
             exists a', singleLineBody text m a = Done a' /\ True).
  { intros m a (y & Hi & Hy & Hel) _.
    unfold R0 in Hy, Hel. cbn [source flags nGroups compiled] in Hy, Hel.
    apply matchAt_Matches in Hy. unfold delimitedPattern in Hy.
    apply RegExpFacts.Matches_Seq_inv in Hy. destruct Hy as (y1 & _ & Hy).
    apply RegExpFacts.Matches_Seq_inv in Hy. destruct Hy as (y2 & _ & Hy).
    apply MatchFacts.Matches_tagsThenRest in Hy.
    destruct Hy as (_ & (se & H3) & _).
    assert (E3 : element m 3 = Some (slice text se)).
    { unfold element. rewrite Hel. cbn [nth map seq]. now rewrite H3. }
    unfold singleLineBody. rewrite (element_0 _ _ _ Hel).
    cbn [defined bind].
    match goal with
    | |- context [if ?b then _ else _] => destruct b
    end; [eauto|].
    unfold addToMatchingTag. destruct (p_tags a); [eauto|].
    rewrite E3. cbn [defined bind]. eauto. }
  destruct (whileExec_total text (singleLineBody text) (fun _ => True) R0
              Hg Hne Hbody R0 this (sameProgram_refl R0) I)
    as (r & Hr & _).
  rewrite Hr. cbn [bind]. eauto.
Qed.

(** The scans only append to the buffers. *)
Lemma appendsTo_refl this : appendsTo this this.
Proof.
  split; [reflexivity|].
  induction (p_tags this) as [|t l IH]; constructor; [|exact IH].
  exists []. now rewrite app_nil_r.
Qed.

Lemma pushToFirst_appends p r l0 :
  forall l,
    Forall2 (fun t t' => exists added, ranges t' = (ranges t ++ added)%list)
      l0 l ->
    Forall2 (fun t t' => exists added, ranges t' = (ranges t ++ added)%list)
      l0 (pushToFirst p r l).
Proof.
  induction l0 as [|t0 l0 IH]; intros l H; inversion H; subst.
  - constructor.
  - cbn [pushToFirst]. destruct (p y).
    + constructor; [|assumption].
      destruct H2 as (added & E). exists (added ++ [r])%list.
      cbn [ranges pushRange]. rewrite E, app_assoc. reflexivity.
    + constructor; [assumption|]. apply IH. assumption.
Qed.

Lemma addToMatchingTag_appendsTo old m r q q' :
  appendsTo old q -> addToMatchingTag m r q = Done q' -> appendsTo old q'.
Proof.
  intros (Hc & Hp) H. split.
  - rewrite <- Hc. eapply addToMatchingTag_cleared; eauto.
  - unfold addToMatchingTag in H.
    destruct (p_tags q) as [|t0 ts] eqn:Et.
    + inversion H; subst. rewrite Et. exact Hp.
    + apply bind_Done in H. destruct H as (s & _ & H).
      inversion H; subst; clear H. cbn [p_tags set_tags].
      exact (pushToFirst_appends
               (fun item =>
                  String.eqb (JS.toLowerCase (tag item)) (JS.toLowerCase s))
               r (p_tags old) (t0 :: ts) Hp).
Qed.

Lemma FindSingleLineComments_appendsTo text this this' :
  FindSingleLineComments text this = Done this' -> appendsTo this this'.
Proof.
  intros H. unfold FindSingleLineComments in H.
  destruct (highlightSingleLineComments this); cbn [negb] in H;
    [|inversion H; apply appendsTo_refl].
  apply bind_Done in H. destruct H as (R & ER & H).
  apply bind_Done in H. destruct H as ([p1 R1] & EW & H).
  apply newRegExp_Done in ER.
  inversion H; subst; clear H. cbn [fst] in *.
  assert (Hg : global (flags R) = true).
  { destruct (new_lastIndex _ _ _ ER) as [_ ->].
    destruct (isPlainText this); reflexivity. }
  refine (proj1 (whileExec_invariant text (singleLineBody text)
                   (appendsTo this) R Hg
                   _ (loopFuel text) R this (this', R1)
                   (sameProgram_refl R) (appendsTo_refl this) EW)).
  intros m a a' _ Ha Hb. unfold singleLineBody in Hb.
  apply bind_Done in Hb. destruct Hb as (m0 & _ & Hb).
  match type of Hb with
  | (if ?b then _ else _) = _ => destruct b
  end.
  - inversion Hb; subst; exact Ha.
  - eapply addToMatchingTag_appendsTo; eauto.
Qed.

Lemma FindBlockComments_appendsTo text this this' :
  FindBlockComments text this = Done this' -> appendsTo this this'.
Proof.
  intros H. unfold FindBlockComments in H.
  destruct (highlightMultilineComments this); cbn [negb] in H;
    [|inversion H; apply appendsTo_refl].
  apply bind_Done in H. destruct H as (regEx & E1 & H).
  apply bind_Done in H. destruct H as (commentRegEx & E2 & H).
  apply bind_Done in H. destruct H as (r & Hw & H).
  inversion H; subst; clear H.
  apply newRegExp_Done, new_lastIndex in E1.
  apply newRegExp_Done, new_lastIndex in E2.
  apply (blockLoop_preserves (appendsTo this) text regEx commentRegEx this r);
    auto.
  - destruct E1 as [_ ->]; reflexivity.
  - destruct E2 as [_ ->]; reflexivity.
  - apply appendsTo_refl.
  - intros m r0 q q'. apply addToMatchingTag_appendsTo.
Qed.

Lemma FindJSDocComments_appendsTo text this this' :
  FindJSDocComments text this = Done this' -> appendsTo this this'.
Proof.
  intros H. unfold FindJSDocComments in H.
  destruct (negb (highlightMultilineComments this)
            && negb (highlightJSDoc this));
    [inversion H; apply appendsTo_refl|].
  apply bind_Done in H. destruct H as (regEx & E1 & H).
  apply bind_Done in H. destruct H as (commentRegEx & E2 & H).
  apply bind_Done in H. destruct H as (r & Hw & H).
  inversion H; subst; clear H.
  apply newRegExp_Done, new_lastIndex in E1.
  apply newRegExp_Done, new_lastIndex in E2.
  apply (blockLoop_preserves (appendsTo this) text regEx commentRegEx this r);
    auto.
  - destruct E1 as [_ ->]; reflexivity.
  - destruct E2 as [_ ->]; reflexivity.
  - apply appendsTo_refl.
  - intros m r0 q q'. apply addToMatchingTag_appendsTo.
Qed.

(** Being well formed does not depend on the buffers. *)
Lemma wellFormed_cleared a b :
  cleared a = cleared b -> wellFormed b -> wellFormed a.
Proof.
  intros E (Hreg & s & e & Hs & He).
  assert (Et : map clearRanges (p_tags a) = map clearRanges (p_tags b))
    by (apply (f_equal p_tags) in E; exact E).
  assert (E1 : map escapedTag (p_tags a) = map escapedTag (p_tags b)).
  { apply (f_equal (map escapedTag)) in Et. rewrite !map_map in Et.
    exact Et. }
  assert (E2 : map tag (p_tags a) = map tag (p_tags b)).
  { apply (f_equal (map tag)) in Et. rewrite !map_map in Et. exact Et. }
  split.
  - unfold registryBuilt, markers in *. rewrite E1, E2. exact Hreg.
  - exists s, e.
    apply (f_equal blockCommentStart) in E as Ea.
    apply (f_equal blockCommentEnd) in E as Eb.
    cbn in Ea, Eb. rewrite Ea, Eb. auto.
Qed.

(** The block scans, tag by tag. *)
Lemma blockLoop_rangesAt P text regEx commentRegEx this r :
  global (flags regEx) = true -> global (flags commentRegEx) = true ->
  rangesAt P this ->
  (forall m block line l2 l0 l3 k tg,
      isMatch regEx text m -> element m 0 = Some block ->
      isMatch commentRegEx block line ->
      element line 2 = Some l2 -> element line 0 = Some l0 ->
      element line 3 = Some l3 ->
      nth_error (markers this) k = Some tg ->
      JS.toLowerCase tg = JS.toLowerCase l3 ->
      P k {| range :=
               {| start := RegExp.index m + RegExp.index line
                           + String.length l2;
                  end_ := RegExp.index m + RegExp.index line
                          + String.length l0 |} |}) ->
  whileExec (loopFuel text) text (blockBody text) regEx
    (this, commentRegEx) = Done r ->
  rangesAt P (fst (fst r)) /\ markers (fst (fst r)) = markers this.
Proof.
  intros Hg1 Hg2 Hall HP H.
  pose (Inv := fun st : Parser * RegExp =>
    (rangesAt P (fst st) /\ markers (fst st) = markers this)
    /\ sameProgram (snd st) commentRegEx).
  assert (HI : Inv (fst r)).
  { refine (proj1 (whileExec_invariant text (blockBody text) Inv regEx Hg1
                     _ (loopFuel text) regEx (this, commentRegEx) r
                     (sameProgram_refl regEx) _ H)).
    - intros m [a cre] [a' cre'] Hm (Ha & Hcre) Hb. cbn [fst snd] in *.
      unfold blockBody in Hb.
      apply bind_Done in Hb. destruct Hb as (block & Eb & Hb).
      apply defined_Done in Eb.
      pose (Inv2 := fun q : Parser =>
        rangesAt P q /\ markers q = markers this).
      destruct (whileExec_invariant block
                  (blockLineBody text (RegExp.index m)) Inv2 commentRegEx
                  Hg2) with (fuel := loopFuel block) (R := cre) (a := a)
                  (r := (a', cre')) as (H1 & H2 & _); auto.
      + intros line q q' Hline (Hq & Hmk) Hlb.
        unfold blockLineBody in Hlb.
        apply bind_Done in Hlb. destruct Hlb as (l2 & E2 & Hlb).
        apply bind_Done in Hlb. destruct Hlb as (l0 & E0 & Hlb).
        apply defined_Done in E2. apply defined_Done in E0.
        split.
        * eapply addToMatchingTag_rangesAt; [exact Hq | | exact Hlb].
          intros l3 k t0 E3 Hk Hlow _.
          unfold positionAt.
          apply (HP m block line l2 l0 l3 k (tag t0)); auto.
          rewrite <- Hmk. unfold markers. now apply map_nth_error.
        * apply addToMatchingTag_fields in Hlb.
          destruct Hlb as (_ & _ & _ & E).
          unfold markers in *. now rewrite E.
      + split; auto.
    - split; [split; [exact Hall | reflexivity] | apply sameProgram_refl]. }
  exact (proj1 HI).
Qed.

(** A range of the line pattern starts where its tag stands. *)
Lemma linePattern_markerAtStart text lead this regEx m block line l2 l0 l3
    k tg :
  isMatch regEx text m -> element m 0 = Some block ->
  isMatch (compiled (linePattern lead (markers this)) 5 flags_igm)
    block line ->
  element line 2 = Some l2 -> element line 0 = Some l0 ->
  element line 3 = Some l3 ->
  nth_error (markers this) k = Some tg ->
  JS.toLowerCase tg = JS.toLowerCase l3 ->
  markerAtStart this text k
    {| range :=
         {| start := RegExp.index m + RegExp.index line + String.length l2;
            end_ := RegExp.index m + RegExp.index line
                    + String.length l0 |} |}.
Proof.
  intros Hm Eb Hline E2 E0 E3 Hk Hlow.
  assert (Hne : markers this <> [])
    by (intros E; rewrite E in Hk; destruct k; discriminate).
  destruct (isMatch_whole _ _ _ _ Hm Eb) as (y & _ & -> & Hy1 & Hy2 & Hlen).
  destruct (isMatch_whole _ _ _ _ Hline E0)
    as (z & Hz & _ & Hz1 & Hz2 & _).
  destruct (isMatch_group _ _ _ _ _ Hline E2)
    as (z2 & s2 & e2 & Hz2' & Hc2 & _ & _ & _ & _ & _ & Hl2).
  destruct (isMatch_group _ _ _ _ _ Hline E3)
    as (z3 & s3 & e3 & Hz3' & Hc3 & Hv3 & _ & Hs3 & He3 & _ & _).
  assert (z2 = z) by congruence. assert (z3 = z) by congruence.
  subst z2 z3.
  cbn [source flags compiled] in Hz.
  apply matchAt_Matches in Hz.
  destruct (MatchFacts.Matches_linePattern_tag _ _ _ _ _ _ Hne Hz)
    as (e2' & t & Hc2' & Hc3' & _ & _).
  rewrite Hc2 in Hc2'. inversion Hc2'; subst s2 e2'; clear Hc2'.
  rewrite Hc3 in Hc3'. inversion Hc3'; subst s3 e3; clear Hc3'.
  set (block := slice text (RegExp.index m, endIndex y)) in *.
  assert (Hblock : occursAt flags_igm (list_ascii_of_string tg)
                     (list_ascii_of_string block) e2 = true).
  { apply (MatchFacts.lower_prefix_occursAt flags_igm
             (list_ascii_of_string tg) eq_refl
             (list_ascii_of_string block) e2 (e2 + String.length t - e2) []).
    rewrite app_nil_r, <- MatchFacts.chars_toLowerCase, Hlow, Hv3.
    rewrite MatchFacts.chars_toLowerCase. unfold slice. cbn [fst snd].
    now rewrite chars_substring. }
  exists tg. split; [exact Hk|]. cbn [range start].
  rewrite Hl2.
  replace (RegExp.index m + RegExp.index line + (e2 - RegExp.index line))
    with (RegExp.index m + e2).
  2:{ destruct (isMatch_group _ _ _ _ _ Hline E2)
        as (z2 & s2 & e2'' & Hz2'' & Hc2'' & _ & _ & Hle & _).
      assert (z2 = z) by congruence. subst z2.
      rewrite Hc2 in Hc2''. inversion Hc2''; subst. lia. }
  rewrite <- Hblock. apply MatchFacts.occursAt_shift.
  intros j Hj. rewrite <- Nat.add_assoc. symmetry.
  apply nth_error_slice; auto.
  pose proof (MatchFacts.occursAt_length _ _ _ _ Hblock) as Hfit.
  rewrite length_chars in Hfit. rewrite Hlen in Hz2.
  assert (e2 <= String.length block).
  { unfold block. rewrite length_slice by auto. lia. }
  specialize (Hfit H). unfold block in Hfit.
  rewrite length_slice in Hfit by auto. lia.
Qed.

(** The test of [ignoreFirstLine], at a character that is no line
    terminator: the position is line 0, character 0 only at offset 0. *)
Lemma at_origin text m a :
  nth_error (list_ascii_of_string text) m = Some a ->
  isLineTerminator a = false ->
  Nat.eqb (Position_line text (positionAt text m)) 0
  && Nat.eqb (Position_character text (positionAt text m)) 0
  = Nat.eqb m 0.
Proof.
  intros Ha Hnt. unfold Position_line, Position_character, positionAt.
  destruct (coordinates (list_ascii_of_string text) m 0 0) as [l c] eqn:E.
  cbn [fst snd].
  destruct l as [|l], c as [|c], m as [|m]; try reflexivity.
  - exfalso.
    assert (Hne : a <> JS.LF)
      by (intros ->; discriminate Hnt).
    pose proof (coordinates_origin _ _ _ E Ha Hne). discriminate.
  - destruct (list_ascii_of_string text); cbn in E; inversion E.
  - destruct (list_ascii_of_string text); cbn in E; inversion E.
  - destruct (list_ascii_of_string text); cbn in E; inversion E.
Qed.

Lemma commentTagAt_inside fl d ts input i :
  d <> "" -> terminatorFree d -> commentTagAt fl d ts input i ->
  exists a, nth_error input i = Some a /\ isLineTerminator a = false.
Proof.
  intros Hd Hfree (n & j & t & Hn & Hocc & _).
  specialize (Hocc 0). cbn [Nat.mul] in Hocc. rewrite Nat.add_0_r in Hocc.
  apply (MatchFacts.occursAt_free fl d input i (Hocc Hn) Hfree); [lia|].
  destruct d; [contradiction Hd; reflexivity|]. cbn. lia.
Qed.

(** The single-line scan of a parser whose pattern is the delimited
    pattern of a literal delimiter. *)
Lemma delimited_scan_ranges text this d :
  let ts := markers this in
  let input := list_ascii_of_string text in
  highlightSingleLineComments this = true ->
  isPlainText this = false ->
  d <> "" -> terminatorFree d ->
  (forall t, In t ts -> terminatorFree t) ->
  RegExp.new (expression this) "ig"
  = Some (compiled (delimitedPattern (literal d) ts) 4 flags_ig) ->
  buffersEmpty this ->
  exists this',
    FindSingleLineComments text this = Done this'
    /\ forall i, hasRangeFrom this' i
                 <-> firstCommentTag flags_ig d ts input i
                     /\ (ignoreFirstLine this = true -> i <> 0).
Proof.
  intros ts input Hhs Hpt Hd Hfree Hline Hnew Hempty.
  assert (Hcase : ts = [] \/ ts <> [])
    by (destruct ts; [left; reflexivity | right; discriminate]).
  destruct Hcase as [Hnil|Hne].
  { destruct (delimited_scan_returns text this (literal d) ts)
      as (this' & Hrun).
    - unfold singleLineFlags. rewrite Hpt. exact Hnew.
    - destruct d as [|c0 d0]; [contradiction Hd; reflexivity | reflexivity].
    - exists this'. split; [exact Hrun|].
      apply FindSingleLineComments_cleared in Hrun.
      assert (Ht : p_tags this' = []).
      { apply (f_equal p_tags) in Hrun. unfold cleared in Hrun.
        cbn [p_tags set_tags] in Hrun.
        unfold ts, markers in Hnil. apply map_eq_nil in Hnil.
        rewrite Hnil in Hrun. cbn [map] in Hrun.
        apply map_eq_nil in Hrun. exact Hrun. }
      intros i. split.
      + intros (t & r & Hin & _). rewrite Ht in Hin. destruct Hin.
      + intros (((n & j & t & _ & _ & _ & _ & Hin & _) & _) & _).
        rewrite Hnil in Hin. destruct Hin. }
  set (R0 := compiled (delimitedPattern (literal d) ts) 4 flags_ig) in *.
  pose (Q := fun i => firstCommentTag flags_ig d ts input i
                      /\ (ignoreFirstLine this = true -> i <> 0)).
  pose (Inv := fun (L : nat) (a : Parser) =>
    markers a = ts /\ ignoreFirstLine a = ignoreFirstLine this
    /\ (forall i, hasRangeFrom a i -> Q i)
    /\ (forall i, i < L -> Q i -> hasRangeFrom a i)
    /\ (L = 0 \/ endsLine input L = true)).
  assert (Hspan : forall i y,
             matchAt input flags_ig (delimitedPattern (literal d) ts) i
             = Some y ->
             commentTagAt flags_ig d ts input i
             /\ i < endIndex y
             /\ forall k, i <= k -> k < endIndex y ->
                  exists a, nth_error input k = Some a
                            /\ isLineTerminator a = false).
  { intros i y Hy. apply matchAt_Matches in Hy. split.
    - apply (MatchFacts.delimitedPattern_commentTagAt _ _ _ _ _ Hne Hd).
      exists y. exact Hy.
    - apply (MatchFacts.Matches_delimitedPattern_span _ _ _ _ _ _
               Hd Hfree Hline Hy). }
  assert (Hmatch : forall i,
             commentTagAt flags_ig d ts input i ->
             matchAt input flags_ig (delimitedPattern (literal d) ts) i
             <> None).
  { intros i Hi.
    destruct (commentTagAt_inside _ _ _ _ _ Hd Hfree Hi) as (a & Ha & _).
    assert (i < length input) by (apply nth_error_Some; congruence).
    apply (MatchFacts.delimitedPattern_commentTagAt _ _ _ _ _ Hne Hd) in Hi.
    destruct Hi as (z & Hz).
    apply (Matches_matchAt text _ _ _ _ Hz). fold input. lia. }
  assert (Hfirst : forall L m,
             L = 0 \/ endsLine input L = true -> L <= m ->
             (forall j, L <= j -> j < m ->
                matchAt input flags_ig (delimitedPattern (literal d) ts) j
                = None) ->
             commentTagAt flags_ig d ts input m ->
             firstCommentTag flags_ig d ts input m).
  { intros L m HL HLm Hgap Hm. split; [exact Hm|].
    intros j (Hjm & Hfreejm) Hj.
    destruct (Nat.lt_ge_cases j L) as [HjL|HjL].
    - destruct HL as [->|HL]; [lia|].
      unfold endsLine in HL.
      destruct (Nat.eq_dec L m) as [->|HneLm].
      + destruct (commentTagAt_inside _ _ _ _ _ Hd Hfree Hm)
          as (a & Ha & Hnt).
        rewrite Ha in HL. congruence.
      + destruct (Hfreejm L) as (a & Ha & Hnt); [lia|lia|].
        rewrite Ha in HL. congruence.
    - apply (Hmatch j Hj). apply Hgap; assumption. }
  destruct (whileExec_covers text (singleLineBody text) Inv R0 eq_refl)
    with (fuel := loopFuel text) (R := R0) (a := this)
    as (r & L & Hrun & (_ & _ & Hsound & Hcov & HL) & Hnone).
  - intros i y Hy. apply (Hspan i y Hy).
  - intros L m a y (Hmk & Hif & Hsound & Hcov & HL) HLm Hgap Hm Hy.
    unfold R0 in Hgap, Hy. cbn [flags source compiled] in Hgap, Hy.
    fold input in Hgap, Hy.
    destruct (Hspan _ _ Hy) as (Htag & Hlt & Hnt).
    destruct Hm as (y' & Hi & Hy' & Hel).
    unfold R0 in Hy', Hel. cbn [flags source nGroups compiled] in Hy', Hel.
    fold input in Hy'. rewrite Hy in Hy'. inversion Hy'; subst y'; clear Hy'.
    pose proof (Hfirst L _ HL HLm Hgap Htag) as Hfst.
    assert (Hends : endsLine input (endIndex y) = true).
    { assert (Hlen : RegExp.index m <= length input)
        by (unfold input; rewrite length_chars; exact Hi).
      exact (MatchFacts.matchAt_ends_line input flags_ig _ _ ts
               (RegExp.index m) y Hlen Hy). }
    assert (Hcover : forall a',
               (forall i, i < L -> Q i -> hasRangeFrom a' i) ->
               (Q (RegExp.index m) -> hasRangeFrom a' (RegExp.index m)) ->
               forall i, i < endIndex y -> Q i -> hasRangeFrom a' i).
    { intros a' Hold Hnew' i Hi' HQ.
      destruct (Nat.lt_ge_cases i L) as [HiL|HiL]; [apply Hold; assumption|].
      destruct (Nat.lt_ge_cases i (RegExp.index m)) as [Him|Him].
      { exfalso. apply (Hmatch i (proj1 (proj1 HQ))). apply Hgap; assumption. }
      destruct (Nat.eq_dec i (RegExp.index m)) as [->|Hneq];
        [apply Hnew'; exact HQ|].
      exfalso. destruct HQ as ((_ & Hno) & _).
      apply (Hno (RegExp.index m)); [|exact Htag].
      split; [lia|]. intros k Hk1 Hk2. apply Hnt; lia. }
    destruct (commentTagAt_inside _ _ _ _ _ Hd Hfree Htag)
      as (a0 & Ha0 & Hnt0).
    destruct (third_group_is_a_marker text flags_ig _ _ ts _ y Hne Hi Hy)
      as (s & e & t & Hc3 & Hin & Hlow).
    unfold singleLineBody.
    rewrite (element_0 _ _ _ Hel). cbn [defined bind]. cbv zeta.
    rewrite Hif, <- andb_assoc, (at_origin text _ a0 Ha0 Hnt0).
    destruct (ignoreFirstLine this && Nat.eqb (RegExp.index m) 0) eqn:Eskip.
    { apply andb_true_iff in Eskip. destruct Eskip as (Eifl & E0).
      apply Nat.eqb_eq in E0.
      exists a. split; [reflexivity|]. unfold Inv.
      split; [exact Hmk|]. split; [exact Hif|]. split; [exact Hsound|].
      split; [|right; exact Hends].
      apply Hcover; [exact Hcov|].
      intros (_ & H0). exfalso. apply (H0 Eifl E0). }
    assert (HQm : Q (RegExp.index m)).
    { split; [exact Hfst|]. intros Eifl E0. rewrite Eifl, E0 in Eskip.
      discriminate Eskip. }
    unfold addToMatchingTag.
    destruct (p_tags a) as [|t0 ts'] eqn:Et.
    { exfalso. apply Hne. rewrite <- Hmk. unfold markers. now rewrite Et. }
    assert (E3 : element m 3 = Some (slice text (s, e))).
    { unfold element. rewrite Hel. cbn [nth map seq]. now rewrite Hc3. }
    rewrite E3. cbn [defined bind].
    eexists. split; [reflexivity|].
    set (p := fun item : CommentTag =>
                String.eqb (JS.toLowerCase (tag item))
                  (JS.toLowerCase (slice text (s, e)))).
    set (rg := {| range := _ |}).
    assert (Hp : exists t1, In t1 (t0 :: ts') /\ p t1 = true).
    { rewrite <- Et. rewrite <- Hmk in Hin. unfold markers in Hin.
      apply in_map_iff in Hin. destruct Hin as (t1 & E1 & Hin).
      exists t1. split; [exact Hin|]. unfold p. apply String.eqb_eq.
      now rewrite E1. }
    unfold Inv. cbn [ignoreFirstLine set_tags]. unfold markers at 1.
    cbn [p_tags set_tags].
    split; [|split; [exact Hif|split; [|split]]].
    + rewrite pushToFirst_tags. rewrite <- Et. exact Hmk.
    + intros i (t1 & r1 & Hin1 & Hr1 & Hst). cbn [p_tags set_tags] in Hin1.
      destruct (pushToFirst_ranges p rg (t0 :: ts') t1 Hin1 r1 Hr1)
        as [->|(t2 & H2 & H3)].
      * subst i. exact HQm.
      * apply Hsound. exists t2, r1. rewrite Et. auto.
    + apply Hcover.
      * intros i HiL HQ. unfold hasRangeFrom. cbn [p_tags set_tags].
        destruct (Hcov i HiL HQ) as (t1 & r1 & Hin1 & Hr1 & Hst).
        rewrite Et in Hin1.
        destruct (pushToFirst_keeps p rg (t0 :: ts') t1 r1 Hin1 Hr1)
          as (t2 & H2 & H3).
        exists t2, r1. auto.
      * intros _. unfold hasRangeFrom. cbn [p_tags set_tags].
        destruct (pushToFirst_adds p rg (t0 :: ts') Hp) as (t2 & H2 & H3).
        exists t2, rg. auto.
    + right. exact Hends.
  - apply sameProgram_refl.
  - unfold Inv. split; [reflexivity|]. split; [reflexivity|]. split; [|split].
    + intros i (t & r & Hin & Hr & _). rewrite (Hempty t Hin) in Hr.
      destruct Hr.
    + intros i Hi. unfold R0 in Hi. cbn [lastIndex compiled] in Hi. lia.
    + left. reflexivity.
  - unfold loopFuel, R0. cbn [lastIndex compiled]. lia.
  - exists (fst r). split.
    + unfold FindSingleLineComments. rewrite Hhs. cbn [negb].
      rewrite Hpt. unfold newRegExp. rewrite Hnew.
      cbn [bind]. rewrite Hrun. reflexivity.
    + intros i. split; [apply Hsound|].
      intros HQ. destruct (Nat.lt_ge_cases i L) as [HiL|HiL].
      * apply Hcov; assumption.
      * exfalso. apply (Hmatch i (proj1 (proj1 HQ))).
        unfold R0 in Hnone. cbn [flags source compiled] in Hnone.
        apply Hnone; [exact HiL|].
        destruct (commentTagAt_inside _ _ _ _ _ Hd Hfree (proj1 (proj1 HQ)))
          as (a & Ha & _).
        assert (i < length input) by (apply nth_error_Some; congruence).
        unfold input in *. rewrite length_chars in *. lia.
Qed.

Lemma addToMatchingTag_cases m3 rg a a' :
  addToMatchingTag m3 rg a = Done a' ->
  a' = a
  \/ exists s,
       a' = set_tags
              (pushToFirst
                 (fun item =>
                    String.eqb (JS.toLowerCase (tag item)) (JS.toLowerCase s))
                 rg (p_tags a)) a.
Proof.
  unfold addToMatchingTag. intros H.
  destruct (p_tags a) as [|t0 ts]; [inversion H; left; reflexivity|].
  apply bind_Done in H. destruct H as (s & _ & H).
  inversion H. right. exists s. reflexivity.
Qed.






End ScanFacts.

(* ================================================================= *)
(** * The claims *)

Import ExecFacts ScanFacts.

(** Letter case in the 8-bit range, as the [i] flag and [toLowerCase]
    have it: the marker 233 (a small e with an acute accent) is found
    where the text has its capital, 201, by the single-line scan, by the
    plain-text scan and by the block scan. *)
Example latin1_letter_case :
  let e := String "233"%char "" in
  let E := String "201"%char "" in
  let js := SetRegex "javascript" (new_Parser (config true false [e])) in
  let plain := SetRegex "plaintext" (new_Parser (config true true [e])) in
  JS.toLowerCase E = e
  /\ rangesByTag (resultOf (FindSingleLineComments ("// " ++ E ++ " x") js) js)
     = [(e, [(0, 6)])]
  /\ rangesByTag (resultOf (FindSingleLineComments (E ++ " x") plain) plain)
     = [(e, [(0, 3)])]
  /\ rangesByTag
       (resultOf
          (FindBlockComments
             ("/*" ++ newline ++ " " ++ E ++ " x" ++ newline ++ "*/") js) js)
     = [(e, [(4, 7)])].
Proof. vm_compute. repeat split. Qed.

(** C7. Every range added by any of the three scans lies within the text it
    was computed from: 0 <= start <= end <= length of the text. Stated as
    an invariant of the range buffers: if it holds when a scan starts
    (as it does of the empty buffers), it holds when the scan returns. *)
Theorem ranges_within_bounds text this this' :
  allRanges (inBounds text) this ->
  FindSingleLineComments text this = Done this'
  \/ FindBlockComments text this = Done this'
  \/ FindJSDocComments text this = Done this' ->
  allRanges (inBounds text) this'.
Proof.
  intros Hall H.
  assert (Hblock : forall regEx commentRegEx r,
    global (flags regEx) = true -> global (flags commentRegEx) = true ->
    whileExec (loopFuel text) text (blockBody text) regEx
      (this, commentRegEx) = Done r ->
    allRanges (inBounds text) (fst (fst r))).
  { intros regEx commentRegEx r Hg1 Hg2 Hw.
    apply (blockLoop_allRanges (inBounds text) text regEx commentRegEx this r
             Hg1 Hg2 Hall); [|exact Hw].
    intros m block line l2 l0 Hm Eb Hline E2 E0.
    destruct (isMatch_whole _ _ _ _ Hm Eb) as (y & _ & -> & Hy1 & Hy2 & Hlen).
    destruct (isMatch_whole _ _ _ _ Hline E0)
      as (yl & Hyl & _ & Hl1 & Hl2 & Hl0).
    destruct (isMatch_group _ _ _ _ _ Hline E2)
      as (yl' & s & e & Hyl' & _ & _ & Hs1 & Hs2 & Hs3 & _ & Hl2').
    assert (yl' = yl) by congruence. subst yl'.
    unfold inBounds; simpl. lia. }
  destruct H as [H | [H | H]].
  - eapply FindSingleLineComments_allRanges; eauto.
    intros R m m0 _ Hm E0 _.
    destruct (isMatch_whole _ _ _ _ Hm E0) as (y & _ & _ & H1 & H2 & H3).
    unfold inBounds; simpl. lia.
  - unfold FindBlockComments in H.
    destruct (highlightMultilineComments this); cbn [negb] in H;
      [|inversion H; subst; exact Hall].
    apply bind_Done in H. destruct H as (regEx & E1 & H).
    apply bind_Done in H. destruct H as (commentRegEx & E2 & H).
    apply bind_Done in H. destruct H as (r & Hw & H).
    inversion H; subst; clear H.
    apply newRegExp_Done, new_lastIndex in E1.
    apply newRegExp_Done, new_lastIndex in E2.
    apply (Hblock regEx commentRegEx r); auto.
    + destruct E1 as [_ ->]; reflexivity.
    + destruct E2 as [_ ->]; reflexivity.
  - unfold FindJSDocComments in H.
    destruct (negb (highlightMultilineComments this)
              && negb (highlightJSDoc this));
      [inversion H; subst; exact Hall|].
    apply bind_Done in H. destruct H as (regEx & E1 & H).
    apply bind_Done in H. destruct H as (commentRegEx & E2 & H).
    apply bind_Done in H. destruct H as (r & Hw & H).
    inversion H; subst; clear H.
    apply newRegExp_Done, new_lastIndex in E1.
    apply newRegExp_Done, new_lastIndex in E2.
    apply (Hblock regEx commentRegEx r); auto.
    + destruct E1 as [_ ->]; reflexivity.
    + destruct E2 as [_ ->]; reflexivity.
Qed.

Lemma ranges_within_bounds_witness :
  let text := "// ! urgent" in
  let this := SetRegex "javascript" (new_Parser (config true false ["!"])) in
  allRanges (inBounds text) (resultOf (FindSingleLineComments text this) this)
  /\ rangesByTag (resultOf (FindSingleLineComments text this) this)
     = [("!", [(0, 11)])].
Proof.
  intros text this. split; [|vm_compute; reflexivity].
  apply (ranges_within_bounds text this).
  - intros t Ht r Hr. vm_compute in Ht.
    destruct Ht as [<-|[]]. destruct Hr.
  - left. vm_compute. reflexivity.
Defined.

(** C9 (the code departs from the claim). Resolving a language keeps what
    the language resolved before it left in the fields the new case does
    not assign: after [javascript], [ruby] has the block delimiters of
    JavaScript and both block scans switched on, whereas on a new parser it
    has none; a block scan of the same Ruby text then differs. *)
Theorem setDelimiter_keeps_previous_grammar :
  let c := config true false ["!"] in
  let direct := setDelimiter "ruby" (new_Parser c) in
  let later := setDelimiter "ruby" (setDelimiter "javascript" (new_Parser c)) in
  let text := "/*" ++ newline ++ " ! x" ++ newline ++ "*/" in
  (delimiter direct, supportedLanguage direct, ignoreFirstLine direct,
   isPlainText direct)
  = (delimiter later, supportedLanguage later, ignoreFirstLine later,
     isPlainText later)
  /\ (blockCommentStart direct, blockCommentEnd direct,
      highlightMultilineComments direct, highlightJSDoc direct)
     = ("", "", false, false)
  /\ (blockCommentStart later, blockCommentEnd later,
      highlightMultilineComments later, highlightJSDoc later)
     = ("/\*", "\*/", true, true)
  /\ option_map rangesByTag
       (match FindBlockComments text direct with Done p => Some p | _ => None end)
     = Some [("!", [])]
  /\ option_map rangesByTag
       (match FindBlockComments text later with Done p => Some p | _ => None end)
     = Some [("!", [(4, 7)])].
Proof. vm_compute. repeat split. Qed.

(** C2, as stated, fails: after a supported language, an unsupported one
    leaves the pattern of the former in place, and the scans, which do not
    look at [supportedLanguage], go on finding its comments. *)
Lemma unsupported_scan_uses_stale_pattern :
  let c := config true false ["!"] in
  let this := SetRegex "unknownlang" (SetRegex "javascript" (new_Parser c)) in
  let block := "/*" ++ newline ++ " ! x" ++ newline ++ "*/" in
  supportedLanguage this = false
  /\ (exists this', FindSingleLineComments "// ! x" this = Done this'
                    /\ rangesByTag this' = [("!", [(0, 6)])])
  /\ (exists this', FindBlockComments block this = Done this'
                    /\ rangesByTag this' = [("!", [(4, 7)])]).
Proof.
  vm_compute. split; [reflexivity|].
  split; eexists; split; reflexivity.
Qed.

(** C2, amended. For an id that is not in the table, or plain text with its
    highlighting off, [SetRegex] sets [supportedLanguage] to false and
    leaves the pattern and the tags of any parser as they were. On a parser
    that comes from the constructor the two block scans then return without
    a range; the single-line scan, whose pattern is still empty, adds none
    either: it throws a [TypeError] at its first match, or loops on it when
    no tag is configured. *)
Theorem unsupported_language_adds_no_range languageCode c text :
  resolvesUnsupported languageCode c ->
  (forall this0,
      contributions this0 = c ->
      supportedLanguage (SetRegex languageCode this0) = false
      /\ expression (SetRegex languageCode this0) = expression this0
      /\ p_tags (SetRegex languageCode this0) = p_tags this0)
  /\ let this := SetRegex languageCode (new_Parser c) in
     FindBlockComments text this = Done this
     /\ FindJSDocComments text this = Done this
     /\ FindSingleLineComments text this
        = match tags c with
          | [] => Diverges
          | _ => Throws TypeError
          end
     /\ buffersEmpty this.
Proof.
  intros [H | [-> H]].
  - split.
    + intros this0 _. unfold SetRegex.
      rewrite (TableFacts.setDelimiter_default _ _ H). simpl. auto.
    + unfold SetRegex.
      rewrite (TableFacts.setDelimiter_default _ _ H), TableFacts.new_Parser_eq.
      cbn. repeat split.
      * destruct (tags c); reflexivity.
      * intros t Ht. apply in_map_iff in Ht. destruct Ht as (i & <- & _).
        reflexivity.
  - split.
    + intros this0 Hc. subst c. unfold SetRegex. cbn. rewrite H. cbn. auto.
    + unfold SetRegex. rewrite TableFacts.new_Parser_eq.
      cbn. rewrite H. cbn. repeat split.
      * destruct (tags c); reflexivity.
      * intros t Ht. apply in_map_iff in Ht. destruct Ht as (i & <- & _).
        reflexivity.
Qed.

Lemma unsupported_language_adds_no_range_witness :
  let c := config true false ["!"] in
  let this := SetRegex "unknownlang" (new_Parser c) in
  FindBlockComments "// ! x" this = Done this
  /\ FindSingleLineComments "// ! x" this = Throws TypeError.
Proof.
  intros c this.
  destruct (unsupported_language_adds_no_range "unknownlang" c "// ! x")
    as (_ & H1 & _ & H2 & _).
  - left. vm_compute. reflexivity.
  - split; [exact H1 | exact H2].
Defined.

(** C5, as stated, fails: the scan does not empty the buffer it appends to.
    Run twice on the same text, with nothing in between, it leaves every
    range twice. *)
Lemma scan_twice_accumulates :
  let this := SetRegex "javascript" (new_Parser (config true false ["!"])) in
  let once := resultOf (FindSingleLineComments "// ! x" this) this in
  let twice := resultOf (FindSingleLineComments "// ! x" once) once in
  rangesByTag once = [("!", [(0, 6)])]
  /\ rangesByTag twice = [("!", [(0, 6); (0, 6)])].
Proof. vm_compute. split; reflexivity. Qed.

(** C5, amended. A pass is the single-line scan followed by
    [ApplyDecorations], which hands the ranges to the editor and empties
    the buffers for the next pass. Started on empty buffers (as the
    constructor and every pass leave them), a pass leaves the parser as it
    found it, and a second pass over the same text hands the editor the
    same ranges in the same order. *)
Theorem pass_twice_same text this out this1 :
  buffersEmpty this ->
  singleLinePass text this = Done (out, this1) ->
  this1 = this /\ singleLinePass text this1 = Done (out, this1).
Proof.
  intros Hempty H.
  assert (E : this1 = this).
  { unfold singleLinePass in H.
    apply bind_Done in H. destruct H as (p & Hp & H).
    inversion H; subst; clear H.
    apply FindSingleLineComments_cleared in Hp.
    fold (cleared p). rewrite Hp. apply cleared_buffersEmpty. exact Hempty. }
  split; [exact E|]. rewrite E at 1. exact H.
Qed.

Lemma pass_twice_same_witness :
  let this := SetRegex "javascript" (new_Parser (config true false ["!"])) in
  exists out,
    singleLinePass "// ! x" this = Done (out, this)
    /\ map (fun d => map (fun r => (start (range r), end_ (range r))) (snd d))
         out = [[(0, 6)]].
Proof.
  intros this.
  eexists. split; [|shelve].
  apply (pass_twice_same "// ! x" this _ this).
  - intros t Ht. vm_compute in Ht. destruct Ht as [<-|[]]. reflexivity.
  - vm_compute. reflexivity.
  Unshelve. vm_compute. reflexivity.
Defined.

(** C3, as stated, fails: two of the characters it lists, the closing
    bracket and the closing brace, get no backslash from [setTags], whereas
    [escapeRegExp] gives them one. *)
Lemma closing_bracket_not_escaped :
  map escapedTag (p_tags (new_Parser (config true false ["]"; "}"])))
  = ["]"; "}"]
  /\ map escapeRegExp ["]"; "}"] = ["\]"; "\}"].
Proof. vm_compute. split; reflexivity. Qed.

(** C3, amended. The fragment of a configured tag is its marker with a
    backslash before each of [( ) [ { * + . $ ^ \ | ? /]; the closing
    bracket and brace stay bare, which the engine reads as themselves. The
    fragment compiles to the literal of the marker: without the [i] flag it
    matches at an index exactly when the marker stands there, and the match
    is the marker. *)
Theorem fragment_matches_marker_only c tg input i :
  In tg (p_tags (new_Parser c)) ->
  escapedTag tg = JS.escapeChars (JS.oneOf specials) (tag tg)
  /\ RegExp.new (escapedTag tg) "g" = Some (compiled (literal (tag tg)) 0 flags_g)
  /\ (matchAt input flags_g (literal (tag tg)) i <> None <->
      firstn (String.length (tag tg)) (skipn i input)
      = list_ascii_of_string (tag tg))
  /\ (forall y, matchAt input flags_g (literal (tag tg)) i = Some y ->
                endIndex y = i + String.length (tag tg)).
Proof.
  intros Hin. rewrite TableFacts.new_Parser_eq in Hin. cbn [p_tags] in Hin.
  apply in_map_iff in Hin. destruct Hin as (it & <- & _).
  cbn [escapedTag tag makeTag]. fold (fragment (item_tag it)).
  set (t := item_tag it).
  split; [apply PatternFacts.fragment_single_pass|].
  split.
  { unfold RegExp.new.
    rewrite <- (PatternFacts.append_nil_r (fragment t)).
    rewrite PatternFacts.parse_fragment.
    change (parse "" None ?f [] 1) with (Some (closeFrame f, 1)).
    change (emptyFrame None) with (openAlt None []).
    rewrite PatternFacts.closeFrame_pushChars. reflexivity. }
  unfold matchAt. split.
  - rewrite RegExpFacts.matcher_literal. cbn [endIndex initialState].
    rewrite <- length_chars, <- occursAt_exact.
    destruct (occursAt flags_g (list_ascii_of_string t) input i);
      split; try discriminate; auto; intros H; now contradiction H.
  - intros y. rewrite RegExpFacts.matcher_literal. cbn [endIndex initialState].
    destruct (occursAt flags_g (list_ascii_of_string t) input i);
      [|discriminate].
    intros H; inversion H; reflexivity.
Qed.

Lemma fragment_matches_marker_only_witness :
  let c := config true false ["//"; "a]b"] in
  let tg := makeTag (item "//") in
  escapedTag tg = "\/\/"
  /\ matchAt (list_ascii_of_string "x//y") flags_g (literal "//") 1 <> None.
Proof.
  intros c tg.
  destruct (fragment_matches_marker_only c tg (list_ascii_of_string "x//y") 1)
    as (H1 & _ & H2 & _).
  - vm_compute. left. reflexivity.
  - split; [rewrite H1; reflexivity|].
    apply H2. reflexivity.
Defined.








(** The delimiter pattern reads in one way, so the range of a match is
    fixed by where it starts: no longer range from the same start is the
    range of a match. *)
Lemma readsAs_functional d D1 D2 : readsAs d D1 -> readsAs d D2 -> D1 = D2.
Proof.
  intros H1 H2. specialize (H1 ""). specialize (H2 "").
  rewrite H1 in H2. cbn in H2. inversion H2. reflexivity.
Qed.

Lemma wholeMatchRange_determined this text r1 r2 :
  wholeMatchRange this text r1 -> wholeMatchRange this text r2 ->
  start (range r1) = start (range r2) ->
  end_ (range r1) = end_ (range r2).
Proof.
  unfold wholeMatchRange. cbv zeta.
  intros (P1 & y1 & s1 & e1 & Hm1 & He1 & _ & _ & _ & _ & _ & _ & HP1)
         (P2 & y2 & s2 & e2 & Hm2 & He2 & _ & _ & _ & _ & _ & _ & HP2) Hst.
  assert (EP : P1 = P2).
  { destruct (plainMode this).
    - destruct HP1 as (-> & _), HP2 as (-> & _). reflexivity.
    - destruct HP1 as (D1 & _ & _ & HD1 & -> & _),
               HP2 as (D2 & _ & _ & HD2 & -> & _).
      now rewrite (readsAs_functional _ _ _ HD1 HD2). }
  subst P2. rewrite Hst in Hm1. rewrite Hm1 in Hm2.
  inversion Hm2; subst y2. congruence.
Qed.





(** Nor does what holds the marker of the later tag always go to the
    earlier one: with [!], [!?] and [?] configured in this order, the
    comment that holds only [!?] goes to [?], the marker that the last
    repetition of the group of the tags took. *)
Example longer_marker_goes_to_a_third_tag :
  let this := SetRegex "javascript"
                (new_Parser (config true false ["!"; "!?"; "?"])) in
  rangesByTag (resultOf (FindSingleLineComments "// !?" this) this)
  = [("!", []); ("!?", []); ("?", [(0, 5)])].
Proof. vm_compute. reflexivity. Qed.








(* ================================================================= *)
(** * Further properties of the parser *)


(** X2. Resolving the same language twice in a row is resolving it once:
    a second [SetRegex] for the same language code leaves the parser as
    the first one left it, whatever the parser was before. *)
Theorem SetRegex_twice languageCode this :
  SetRegex languageCode (SetRegex languageCode this)
  = SetRegex languageCode this.
Proof.
  rewrite (TableFacts.SetRegex_eq languageCode this). cbv zeta.
  set (q := setDelimiter languageCode this).
  assert (Hq : setDelimiter languageCode q = q)
    by apply TableFacts.setDelimiter_idem.
  destruct (supportedLanguage q) eqn:Es.
  - rewrite TableFacts.SetRegex_eq. cbv zeta.
    rewrite TableFacts.setDelimiter_set_expression, Hq.
    cbn [supportedLanguage set_expression]. rewrite Es.
    reflexivity.
  - rewrite TableFacts.SetRegex_eq. cbv zeta. rewrite Hq, Es. reflexivity.
Qed.

(** X3. No language of the table switches the single-line scan off: every
    call of [setCommentFormat] passes a delimiter, so [SetRegex] leaves
    [highlightSingleLineComments] as it found it, and on a parser that
    comes from the constructor it stays on for every language code. *)
Theorem single_line_scan_never_switched_off languageCode this c :
  highlightSingleLineComments (SetRegex languageCode this)
  = highlightSingleLineComments this
  /\ highlightSingleLineComments (SetRegex languageCode (new_Parser c)) = true.
Proof.
  assert (H : forall p, highlightSingleLineComments (SetRegex languageCode p)
                        = highlightSingleLineComments p).
  { intros p. rewrite TableFacts.SetRegex_eq. cbv zeta.
    destruct (supportedLanguage (setDelimiter languageCode p));
      cbn [highlightSingleLineComments set_expression];
      apply TableFacts.setDelimiter_single. }
  split; [apply H|]. rewrite H, TableFacts.new_Parser_eq. reflexivity.
Qed.

(** X4. The setting [multilineComments] gates the block scans. On a
    parser that comes from the constructor, with the setting off,
    [FindBlockComments] leaves the parser as it is for every language and
    text, and so does [FindJSDocComments] for every language outside the
    JavaScript family; for the languages of that family [highlightJSDoc] is
    on whatever the setting, so their doc comments are still scanned. *)
Theorem multilineComments_off languageCode c text :
  let this := SetRegex languageCode (new_Parser c) in
  multilineComments c = false ->
  FindBlockComments text this = Done this
  /\ (case_ languageCode jsFamily = false ->
      FindJSDocComments text this = Done this)
  /\ (case_ languageCode jsFamily = true ->
      highlightJSDoc this = true /\ supportedLanguage this = true).
Proof.
  intros this Hm.
  assert (H : highlightMultilineComments this = false
              /\ (case_ languageCode jsFamily = false ->
                  highlightJSDoc this = false)).
  { unfold this, jsFamily.
    rewrite TableFacts.SetRegex_eq, TableFacts.new_Parser_eq. cbv zeta.
    match goal with
    | |- context [supportedLanguage ?q] => destruct (supportedLanguage q)
    end;
      cbn [highlightMultilineComments highlightJSDoc set_expression];
      TableFacts.by_cases languageCode; cbn; rewrite ?Hm;
      split; auto; discriminate. }
  destruct H as (H1 & H2). split; [|split].
  - unfold FindBlockComments. rewrite H1. reflexivity.
  - intros Hjs. unfold FindJSDocComments. rewrite H1, (H2 Hjs). reflexivity.
  - intros Hjs. unfold case_ in Hjs. apply existsb_exists in Hjs.
    destruct Hjs as (l & Hl & E). apply String.eqb_eq in E. subst l.
    unfold this. rewrite TableFacts.new_Parser_eq.
    simpl in Hl.
    repeat (destruct Hl as [<-|Hl]; [split; reflexivity|]).
    contradiction.
Qed.

Lemma multilineComments_off_witness :
  let text := "/*" ++ newline ++ " ! x" ++ newline ++ "*/" in
  let this := SetRegex "java" (new_Parser (config false false ["!"])) in
  FindBlockComments text this = Done this
  /\ FindJSDocComments text this = Done this.
Proof.
  intros text this.
  destruct (multilineComments_off "java" (config false false ["!"]) text)
    as (H1 & H2 & _).
  - reflexivity.
  - split; [exact H1 | apply H2; reflexivity].
Defined.

(** X5. The three scans only append. When a scan returns, every tag holds
    the ranges it held before, in the same order, followed by the new
    ones, and nothing else of the parser has changed: no scan removes,
    reorders or rewrites a range, and none touches the markers, the
    pattern or the flags. *)
Theorem scans_only_append text this this' :
  FindSingleLineComments text this = Done this'
  \/ FindBlockComments text this = Done this'
  \/ FindJSDocComments text this = Done this' ->
  appendsTo this this'.
Proof.
  intros [H | [H | H]].
  - now apply (FindSingleLineComments_appendsTo text).
  - now apply (FindBlockComments_appendsTo text).
  - now apply (FindJSDocComments_appendsTo text).
Qed.

Lemma scans_only_append_witness :
  let block := "/*" ++ newline ++ " ! y" ++ newline ++ "*/" in
  let this := SetRegex "javascript" (new_Parser (config true false ["!"])) in
  let once := resultOf (FindSingleLineComments "// ! x" this) this in
  let twice := resultOf (FindBlockComments block once) once in
  rangesByTag once = [("!", [(0, 6)])]
  /\ rangesByTag twice = [("!", [(0, 6); (4, 7)])]
  /\ appendsTo once twice.
Proof.
  intros block this once twice.
  split; [vm_compute; reflexivity|]. split; [vm_compute; reflexivity|].
  apply (scans_only_append block once twice).
  right. left. vm_compute. reflexivity.
Defined.

(** X6. What the patterns of the scans rely on is kept from the
    constructor on: the escaped form of every tag is the escape of its
    marker, and the two block delimiters are strings that came out of
    [escapeRegExp]. The constructor establishes it; [SetRegex], the three
    scans and [ApplyDecorations] keep it. *)
Theorem wellFormed_kept c languageCode text this this' :
  wellFormed (new_Parser c)
  /\ (wellFormed this ->
      wellFormed (SetRegex languageCode this)
      /\ wellFormed (snd (ApplyDecorations this))
      /\ (FindSingleLineComments text this = Done this'
          \/ FindBlockComments text this = Done this'
          \/ FindJSDocComments text this = Done this' ->
          wellFormed this')).
Proof.
  split; [apply TableFacts.new_Parser_wellFormed|].
  intros H. split; [now apply TableFacts.SetRegex_wellFormed|]. split.
  - apply (wellFormed_cleared _ this); [|exact H].
    unfold ApplyDecorations, cleared. cbn [snd p_tags set_tags].
    unfold set_tags. cbn. f_equal. rewrite map_map. reflexivity.
  - intros Hscan. apply (wellFormed_cleared _ this); [|exact H].
    destruct Hscan as [Hs | [Hs | Hs]].
    + apply (FindSingleLineComments_appendsTo text _ _ Hs).
    + apply (FindBlockComments_appendsTo text _ _ Hs).
    + apply (FindJSDocComments_appendsTo text _ _ Hs).
Qed.

Lemma wellFormed_kept_witness :
  let this := SetRegex "python" (new_Parser (config true false ["!"; "todo"])) in
  wellFormed this /\ wellFormed (SetRegex "java" this).
Proof.
  intros this.
  destruct (wellFormed_kept (config true false ["!"; "todo"]) "python" ""
              (new_Parser (config true false ["!"; "todo"])) this)
    as (H0 & H1).
  destruct (H1 H0) as (H2 & _).
  split; [exact H2|].
  destruct (wellFormed_kept (config true false ["!"; "todo"]) "java" ""
              this this) as (_ & H3).
  exact (proj1 (H3 H2)).
Defined.

(** X7. The single-line scan returns. For every language of the table
    that is scanned with its delimiter (supported, and not in plain-text
    mode), on every text and with every tag configuration, the scan
    neither throws nor loops: the delimiter takes at least one character,
    so no match is empty, and the third group takes part in every match. *)
Theorem single_line_scan_returns languageCode this0 text :
  let this := SetRegex languageCode this0 in
  registryBuilt this0 ->
  supportedLanguage this = true -> plainMode this = false ->
  exists this', FindSingleLineComments text this = Done this'.
Proof.
  intros this Hreg Hs Hp.
  destruct (TableFacts.SetRegex_compiles_delimited languageCode this0
              Hreg Hs Hp) as (D & Hc & Hnew).
  exact (delimited_scan_returns text _ D _ Hnew Hc).
Qed.

Lemma single_line_scan_returns_witness :
  let this := SetRegex "sql" (new_Parser (config true false ["!"; ""])) in
  exists this',
    FindSingleLineComments ("-- ! a" ++ newline ++ newline ++ "--") this
    = Done this'.
Proof.
  intros this.
  apply (single_line_scan_returns "sql" (new_Parser (config true false ["!"; ""]))).
  - reflexivity.
  - reflexivity.
  - reflexivity.
Defined.

(** X8. The block scan returns. On a well-formed parser, whatever the
    language resolved and whatever the text, [FindBlockComments] neither
    throws nor loops: its two patterns compile, neither has an empty
    match, and the groups its body reads take part in every match. *)
Theorem block_scan_returns text this :
  wellFormed this ->
  exists this', FindBlockComments text this = Done this'.
Proof. apply FindBlockComments_returns. Qed.

Lemma block_scan_returns_witness :
  let this := SetRegex "lua" (new_Parser (config true false ["!"; ""])) in
  exists this',
    FindBlockComments ("--[[ " ++ newline ++ "! a" ++ newline ++ "]]") this
    = Done this'.
Proof.
  intros this. apply block_scan_returns.
  apply TableFacts.SetRegex_wellFormed, TableFacts.new_Parser_wellFormed.
Defined.

(** X9. The doc-comment scan returns. On every parser whose registry the
    constructor built, whatever the language and the text,
    [FindJSDocComments] neither throws nor loops. *)
Theorem doc_scan_returns text this :
  registryBuilt this ->
  exists this', FindJSDocComments text this = Done this'.
Proof. apply FindJSDocComments_returns. Qed.

Lemma doc_scan_returns_witness :
  let this := SetRegex "typescript" (new_Parser (config false false ["!"])) in
  exists this',
    FindJSDocComments ("/**" ++ newline ++ " * ! a" ++ newline ++ " */") this
    = Done this'.
Proof.
  intros this. apply doc_scan_returns.
  apply TableFacts.SetRegex_registryBuilt, TableFacts.new_Parser_registryBuilt.
Defined.




(** The ranges of a block scan lie in the matches of its outer pattern. *)
Lemma blockLoop_insideBlock text OPEN (opens : nat -> nat -> Prop) e
    commentRegEx this r :
  let input := list_ascii_of_string text in
  (forall a b, Matches input flags_gm OPEN a b ->
               opens (endIndex a) (endIndex b)) ->
  global (flags commentRegEx) = true ->
  allRanges (insideBlock opens e input) this ->
  whileExec (loopFuel text) text (blockBody text)
    (compiled
       (Seq lineStartOrBlank
          (Seq (Repeat 1 None true (Group 2 OPEN))
             (Seq (Group 3 (Seq (Repeat 0 None false anyChar) Empty))
                (Seq (Group 4 (literal e)) Empty)))) 4 flags_gm)
    (this, commentRegEx) = Done r ->
  allRanges (insideBlock opens e input) (fst (fst r)).
Proof.
  intros input Hopen Hg Hall H.
  set (regEx := compiled _ 4 flags_gm) in H.
  apply (blockLoop_allRanges _ text regEx commentRegEx this r eq_refl Hg Hall);
    [|exact H].
  intros m block line l2 l0 Hm Eb Hline E2 E0.
  destruct (isMatch_whole _ _ _ _ Hm Eb) as (y & Hy & -> & Hy1 & Hy2 & Hlen).
  destruct (isMatch_whole _ _ _ _ Hline E0)
    as (yl & Hyl & _ & Hl1 & Hl2 & Hl0).
  destruct (isMatch_group _ _ _ _ _ Hline E2)
    as (yl' & s2 & e2 & Hyl' & _ & _ & Hs1 & Hs2 & Hs3 & _ & Hl2').
  assert (yl' = yl) by congruence. subst yl'.
  unfold regEx in Hy. cbn [source flags compiled] in Hy.
  destruct (MatchFacts.matchAt_blockShape _ _ _ _ _ _ Hy)
    as (x1 & x2 & k & H1 & H2 & Hk1 & Hk2 & Hk3 & Hk4).
  apply MatchFacts.Matches_blockBegins in H1.
  cbn [endIndex initialState] in H1.
  pose proof (MatchFacts.Matches_openerRun _ _ _ opens _ _ Hopen H2) as Hrun.
  exists (RegExp.index m), (endIndex x1), (endIndex x2), k.
  cbn [range start end_]. rewrite Hl0. rewrite Hlen in Hl2.
  repeat split; auto; lia.
Qed.

(** X11. [FindBlockComments] finds its ranges in block comments only. On a
    parser whose block delimiters are the escapes of [s] and [e], every
    range the scan adds lies in a block comment of the text: the comment
    begins at an opener ([s] followed by a character of white space) that
    stands at the start of a line or after a space or tab, which is then
    part of it; openers may follow one another; the comment ends with the
    first [e] that stands after them. The range starts where the comment
    begins or later, and ends where the comment ends or before: the scan
    neither reaches back before the comment nor carries on past its
    end. *)
Theorem block_ranges_in_block_comments text this this' s e :
  let input := list_ascii_of_string text in
  blockCommentStart this = escapeRegExp s ->
  blockCommentEnd this = escapeRegExp e ->
  allRanges (insideBlock (opensBlock s input) e input) this ->
  FindBlockComments text this = Done this' ->
  allRanges (insideBlock (opensBlock s input) e input) this'.
Proof.
  intros input Hs He Hall H. unfold FindBlockComments in H.
  destruct (highlightMultilineComments this); cbn [negb] in H;
    [|inversion H; subst; exact Hall].
  rewrite Hs, He in H.
  unfold newRegExp at 1 in H. rewrite PatternFacts.new_blockPattern in H.
  cbn [bind] in H.
  apply bind_Done in H. destruct H as (commentRegEx & E2 & H).
  apply bind_Done in H. destruct H as (r & Hw & H).
  inversion H; subst; clear H.
  apply newRegExp_Done, new_lastIndex in E2.
  apply (blockLoop_insideBlock text
           (literalThen s (Seq (CharClass false [ClassSpace]) Empty))
           (opensBlock s input) e commentRegEx this r); auto.
  - intros a b Hab. apply MatchFacts.Matches_blockOpener in Hab.
    exact Hab.
  - destruct E2 as [_ ->]; reflexivity.
Qed.

Lemma block_ranges_in_block_comments_witness :
  let text := "x = 1; /* a" ++ newline ++ " ! b */ y = 2; /* c */" in
  let this := SetRegex "javascript" (new_Parser (config true false ["!"])) in
  let this' := resultOf (FindBlockComments text this) this in
  rangesByTag this' = [("!", [(13, 19)])]
  /\ allRanges
       (insideBlock (opensBlock "/*" (list_ascii_of_string text)) "*/"
          (list_ascii_of_string text)) this'.
Proof.
  intros text this this'. split; [vm_compute; reflexivity|].
  apply (block_ranges_in_block_comments text this this' "/*" "*/").
  - reflexivity.
  - reflexivity.
  - intros t Ht r Hr. vm_compute in Ht. destruct Ht as [<-|[]]. destruct Hr.
  - vm_compute. reflexivity.
Defined.

(** X12. [FindJSDocComments] finds its ranges in doc comments only: every
    range the scan adds lies in a doc comment of the text, which begins at
    a [/**] that stands at the start of a line or after a space or tab
    (then part of it), may go on with further [/**], and ends with the
    first [*/] that stands after them. The range starts where the comment
    begins or later and ends where the comment ends or before. *)
Theorem doc_ranges_in_doc_comments text this this' :
  let input := list_ascii_of_string text in
  allRanges (insideBlock (opensDoc input) "*/" input) this ->
  FindJSDocComments text this = Done this' ->
  allRanges (insideBlock (opensDoc input) "*/" input) this'.
Proof.
  intros input Hall H. unfold FindJSDocComments in H.
  destruct (negb (highlightMultilineComments this)
            && negb (highlightJSDoc this));
    [inversion H; subst; exact Hall|].
  unfold newRegExp at 1 in H. rewrite PatternFacts.new_docBlockPattern in H.
  cbn [bind] in H.
  apply bind_Done in H. destruct H as (commentRegEx & E2 & H).
  apply bind_Done in H. destruct H as (r & Hw & H).
  inversion H; subst; clear H.
  apply newRegExp_Done, new_lastIndex in E2.
  apply (blockLoop_insideBlock text (literal "/**") (opensDoc input) "*/"
           commentRegEx this r); auto.
  - intros a b Hab. apply MatchFacts.Matches_literal in Hab.
    destruct Hab as (Ho & ->). split; [exact Ho|].
    cbn [endIndex advanceBy String.length]. reflexivity.
  - destruct E2 as [_ ->]; reflexivity.
Qed.

Lemma doc_ranges_in_doc_comments_witness :
  let text := "/** a" ++ newline ++ " * ! b" ++ newline
              ++ " */ f(); /** c */" in
  let this := SetRegex "javascript" (new_Parser (config true false ["!"])) in
  let this' := resultOf (FindJSDocComments text this) this in
  rangesByTag this' = [("!", [(9, 12)])]
  /\ allRanges
       (insideBlock (opensDoc (list_ascii_of_string text)) "*/"
          (list_ascii_of_string text)) this'.
Proof.
  intros text this this'. split; [vm_compute; reflexivity|].
  apply (doc_ranges_in_doc_comments text this this').
  - intros t Ht r Hr. vm_compute in Ht. destruct Ht as [<-|[]]. destruct Hr.
  - vm_compute. reflexivity.
Defined.

(** X13. The block scans file a range under a tag whose marker stands
    where the range starts. On a parser whose registry the constructor
    built, every range that [FindBlockComments] or [FindJSDocComments]
    adds to the tag at a place of the registry starts at an index where
    the marker of that tag stands in the text, letter case apart; the
    markers themselves are left as they were. *)
Theorem block_range_starts_at_its_marker text this this' :
  registryBuilt this ->
  rangesAt (markerAtStart this text) this ->
  FindBlockComments text this = Done this'
  \/ FindJSDocComments text this = Done this' ->
  rangesAt (markerAtStart this text) this' /\ markers this' = markers this.
Proof.
  intros Hreg Hall H. unfold registryBuilt in Hreg.
  assert (Hloop : forall regEx lead r,
    global (flags regEx) = true ->
    whileExec (loopFuel text) text (blockBody text) regEx
      (this, compiled (linePattern lead (markers this)) 5 flags_igm)
    = Done r ->
    rangesAt (markerAtStart this text) (fst (fst r))
    /\ markers (fst (fst r)) = markers this).
  { intros regEx lead r Hg Hw.
    apply (blockLoop_rangesAt _ text regEx
             (compiled (linePattern lead (markers this)) 5 flags_igm)
             this r Hg eq_refl Hall); [|exact Hw].
    intros m block line l2 l0 l3 k tg.
    apply linePattern_markerAtStart. }
  destruct H as [H | H].
  - unfold FindBlockComments in H.
    destruct (highlightMultilineComments this); cbn [negb] in H;
      [|inversion H; subst; auto].
    apply bind_Done in H. destruct H as (regEx & E1 & H).
    apply bind_Done in H. destruct H as (commentRegEx & E2 & H).
    apply bind_Done in H. destruct H as (r & Hw & H).
    inversion H; subst; clear H.
    apply newRegExp_Done, new_lastIndex in E1.
    rewrite Hreg in E2. apply newRegExp_Done in E2.
    rewrite PatternFacts.new_linePattern_block in E2.
    inversion E2; subst commentRegEx.
    apply (Hloop regEx blockLead r); [|exact Hw].
    destruct E1 as [_ ->]; reflexivity.
  - unfold FindJSDocComments in H.
    destruct (negb (highlightMultilineComments this)
              && negb (highlightJSDoc this));
      [inversion H; subst; auto|].
    apply bind_Done in H. destruct H as (regEx & E1 & H).
    apply bind_Done in H. destruct H as (commentRegEx & E2 & H).
    apply bind_Done in H. destruct H as (r & Hw & H).
    inversion H; subst; clear H.
    apply newRegExp_Done, new_lastIndex in E1.
    rewrite Hreg in E2. apply newRegExp_Done in E2.
    rewrite PatternFacts.new_linePattern_doc in E2.
    inversion E2; subst commentRegEx.
    apply (Hloop regEx docLead r); [|exact Hw].
    destruct E1 as [_ ->]; reflexivity.
Qed.

Lemma block_range_starts_at_its_marker_witness :
  let text := "/*" ++ newline ++ "  TODO: a" ++ newline ++ "  ! b"
              ++ newline ++ "*/" in
  let this := SetRegex "javascript" (new_Parser (config true false ["!"; "todo"])) in
  let this' := resultOf (FindBlockComments text this) this in
  rangesByTag this' = [("!", [(15, 18)]); ("todo", [(5, 12)])]
  /\ rangesAt (markerAtStart this text) this'.
Proof.
  intros text this this'. split; [vm_compute; reflexivity|].
  apply (block_range_starts_at_its_marker text this this').
  - reflexivity.
  - intros k t Hk r Hr. apply nth_error_In in Hk. vm_compute in Hk.
    destruct Hk as [<-|[<-|[]]]; destruct Hr.
  - left. vm_compute. reflexivity.
Defined.

(** X14. What the single-line scan finds, for a language whose delimiter
    is a literal (it came out of [escapeRegExp], as [//], [#] or [--] do).
    A tagged comment begins where the delimiter stands one or more times
    in a row, followed by spaces and tabs and then by a marker of the
    registry, letter case apart (as the [i] flag has it for the letters
    of the 8-bit range). With markers that hold no line terminator, the
    scan returns, and it leaves a range from the index [i] exactly when
    [i] is where the first tagged comment of a line begins; when the
    language sets [ignoreFirstLine], the comment at the very first
    character of the text is left out. A second tagged comment further
    along the same line gets no range of its own. *)
Theorem first_tagged_comment_of_each_line languageCode this0 d text :
  let this := SetRegex languageCode this0 in
  let ts := markers this0 in
  registryBuilt this0 -> buffersEmpty this0 ->
  supportedLanguage this = true -> isPlainText this = false ->
  highlightSingleLineComments this = true ->
  delimiter this = escapeRegExp d -> d <> "" -> terminatorFree d ->
  (forall t, In t ts -> terminatorFree t) ->
  exists this',
    FindSingleLineComments text this = Done this'
    /\ forall i,
         hasRangeFrom this' i
         <-> firstCommentTag flags_ig d ts (list_ascii_of_string text) i
             /\ (ignoreFirstLine this = true -> i <> 0).
Proof.
  intros this ts Hreg Hempty Hsup Hpt Hhs Hdel Hd Hfree Hline.
  assert (Htags : p_tags this = p_tags this0)
    by apply TableFacts.SetRegex_tags.
  assert (Hmk : markers this = ts) by (unfold markers, ts; now rewrite Htags).
  assert (Hpm : plainMode this = false)
    by (unfold plainMode; now rewrite Hpt).
  pose proof (TableFacts.SetRegex_compiles_literal languageCode this0 d Hreg Hsup Hpm
                Hdel) as Hnew.
  fold this in Hnew. unfold singleLineFlags in Hnew. rewrite Hpt in Hnew.
  fold ts in Hnew.
  destruct (delimited_scan_ranges text this d) as (this' & Hrun & Hiff);
    auto; try (rewrite Hmk; auto).
  - intros t Ht. apply Hempty. rewrite <- Htags. exact Ht.
  - exists this'. split; [exact Hrun|]. rewrite Hmk in Hiff. exact Hiff.
Qed.

Lemma first_tagged_comment_of_each_line_witness :
  let text := "# ! a" ++ newline ++ "x ## todo b # ! c" ++ newline ++ "#y ! d" in
  let this := SetRegex "python" (new_Parser (config true false ["!"; "todo"])) in
  exists this',
    FindSingleLineComments text this = Done this'
    /\ rangesByTag this' = [("!", []); ("todo", [(8, 23)])]
    /\ (hasRangeFrom this' 9
        <-> firstCommentTag flags_ig "#" ["!"; "todo"]
              (list_ascii_of_string text) 9
            /\ (ignoreFirstLine this = true -> 9 <> 0)).
Proof.
  intros text this.
  destruct (first_tagged_comment_of_each_line "python"
              (new_Parser (config true false ["!"; "todo"])) "#" text)
    as (this' & Hrun & Hiff).
  - apply TableFacts.new_Parser_registryBuilt.
  - intros t Ht. vm_compute in Ht.
    destruct Ht as [<-|[<-|[]]]; reflexivity.
  - reflexivity.
  - reflexivity.
  - reflexivity.
  - reflexivity.
  - discriminate.
  - intros a Ha. vm_compute in Ha.
    repeat (destruct Ha as [<-|Ha]; [reflexivity|]); destruct Ha.
  - intros t Ht. vm_compute in Ht.
    destruct Ht as [<-|[<-|[]]];
      intros a Ha; vm_compute in Ha;
      repeat (destruct Ha as [<-|Ha]; [reflexivity|]); destruct Ha.
  - exists this'. fold this in Hrun. split; [exact Hrun|]. split.
    + assert (E : Done this' = FindSingleLineComments text this)
        by (symmetry; exact Hrun).
      vm_compute in E. inversion E. reflexivity.
    + apply (Hiff 9).
Defined.

(** The loop with its position, when it returns: an invariant of the last
    index and the loop state that the body keeps at every match holds at
    the end. *)
Lemma whileExec_positions {A} text (body : ExecArray -> A -> Outcome A)
    (Inv : nat -> A -> Prop) R0 :
  global (flags R0) = true ->
  (forall L m a a' y,
      Inv L a -> L <= RegExp.index m -> isMatch R0 text m ->
      matchAt (list_ascii_of_string text) (flags R0) (source R0)
        (RegExp.index m) = Some y ->
      body m a = Done a' -> Inv (endIndex y) a') ->
  forall fuel R a r,
    sameProgram R R0 -> Inv (lastIndex R) a ->
    whileExec fuel text body R a = Done r ->
    (exists L, Inv L (fst r)) /\ sameProgram (snd r) R0.
Proof.
  intros Hg Hbody fuel; induction fuel as [|fuel IH];
    intros R a r HR Ha H; simpl in H; [discriminate|].
  destruct (exec R text) as [[m|] R'] eqn:E.
  - destruct (exec_isMatch _ _ _ _ _ HR Hg E)
      as (Hm & HR' & (y & Hy & HlR') & Hle).
    destruct (body m a) as [a'| |] eqn:Eb; simpl in H; try discriminate.
    destruct (Nat.eqb (lastIndex R') (lastIndex R)); [discriminate|].
    apply IH in H; auto. rewrite HlR'. eapply Hbody; eauto.
  - inversion H; subst; simpl.
    apply exec_None in E; [|destruct HR as (_ & -> & _); exact Hg].
    destruct E as [-> _]. split; [exists (lastIndex R); exact Ha|].
    destruct HR as (H1 & H2 & H3). repeat split; auto.
Qed.

Lemma ForallOrdPairs_snoc {A} (R : A -> A -> Prop) l x :
  ForallOrdPairs R l -> Forall (fun y => R y x) l ->
  ForallOrdPairs R (l ++ [x]).
Proof.
  induction 1 as [|a l Ha Hl IH]; intros Hx; cbn [app].
  - constructor; [constructor | constructor].
  - inversion Hx; subst. constructor; [|apply IH; assumption].
    apply Forall_app. split; [exact Ha | constructor; [assumption|constructor]].
Qed.

Lemma pushToFirst_In p r l t :
  In t (pushToFirst p r l) ->
  In t l \/ exists t0, In t0 l /\ t = pushRange r t0.
Proof.
  induction l as [|t0 l IH]; cbn [pushToFirst]; [contradiction|].
  destruct (p t0).
  - intros [<-|H]; [right; exists t0; split; [left|]; reflexivity|].
    left. right. exact H.
  - intros [<-|H]; [left; left; reflexivity|].
    destruct (IH H) as [H1|(t1 & H1 & H2)]; [left; right; exact H1|].
    right. exists t1. split; [right; exact H1 | exact H2].
Qed.

(** A range that starts where every range of the registry has ended keeps
    the registry in text order, whichever tag it goes to. *)
Lemma addToMatchingTag_inTextOrder m3 rg a a' L :
  endBy L a -> inTextOrder a -> L <= start (range rg) ->
  addToMatchingTag m3 rg a = Done a' ->
  inTextOrder a'
  /\ forall B, endBy B a -> end_ (range rg) <= B -> endBy B a'.
Proof.
  intros Hend (Hsorted & Hcross) HL H.
  apply addToMatchingTag_cases in H. destruct H as [->|(s & ->)].
  { split; [split; assumption | auto]. }
  set (p := fun item : CommentTag =>
              String.eqb (JS.toLowerCase (tag item)) (JS.toLowerCase s)).
  assert (Hold : forall t r, In t (p_tags a) -> In r (ranges t) ->
                             endsBefore r rg).
  { intros t r Ht Hr. unfold endsBefore. specialize (Hend t Ht r Hr). lia. }
  split; [split|]; cbn [p_tags set_tags].
  - intros t Ht. apply pushToFirst_In in Ht.
    destruct Ht as [Ht|(t1 & Ht1 & ->)]; [apply Hsorted; exact Ht|].
    cbn [ranges pushRange]. apply ForallOrdPairs_snoc; [apply Hsorted; auto|].
    apply Forall_forall. intros r Hr. apply (Hold t1 r Ht1 Hr).
  - intros k1 k2 t1 t2 r1 r2 Hk H1 H2 Hr1 Hr2.
    destruct (pushToFirst_nth p rg (p_tags a) k1 t1 H1 r1 Hr1)
      as [(u1 & Hu1 & Hru1)|(-> & u1 & Hu1 & Hp1 & Hf1)];
    destruct (pushToFirst_nth p rg (p_tags a) k2 t2 H2 r2 Hr2)
      as [(u2 & Hu2 & Hru2)|(-> & u2 & Hu2 & Hp2 & Hf2)].
    + apply (Hcross k1 k2 u1 u2 r1 r2); auto.
    + left. apply (Hold u1 r1); [eapply nth_error_In; eauto | exact Hru1].
    + right. apply (Hold u2 r2); [eapply nth_error_In; eauto | exact Hru2].
    + exfalso. destruct (Nat.lt_ge_cases k1 k2) as [Hlt|Hge].
      * rewrite (Hf2 k1 u1 Hlt Hu1) in Hp1. discriminate.
      * assert (Hlt : k2 < k1) by lia.
        rewrite (Hf1 k2 u2 Hlt Hu2) in Hp2. discriminate.
  - intros B HB Hrg t Ht r Hr.
    destruct (pushToFirst_ranges p rg (p_tags a) t Ht r Hr)
      as [->|(t1 & Ht1 & Hr1)]; [exact Hrg | apply (HB t1 Ht1 r Hr1)].
Qed.

Lemma endBy_le L L' a : endBy L a -> L <= L' -> endBy L' a.
Proof. intros H HL t Ht r Hr. specialize (H t Ht r Hr). lia. Qed.

Lemma buffersEmpty_inTextOrder this L :
  buffersEmpty this -> endBy L this /\ inTextOrder this.
Proof.
  intros H. split; [|split].
  - intros t Ht r Hr. rewrite (H t Ht) in Hr. destruct Hr.
  - intros t Ht. rewrite (H t Ht). constructor.
  - intros k1 k2 t1 t2 r1 r2 _ H1 _ Hr1 _.
    rewrite (H t1 (nth_error_In _ _ H1)) in Hr1. destruct Hr1.
Qed.

Lemma FindSingleLineComments_inTextOrder text this this' :
  buffersEmpty this ->
  FindSingleLineComments text this = Done this' -> inTextOrder this'.
Proof.
  intros Hempty H. unfold FindSingleLineComments in H.
  destruct (highlightSingleLineComments this); cbn [negb] in H;
    [|inversion H; subst; exact (proj2 (buffersEmpty_inTextOrder _ 0 Hempty))].
  apply bind_Done in H. destruct H as (R & ER & H).
  apply bind_Done in H. destruct H as ([p1 R1] & EW & H).
  apply newRegExp_Done in ER.
  inversion H; subst; clear H. cbn [fst] in *.
  destruct (new_lastIndex _ _ _ ER) as [HL0 Hfl].
  assert (Hg : global (flags R) = true).
  { rewrite Hfl. destruct (isPlainText this); reflexivity. }
  pose (Inv := fun (L : nat) (q : Parser) => endBy L q /\ inTextOrder q).
  destruct (whileExec_positions text (singleLineBody text) Inv R Hg)
    with (fuel := loopFuel text) (R := R) (a := this) (r := (this', R1))
    as ((L & _ & Hord) & _); auto.
  - intros L m a a' y (Hend & Hord) HLm Hm Hy Hb.
    unfold singleLineBody in Hb.
    apply bind_Done in Hb. destruct Hb as (m0 & E0 & Hb).
    apply defined_Done in E0.
    destruct (isMatch_whole _ _ _ _ Hm E0) as (z & Hz & _ & Hz1 & Hz2 & Hlen).
    rewrite Hy in Hz. inversion Hz; subst z; clear Hz.
    unfold positionAt in Hb.
    destruct (ignoreFirstLine a
              && Nat.eqb (Position_line text (RegExp.index m)) 0
              && Nat.eqb (Position_character text (RegExp.index m)) 0).
    + inversion Hb; subst a'. split; [|exact Hord].
      apply (endBy_le L); [exact Hend | lia].
    + eapply addToMatchingTag_inTextOrder in Hb;
        [|exact Hend | exact Hord | exact HLm].
      destruct Hb as (Hord' & Hend').
      split; [|exact Hord'].
      apply Hend'; [apply (endBy_le L); [exact Hend | lia]|].
      cbn [range end_]. lia.
  - apply sameProgram_refl.
  - apply (buffersEmpty_inTextOrder this _ Hempty).
Qed.

Lemma blockLoop_inTextOrder text regEx commentRegEx this r :
  global (flags regEx) = true -> global (flags commentRegEx) = true ->
  buffersEmpty this ->
  whileExec (loopFuel text) text (blockBody text) regEx
    (this, commentRegEx) = Done r ->
  inTextOrder (fst (fst r)).
Proof.
  intros Hg1 Hg2 Hempty H.
  pose (Inv1 := fun (L : nat) (st : Parser * RegExp) =>
    endBy L (fst st) /\ inTextOrder (fst st)
    /\ sameProgram (snd st) commentRegEx).
  destruct (whileExec_positions text (blockBody text) Inv1 regEx Hg1)
    with (fuel := loopFuel text) (R := regEx) (a := (this, commentRegEx))
         (r := r)
    as ((L & _ & Hord & _) & _); auto.
  - intros L m [a cre] [a' cre'] y (Hend & Hord & Hcre) HLm Hm Hy Hb.
    cbn [fst snd] in *. unfold blockBody in Hb.
    apply bind_Done in Hb. destruct Hb as (block & Eb & Hb).
    apply defined_Done in Eb.
    destruct (isMatch_whole _ _ _ _ Hm Eb) as (z & Hz & _ & Hz1 & Hz2 & Hlen).
    rewrite Hy in Hz. inversion Hz; subst z; clear Hz.
    pose (Inv2 := fun (Li : nat) (q : Parser) =>
      endBy (RegExp.index m + Li) q /\ endBy (endIndex y) q
      /\ inTextOrder q).
    destruct (whileExec_positions block
                (blockLineBody text (RegExp.index m)) Inv2 commentRegEx Hg2)
      with (fuel := loopFuel block) (R := cre) (a := a) (r := (a', cre'))
      as ((Li & _ & Hend' & Hord') & Hcre'); auto.
    + intros Li line q q' yi (Hq1 & Hq2 & Hq3) HLi Hline Hyi Hlb.
      unfold blockLineBody in Hlb.
      apply bind_Done in Hlb. destruct Hlb as (l2 & _ & Hlb).
      apply bind_Done in Hlb. destruct Hlb as (l0 & E0 & Hlb).
      apply defined_Done in E0.
      destruct (isMatch_whole _ _ _ _ Hline E0)
        as (z & Hz & _ & Hzi1 & Hzi2 & Hleni).
      rewrite Hyi in Hz. inversion Hz; subst z; clear Hz.
      unfold positionAt in Hlb.
      eapply addToMatchingTag_inTextOrder in Hlb;
        [|exact Hq1 | exact Hq3 | cbn [range start]; lia].
      destruct Hlb as (Hord' & Hend').
      split; [|split; [|exact Hord']].
      * apply Hend'; [apply (endBy_le (RegExp.index m + Li)); [exact Hq1|lia]|].
        cbn [range end_]. lia.
      * apply Hend'; [exact Hq2|]. cbn [range end_]. lia.
    + split; [|split; [|exact Hord]].
      * apply (endBy_le L); [exact Hend | lia].
      * apply (endBy_le L); [exact Hend | lia].
    + split; [exact Hend' | split; [exact Hord' | exact Hcre']].
  - apply sameProgram_refl.
  - destruct (buffersEmpty_inTextOrder this (lastIndex regEx) Hempty)
      as (H1 & H2).
    split; [exact H1 | split; [exact H2 | apply sameProgram_refl]].
Qed.

Lemma FindBlockComments_inTextOrder text this this' :
  buffersEmpty this ->
  FindBlockComments text this = Done this' -> inTextOrder this'.
Proof.
  intros Hempty H. unfold FindBlockComments in H.
  destruct (highlightMultilineComments this); cbn [negb] in H;
    [|inversion H; subst; exact (proj2 (buffersEmpty_inTextOrder _ 0 Hempty))].
  apply bind_Done in H. destruct H as (regEx & E1 & H).
  apply bind_Done in H. destruct H as (commentRegEx & E2 & H).
  apply bind_Done in H. destruct H as (r & Hw & H).
  inversion H; subst; clear H.
  apply newRegExp_Done, new_lastIndex in E1.
  apply newRegExp_Done, new_lastIndex in E2.
  apply (blockLoop_inTextOrder text regEx commentRegEx this r); auto.
  - destruct E1 as [_ ->]; reflexivity.
  - destruct E2 as [_ ->]; reflexivity.
Qed.

Lemma FindJSDocComments_inTextOrder text this this' :
  buffersEmpty this ->
  FindJSDocComments text this = Done this' -> inTextOrder this'.
Proof.
  intros Hempty H. unfold FindJSDocComments in H.
  destruct (negb (highlightMultilineComments this)
            && negb (highlightJSDoc this));
    [inversion H; subst; exact (proj2 (buffersEmpty_inTextOrder _ 0 Hempty))|].
  apply bind_Done in H. destruct H as (regEx & E1 & H).
  apply bind_Done in H. destruct H as (commentRegEx & E2 & H).
  apply bind_Done in H. destruct H as (r & Hw & H).
  inversion H; subst; clear H.
  apply newRegExp_Done, new_lastIndex in E1.
  apply newRegExp_Done, new_lastIndex in E2.
  apply (blockLoop_inTextOrder text regEx commentRegEx this r); auto.
  - destruct E1 as [_ ->]; reflexivity.
  - destruct E2 as [_ ->]; reflexivity.
Qed.

(** X15. The ranges of one scan do not overlap. Each of the three scans,
    started with empty buffers, leaves the ranges of every tag in the
    order of the text, each ending where the next one starts or before,
    and a range of one tag lies wholly before or wholly after a range of
    another: a match begins where the one before it ended or later, and
    the lines of a block lie inside its match. This holds whatever the
    patterns are. It is a property of one scan: a pass runs the three
    scans into the same buffers, and a range of the single-line scan can
    lie inside a range of a block scan. *)
Theorem scan_ranges_do_not_overlap text this this' :
  buffersEmpty this ->
  FindSingleLineComments text this = Done this'
  \/ FindBlockComments text this = Done this'
  \/ FindJSDocComments text this = Done this' ->
  inTextOrder this'.
Proof.
  intros Hempty [H | [H | H]].
  - now apply (FindSingleLineComments_inTextOrder text this).
  - now apply (FindBlockComments_inTextOrder text this).
  - now apply (FindJSDocComments_inTextOrder text this).
Qed.

Lemma scan_ranges_do_not_overlap_witness :
  let text := "/*" ++ newline ++ " ! a" ++ newline ++ " todo b" ++ newline
              ++ " ! c" ++ newline ++ "*/" in
  let this := SetRegex "javascript"
                (new_Parser (config true false ["!"; "todo"])) in
  let this' := resultOf (FindBlockComments text this) this in
  rangesByTag this' = [("!", [(4, 7); (17, 20)]); ("todo", [(9, 15)])]
  /\ inTextOrder this'.
Proof.
  intros text this this'.
  split; [vm_compute; reflexivity|].
  apply (scan_ranges_do_not_overlap text this this').
  - intros t Ht. vm_compute in Ht.
    destruct Ht as [<-|[<-|[]]]; reflexivity.
  - right. left. vm_compute. reflexivity.
Defined.

(** The limit of the statement: in a pass, the single-line scan and the
    block scan of this text leave two ranges that overlap. *)
Example ranges_of_two_scans_overlap :
  let text := "/*" ++ newline ++ " ! // ! x" ++ newline ++ "*/" in
  let this := SetRegex "javascript" (new_Parser (config true false ["!"])) in
  let once := resultOf (FindSingleLineComments text this) this in
  let twice := resultOf (FindBlockComments text once) once in
  rangesByTag twice = [("!", [(6, 12); (4, 12)])].
Proof. vm_compute. reflexivity. Qed.
